(** * SSZ codec: encoder, schema definer and partial reader

    A shallow embedding of the Go sources [reader.go], [encoder.go],
    [codec.go] and of the test types [VoluntaryExit] and
    [ExecutionPayload] with their readers, followed by the properties of
    the specification stated over that embedding.

    Conventions.
    - [uint32] and [uint64] values are [Z] with the wrap-around written
      out ([wrap32]; [le_split] truncates to the width it writes); Go's
      [int] is [Z].
    - A byte slice that is only read is a [list byte].  The payload of
      the reader, on which slice expressions with an upper index are
      taken, comes with the bytes of its backing array up to its
      capacity ([spare]).  The encoder's output buffer, which is
      re-sliced while the caller keeps the array, is a [Slice]; the code
      only takes [b[k:]] of it and indexes it, which Go bounds by the
      length.
    - A Go function that can panic returns an [outcome]. *)

From Stdlib Require Import String ZArith List Lia Bool.
From coqutil Require Import Byte Word.LittleEndianList.
Import ListNotations.
Open Scope string_scope.
Open Scope list_scope.
Open Scope Z_scope.

(** ** Machine integers, panics and [encoding/binary] *)

Definition wrap32 (z : Z) : Z := z mod 2 ^ 32.

(** The result of a Go call: it returns, or it panics with a message. *)
Inductive outcome (A : Type) : Type :=
| Ok (a : A)
| Panic (msg : string).
Arguments Ok {A} a.
Arguments Panic {A} msg.

Definition bind {A B : Type} (m : outcome A) (k : A -> outcome B) : outcome B :=
  match m with
  | Ok a => k a
  | Panic msg => Panic msg
  end.

Notation "x <- m ;; k" := (bind m (fun x => k))
  (at level 61, m at next level, right associativity).

Definition panics {A : Type} (m : outcome A) : bool :=
  match m with
  | Ok _ => false
  | Panic _ => true
  end.

(** [a[lo:hi]] on a byte array [a], or on a slice given by the whole of
    its backing array from the start of the slice to its capacity: Go
    bounds the indices of a slice expression on a slice by the capacity,
    not by the length. *)
Definition subslice (a : list byte) (lo hi : Z) : outcome (list byte) :=
  if (0 <=? lo) && (lo <=? hi) && (hi <=? Z.of_nat (length a))
  then Ok (firstn (Z.to_nat (hi - lo)) (skipn (Z.to_nat lo) a))
  else Panic "slice bounds out of range".

(** The built-in [copy(dst, src)]: the first [min(len(dst), len(src))]
    bytes of [dst] are replaced; the result is the new content of [dst]. *)
Definition copy (dst src : list byte) : list byte :=
  firstn (length dst) src ++ skipn (length src) dst.

(** [binary.LittleEndian]: the value-returning forms.  [PutUintNN] is the
    byte string that the Go function stores into its argument. *)
Definition PutUint32 (v : Z) : list byte := le_split 4 v.
Definition PutUint64 (v : Z) : list byte := le_split 8 v.
Definition Uint32 (b : list byte) : Z := le_combine (firstn 4 b).
Definition Uint64 (b : list byte) : Z := le_combine (firstn 8 b).

Definition len {A : Type} (l : list A) : Z := Z.of_nat (length l).

(** uint32 division, which panics on a zero divisor. *)
Definition div32 (a b : Z) : outcome Z :=
  if b =? 0 then Panic "integer divide by zero" else Ok (a / b).

(** ** reader.go *)

(** [payload] is a slice: the field [payload] holds its [len(payload)]
    bytes and [spare] the bytes of its backing array between
    [len(payload)] and [cap(payload)] (none for a payload whose capacity is
    its length, such as a byte slice literal). *)
Record ReaderSource := { payload : list byte; spare : list byte }.

(** The backing array of the payload, from the start of the slice to its
    capacity: what a slice expression [payload[lo:hi]] slices. *)
Definition backing (r : ReaderSource) : list byte := payload r ++ spare r.

(** [cap(payload)] *)
Definition cap (r : ReaderSource) : Z := len (backing r).

Record ReadPos := {
  Offset : Z;
  NextOffset : Z;
  ContainerEnd : Z
}.

Module ReadPos.

Definition Add (p : ReadPos) (localOffset : Z) : ReadPos :=
  {| Offset := wrap32 (Offset p + localOffset);
     NextOffset := 0;
     ContainerEnd := ContainerEnd p |}.

Definition AddWithNext (p : ReadPos) (localOffset localNextOffset : Z) : ReadPos :=
  {| Offset := wrap32 (Offset p + localOffset);
     NextOffset := wrap32 (Offset p + localNextOffset);
     ContainerEnd := ContainerEnd p |}.

End ReadPos.

(** What the type switch of [ListReader.Item] and [ListReader.ItemSize]
    sees in a prototype: a [StaticReader] has [SizeSSZ()], a
    [DynamicReader] has [SizeSSZ(fixed bool)], any other type has
    neither. *)
Inductive Sizer : Type :=
| IsStaticReader (SizeSSZ : Z)
| IsDynamicReader (SizeSSZ : bool -> Z)
| NoSizeSSZ.

(** The interface [Reader[T]], with the dynamic type of the value as the
    type switches observe it. *)
Class Reader (T : Type) : Type := {
  InitReaderSSZ : T -> ReadPos -> T;
  sizer : T -> Sizer
}.

Module ReaderSource.

Definition offset (r : ReaderSource) (o : Z) : outcome Z :=
  data <- subslice (backing r) o (wrap32 (o + 4)) ;;
  Ok (Uint32 data).

(** objectEnd returns the end position of the object referred to by pos. *)
Definition objectEnd (r : ReaderSource) (pos : ReadPos) : outcome Z :=
  if NextOffset pos =? 0 then Ok (ContainerEnd pos)
  else offset r (NextOffset pos).

End ReaderSource.

Record Uint64Reader := { u64_pos : ReadPos }.

#[export] Instance Uint64Reader_Reader : Reader Uint64Reader := {
  InitReaderSSZ _ pos := {| u64_pos := pos |};
  sizer _ := NoSizeSSZ
}.

Module Uint64Reader.

(** The result is the value stored through [v]. *)
Definition Read (r : Uint64Reader) (src : ReaderSource) : outcome Z :=
  data <- subslice (backing src) (Offset (u64_pos r)) (Offset (u64_pos r) + 8) ;;
  Ok (Uint64 data).

End Uint64Reader.

Record ByteArrayReader := { ba_pos : ReadPos; Size : Z }.

#[export] Instance ByteArrayReader_Reader : Reader ByteArrayReader := {
  InitReaderSSZ r pos := {| ba_pos := pos; Size := Size r |};
  sizer _ := NoSizeSSZ
}.

Module ByteArrayReader.

(** The result is the new content of the caller's slice [v]. *)
Definition Read (r : ByteArrayReader) (src : ReaderSource) (v : list byte)
  : outcome (list byte) :=
  if negb (Z.of_nat (length v) =? Size r) then Panic "invalid size"
  else
    data <- subslice (backing src) (Offset (ba_pos r)) (Offset (ba_pos r) + Size r) ;;
    Ok (copy v data).

End ByteArrayReader.

Record DynamicBytesReader := { db_pos : ReadPos }.

#[export] Instance DynamicBytesReader_Reader : Reader DynamicBytesReader := {
  InitReaderSSZ _ pos := {| db_pos := pos |};
  sizer _ := NoSizeSSZ
}.

Module DynamicBytesReader.

(** The result is the new content of the caller's slice [v]. *)
Definition Read (r : DynamicBytesReader) (src : ReaderSource) (v : list byte)
  : outcome (list byte) :=
  start <- ReaderSource.offset src (Offset (db_pos r)) ;;
  end_ <- ReaderSource.objectEnd src (db_pos r) ;;
  data <- subslice (backing src) start end_ ;;
  Ok (copy v data).

End DynamicBytesReader.

Record ListReader (T : Type) := {
  Prototype : T;
  lr_pos : ReadPos
}.
Arguments Prototype {T} _.
Arguments lr_pos {T} _.

#[export] Instance ListReader_Reader (T : Type) : Reader (ListReader T) := {
  InitReaderSSZ r pos := {| Prototype := Prototype r; lr_pos := pos |};
  sizer _ := NoSizeSSZ
}.

Module ListReader.

Section WithItem.
Context {T : Type} `{Reader T}.

Definition Item (r : ListReader T) (src : ReaderSource) (n : Z) : outcome T :=
  (* Get the size of the container. *)
  start <- ReaderSource.offset src (Offset (lr_pos r)) ;;
  end_ <- ReaderSource.objectEnd src (lr_pos r) ;;
  if start =? end_ then Panic "out of bounds" (* Len() == 0 *)
  else
    nextOffset <-
      match sizer (Prototype r) with
      | IsStaticReader size =>
          let itemSize := size in
          length <- div32 (wrap32 (end_ - start)) itemSize ;;
          if n >=? length then Panic "out of bounds"
          else Ok 0
      | IsDynamicReader size =>
          let itemSize := size false in
          length <- div32 (wrap32 (end_ - start)) itemSize ;;
          if n >=? length then Panic "out of bounds"
          else Ok (if n <=? length - 1 then wrap32 (start + 4) else 0)
      | NoSizeSSZ => Ok 0
      end ;;
    let pos := {| Offset := wrap32 (start + wrap32 n);
                  NextOffset := nextOffset;
                  ContainerEnd := end_ |} in
    Ok (InitReaderSSZ (Prototype r) pos).

Definition ItemSize (r : ListReader T) : outcome Z :=
  match sizer (Prototype r) with
  | IsStaticReader size => Ok size
  | IsDynamicReader size => Ok (size false)
  | NoSizeSSZ => Panic "invalid item type"
  end.

(** The two offsets are read before [ItemSize] is called. *)
Definition Len (r : ListReader T) (src : ReaderSource) : outcome Z :=
  start <- ReaderSource.offset src (Offset (lr_pos r)) ;;
  end_ <- ReaderSource.objectEnd src (lr_pos r) ;;
  itemSize <- ItemSize r ;;
  div32 (wrap32 (end_ - start)) itemSize.

End WithItem.

End ListReader.

(** ** encoder.go *)

(** A byte slice together with the array it points into: the slice is
    [arr[lo:]].  Re-slicing ([b = b[k:]]) moves [lo]; the bytes before
    [lo] stay in the array, where the caller who handed out the buffer
    reads them. *)
Record Slice := { arr : list byte; lo : nat }.

Definition nilSlice : Slice := {| arr := []; lo := 0 |}.

Definition slen (s : Slice) : Z := Z.of_nat (length (arr s) - lo s).

(** [copy(s, p)] *)
Definition scopy (s : Slice) (p : list byte) : Slice :=
  {| arr := firstn (lo s) (arr s) ++ copy (skipn (lo s) (arr s)) p;
     lo := lo s |}.

(** [binary.LittleEndian.PutUintNN(s, v)], with [p] the bytes of [v]: the
    function first touches the last byte it is going to write. *)
Definition sput (s : Slice) (p : list byte) : outcome Slice :=
  if slen s <? len p then Panic "index out of range"
  else Ok (scopy s p).

(** [s[k:]] *)
Definition sfrom (s : Slice) (k : Z) : outcome Slice :=
  if (0 <=? k) && (k <=? slen s)
  then Ok {| arr := arr s; lo := (lo s + Z.to_nat k)%nat |}
  else Panic "slice bounds out of range".

(** The bytes that the encoder has put into the caller's buffer. *)
Definition written (s : Slice) : list byte := firstn (lo s) (arr s).

(** Go's [error] values. *)
Definition error : Type := string.

(** [io.Writer].  Every caller discards the byte count that [Write]
    returns, so it is left out. *)
Class Writer (W : Type) : Type :=
  Write : W -> list byte -> W * option error.

(** [MarshalSSZTo(dst)] of [uint256.Int] (github.com/holiman/uint256):
    the 32 little-endian bytes of the integer; a destination shorter than
    32 bytes is left alone (the error it returns is dropped by the
    caller). *)
Definition MarshalSSZTo (n : Z) : list byte := le_split 32 n.

Definition zeros32 : list byte := repeat Byte.x00 32.

Section Encoder.
Context {W : Type} {writer : Writer W}.

(** Encoder is a wrapper around an io.Writer or a []byte buffer to
    implement SSZ encoding in a streaming or buffered way.  The field
    [buf] is scratch space that is always filled before it is passed to
    [Write], and [codec] points back to the codec that owns the encoder;
    neither carries state of its own. *)
Record Encoder := {
  outWriter : option W;   (* Underlying output stream to write into (streaming mode) *)
  outBuffer : Slice;      (* Underlying output stream to write into (buffered mode) *)
  err : option error;     (* Any write error to halt future encoding calls *)
  offset : Z              (* Offset tracker for dynamic fields *)
}.

Definition setOutBuffer (enc : Encoder) (b : Slice) : Encoder :=
  {| outWriter := outWriter enc; outBuffer := b; err := err enc; offset := offset enc |}.

Definition setOffset (enc : Encoder) (o : Z) : Encoder :=
  {| outWriter := outWriter enc; outBuffer := outBuffer enc; err := err enc; offset := o |}.

Definition hasErr (enc : Encoder) : bool :=
  match err enc with Some _ => true | None => false end.

(** [_, enc.err = enc.outWriter.Write(p)] *)
Definition write (enc : Encoder) (p : list byte) : outcome Encoder :=
  match outWriter enc with
  | Some w =>
      let (w', e) := Write w p in
      Ok {| outWriter := Some w'; outBuffer := outBuffer enc; err := e; offset := offset enc |}
  | None => Panic "nil pointer dereference"
  end.

(** [binary.LittleEndian.PutUintNN(enc.outBuffer, v); enc.outBuffer = enc.outBuffer[k:]] *)
Definition bufferPut (enc : Encoder) (p : list byte) : outcome Encoder :=
  b <- sput (outBuffer enc) p ;;
  b <- sfrom b (len p) ;;
  Ok (setOutBuffer enc b).

(** [copy(enc.outBuffer, p); enc.outBuffer = enc.outBuffer[len(p):]] *)
Definition bufferCopy (enc : Encoder) (p : list byte) : outcome Encoder :=
  b <- sfrom (scopy (outBuffer enc) p) (len p) ;;
  Ok (setOutBuffer enc b).

(** offsetDynamics marks the item being encoded as a dynamic type, setting
    the starting offset for the dynamic fields. *)
Definition offsetDynamics (enc : Encoder) (offset : Z) : Encoder :=
  setOffset enc offset.

(** [enc.offset += d] *)
Definition addOffset (enc : Encoder) (d : Z) : Encoder :=
  setOffset enc (wrap32 (offset enc + d)).

(** The value types' side of the encoder: [SizeSSZ] and [DefineSSZ].
    [obj.DefineSSZ(enc.codec)] runs on the codec whose encoder is [enc];
    on that codec every [Define...] call forwards to its [Encode...]
    function, so the method is a transformer of the encoder. *)
Record StaticObject := {
  SizeSSZ : Z;
  DefineSSZ : Encoder -> outcome Encoder
}.

Record DynamicObject := {
  SizeSSZd : bool -> Z;
  DefineSSZd : Encoder -> outcome Encoder
}.

(** EncodeUint64 serializes a uint64. *)
Definition EncodeUint64 (n : Z) (enc : Encoder) : outcome Encoder :=
  match outWriter enc with
  | Some _ =>
      if hasErr enc then Ok enc
      else write enc (PutUint64 n)
  | None => bufferPut enc (PutUint64 n)
  end.

(** EncodeUint256 serializes a uint256.

    Note, a nil pointer is serialized as zero. *)
Definition EncodeUint256 (n : option Z) (enc : Encoder) : outcome Encoder :=
  match outWriter enc with
  | Some _ =>
      if hasErr enc then Ok enc
      else
        match n with
        | Some n => write enc (MarshalSSZTo n)
        | None => write enc zeros32
        end
  | None =>
      let b :=
        match n with
        | Some n =>
            if slen (outBuffer enc) <? 32 then outBuffer enc
            else scopy (outBuffer enc) (MarshalSSZTo n)
        | None => scopy (outBuffer enc) zeros32
        end in
      b <- sfrom b 32 ;;
      Ok (setOutBuffer enc b)
  end.

(** EncodeStaticBytes serializes a static binary blob. *)
Definition EncodeStaticBytes (blob : list byte) (enc : Encoder) : outcome Encoder :=
  match outWriter enc with
  | Some _ =>
      if hasErr enc then Ok enc
      else write enc blob
  | None => bufferCopy enc blob
  end.

(** The snippet at the head of every [Encode...Offset] function (the
    source repeats it verbatim): the current offset goes out as four
    little-endian bytes.  [None] stands for the early [return]. *)
Definition encodeOffset (enc : Encoder) : outcome (option Encoder) :=
  match outWriter enc with
  | Some _ =>
      if hasErr enc then Ok None
      else
        enc <- write enc (PutUint32 (offset enc)) ;;
        Ok (Some enc)
  | None =>
      enc <- bufferPut enc (PutUint32 (offset enc)) ;;
      Ok (Some enc)
  end.

(** An [Encode...Offset] function: [encodeOffset], then the statements
    [advance] that move [enc.offset]. *)
Definition offsetPhase (advance : Encoder -> Encoder) (enc : Encoder) : outcome Encoder :=
  r <- encodeOffset enc ;;
  match r with
  | None => Ok enc
  | Some enc => Ok (advance enc)
  end.

(** [for _, x := range xs { if enc.err != nil { return }; body }]: the
    result tells whether the loop left the function. *)
Inductive ctl : Type :=
| Returned (enc : Encoder)
| Continues (enc : Encoder).

Fixpoint rangeChecked {A : Type} (body : A -> Encoder -> outcome Encoder)
    (xs : list A) (enc : Encoder) : outcome ctl :=
  match xs with
  | [] => Ok (Continues enc)
  | x :: xs =>
      if hasErr enc then Ok (Returned enc)
      else
        enc <- body x enc ;;
        rangeChecked body xs enc
  end.

(** [for _, x := range xs { body }] *)
Fixpoint range {A : Type} (body : A -> Encoder -> outcome Encoder)
    (xs : list A) (enc : Encoder) : outcome Encoder :=
  match xs with
  | [] => Ok enc
  | x :: xs =>
      enc <- body x enc ;;
      range body xs enc
  end.

(** What is left of a function after a loop that may have returned. *)
Definition andThen (m : outcome ctl) (k : Encoder -> outcome Encoder) : outcome Encoder :=
  c <- m ;;
  match c with
  | Returned enc => Ok enc
  | Continues enc => k enc
  end.

(** EncodeDynamicBytesOffset serializes a dynamic binary blob. *)
Definition EncodeDynamicBytesOffset (blob : list byte) (enc : Encoder) : outcome Encoder :=
  offsetPhase (fun enc => addOffset enc (wrap32 (len blob))) enc.

(** EncodeDynamicBytesContent is the lazy data writer for EncodeDynamicBytesOffset. *)
Definition EncodeDynamicBytesContent (blob : list byte) (enc : Encoder) : outcome Encoder :=
  match outWriter enc with
  | Some _ =>
      if hasErr enc then Ok enc
      else write enc blob
  | None => bufferCopy enc blob
  end.

(** EncodeStaticObject serializes a static ssz object. *)
Definition EncodeStaticObject (obj : StaticObject) (enc : Encoder) : outcome Encoder :=
  if hasErr enc then Ok enc
  else DefineSSZ obj enc.

(** EncodeDynamicObjectOffset serializes a dynamic ssz object. *)
Definition EncodeDynamicObjectOffset (obj : DynamicObject) (enc : Encoder) : outcome Encoder :=
  offsetPhase (fun enc => addOffset enc (SizeSSZd obj false)) enc.

(** EncodeDynamicObjectContent is the lazy data writer for EncodeDynamicObjectOffset. *)
Definition EncodeDynamicObjectContent (obj : DynamicObject) (enc : Encoder) : outcome Encoder :=
  if hasErr enc then Ok enc
  else
    let enc := offsetDynamics enc (SizeSSZd obj true) in
    DefineSSZd obj enc.

(** EncodeSliceOfUint64sOffset serializes a dynamic slice of uint64s. *)
Definition EncodeSliceOfUint64sOffset (ns : list Z) (enc : Encoder) : outcome Encoder :=
  offsetPhase (fun enc =>
    let items := len ns in
    if items >? 0 then addOffset enc (wrap32 (items * 8)) else enc) enc.

(** EncodeSliceOfUint64sContent is the lazy data writer for EncodeSliceOfUint64sOffset. *)
Definition EncodeSliceOfUint64sContent (ns : list Z) (enc : Encoder) : outcome Encoder :=
  match outWriter enc with
  | Some _ =>
      andThen (rangeChecked (fun n enc => write enc (PutUint64 n)) ns enc) Ok
  | None =>
      range (fun n enc => bufferPut enc (PutUint64 n)) ns enc
  end.

(** EncodeArrayOfStaticBytes serializes a static array of static binary
    blobs.  [T] is one of the byte array types of [commonBinaryLengths],
    none of which is empty, so [blobs[i][0]] exists. *)
Definition EncodeArrayOfStaticBytes (blobs : list (list byte)) (enc : Encoder) : outcome Encoder :=
  match outWriter enc with
  | Some _ =>
      andThen (rangeChecked (fun blob enc => write enc blob) blobs enc) Ok
  | None =>
      range (fun blob enc => bufferCopy enc blob) blobs enc
  end.

(** EncodeSliceOfStaticBytesOffset serializes a dynamic slice of static binary blobs. *)
Definition EncodeSliceOfStaticBytesOffset (blobs : list (list byte)) (enc : Encoder) : outcome Encoder :=
  offsetPhase (fun enc =>
    let items := len blobs in
    if items >? 0 then addOffset enc (wrap32 (items * len (hd [] blobs))) else enc) enc.

(** EncodeSliceOfStaticBytesContent is the lazy data writer for EncodeSliceOfStaticBytesOffset. *)
Definition EncodeSliceOfStaticBytesContent (blobs : list (list byte)) (enc : Encoder) : outcome Encoder :=
  match outWriter enc with
  | Some _ =>
      andThen (rangeChecked (fun blob enc => write enc blob) blobs enc) Ok
  | None =>
      range (fun blob enc => bufferCopy enc blob) blobs enc
  end.

(** EncodeSliceOfDynamicBytesOffset serializes a dynamic slice of dynamic binary blobs. *)
Definition EncodeSliceOfDynamicBytesOffset (blobs : list (list byte)) (enc : Encoder) : outcome Encoder :=
  offsetPhase (fun enc =>
    fold_left (fun enc blob => addOffset enc (wrap32 (4 + len blob))) blobs enc) enc.

(** EncodeSliceOfDynamicBytesContent is the lazy data writer for EncodeSliceOfDynamicBytesOffset. *)
Definition EncodeSliceOfDynamicBytesContent (blobs : list (list byte)) (enc : Encoder) : outcome Encoder :=
  let enc := offsetDynamics enc (wrap32 (4 * len blobs)) in
  (* Inline: for _, blob := range blobs { EncodeDynamicBytesOffset(enc, blob) } *)
  andThen
    match outWriter enc with
    | Some _ =>
        rangeChecked (fun blob enc =>
          enc <- write enc (PutUint32 (offset enc)) ;;
          Ok (addOffset enc (wrap32 (len blob)))) blobs enc
    | None =>
        enc <- range (fun blob enc =>
          enc <- bufferPut enc (PutUint32 (offset enc)) ;;
          Ok (addOffset enc (wrap32 (len blob)))) blobs enc ;;
        Ok (Continues enc)
    end
    (fun enc =>
      (* Inline: for _, blob := range blobs { EncodeDynamicBytesContent(enc, blob) } *)
      match outWriter enc with
      | Some _ =>
          andThen (rangeChecked (fun blob enc => write enc blob) blobs enc) Ok
      | None =>
          range (fun blob enc => bufferCopy enc blob) blobs enc
      end).

(** EncodeSliceOfStaticObjectsOffset serializes a dynamic slice of static ssz objects. *)
Definition EncodeSliceOfStaticObjectsOffset (objects : list StaticObject) (enc : Encoder) : outcome Encoder :=
  offsetPhase (fun enc =>
    match objects with
    | [] => enc
    | obj0 :: _ => addOffset enc (wrap32 (wrap32 (len objects) * SizeSSZ obj0))
    end) enc.

(** EncodeSliceOfStaticObjectsContent is the lazy data writer for EncodeSliceOfStaticObjectsOffset. *)
Definition EncodeSliceOfStaticObjectsContent (objects : list StaticObject) (enc : Encoder) : outcome Encoder :=
  andThen (rangeChecked (fun obj enc => DefineSSZ obj enc) objects enc) Ok.

(** EncodeSliceOfDynamicObjectsOffset serializes a dynamic slice of dynamic ssz objects. *)
Definition EncodeSliceOfDynamicObjectsOffset (objects : list DynamicObject) (enc : Encoder) : outcome Encoder :=
  offsetPhase (fun enc =>
    fold_left (fun enc obj => addOffset enc (wrap32 (4 + SizeSSZd obj false))) objects enc) enc.

(** EncodeSliceOfDynamicObjectsContent is the lazy data writer for EncodeSliceOfDynamicObjectsOffset. *)
Definition EncodeSliceOfDynamicObjectsContent (objects : list DynamicObject) (enc : Encoder) : outcome Encoder :=
  let enc := offsetDynamics enc (wrap32 (4 * len objects)) in
  (* Inline: for _, obj := range objects { EncodeDynamicObjectOffset(enc, obj) } *)
  andThen
    match outWriter enc with
    | Some _ =>
        rangeChecked (fun obj enc =>
          enc <- write enc (PutUint32 (offset enc)) ;;
          Ok (addOffset enc (SizeSSZd obj false))) objects enc
    | None =>
        enc <- range (fun obj enc =>
          enc <- bufferPut enc (PutUint32 (offset enc)) ;;
          Ok (addOffset enc (SizeSSZd obj false))) objects enc ;;
        Ok (Continues enc)
    end
    (fun enc =>
      (* Inline: for _, obj := range objects { EncodeDynamicObjectContent(enc, obj) } *)
      andThen
        (rangeChecked (fun obj enc =>
           let enc := offsetDynamics enc (SizeSSZd obj true) in
           DefineSSZd obj enc) objects enc)
        Ok).

End Encoder.

Arguments Encoder W : clear implicits.
Arguments StaticObject W : clear implicits.
Arguments DynamicObject W : clear implicits.
Arguments ctl W : clear implicits.

(** ** Output sinks *)

(** A sink that never fails and keeps what it was given, such as
    [bytes.Buffer]. *)
#[export] Instance bytesBuffer : Writer (list byte) :=
  fun w p => (w ++ p, None).

(** A sink with room for [room] more bytes; a write that does not fit is
    rejected as a whole. *)
Record LimitedWriter := { taken : list byte; room : nat }.

#[export] Instance limitedWriter : Writer LimitedWriter :=
  fun w p =>
    if (length p <=? room w)%nat
    then ({| taken := taken w ++ p; room := room w - length p |}, None)
    else (w, Some "short write").

(** ** The calls of a schema method on an encoding codec

    codec.go: on a codec whose [enc] is set, every [Define...] function
    forwards to the [Encode...] function of the same name and returns.
    A [DefineSSZ] method run on such a codec is therefore a sequence of
    encoder calls; [Call] lists them with their arguments, and a value
    that is itself an object carries its sizes and its own calls. *)
Inductive Call : Type :=
| CallUint64 (n : Z)
| CallUint256 (n : option Z)
| CallStaticBytes (blob : list byte)
| CallDynamicBytesOffset (blob : list byte)
| CallDynamicBytesContent (blob : list byte)
| CallStaticObject (obj : StaticValue)
| CallDynamicObjectOffset (obj : DynamicValue)
| CallDynamicObjectContent (obj : DynamicValue)
| CallSliceOfUint64sOffset (ns : list Z)
| CallSliceOfUint64sContent (ns : list Z)
| CallArrayOfStaticBytes (blobs : list (list byte))
| CallSliceOfStaticBytesOffset (blobs : list (list byte))
| CallSliceOfStaticBytesContent (blobs : list (list byte))
| CallSliceOfDynamicBytesOffset (blobs : list (list byte))
| CallSliceOfDynamicBytesContent (blobs : list (list byte))
| CallSliceOfStaticObjectsOffset (objects : list StaticValue)
| CallSliceOfStaticObjectsContent (objects : list StaticValue)
| CallSliceOfDynamicObjectsOffset (objects : list DynamicValue)
| CallSliceOfDynamicObjectsContent (objects : list DynamicValue)
with StaticValue : Type :=
| StaticV (size : Z) (calls : list Call)
with DynamicValue : Type :=
| DynamicV (size : bool -> Z) (calls : list Call).

Definition staticSize (v : StaticValue) : Z :=
  match v with StaticV size _ => size end.
Definition staticCalls (v : StaticValue) : list Call :=
  match v with StaticV _ calls => calls end.
Definition dynamicSize (v : DynamicValue) : bool -> Z :=
  match v with DynamicV size _ => size end.
Definition dynamicCalls (v : DynamicValue) : list Call :=
  match v with DynamicV _ calls => calls end.

Section Exec.
Context {W : Type} {writer : Writer W}.

(** One call after the other; a panic ends the sequence. *)
Definition sequence (fs : list (Encoder W -> outcome (Encoder W))) (enc : Encoder W)
  : outcome (Encoder W) :=
  fold_left (fun m f => enc <- m ;; f enc) fs (Ok enc).

Fixpoint exec (c : Call) : Encoder W -> outcome (Encoder W) :=
  match c with
  | CallUint64 n => EncodeUint64 n
  | CallUint256 n => EncodeUint256 n
  | CallStaticBytes blob => EncodeStaticBytes blob
  | CallDynamicBytesOffset blob => EncodeDynamicBytesOffset blob
  | CallDynamicBytesContent blob => EncodeDynamicBytesContent blob
  | CallStaticObject obj => EncodeStaticObject (staticObject obj)
  | CallDynamicObjectOffset obj => EncodeDynamicObjectOffset (dynamicObject obj)
  | CallDynamicObjectContent obj => EncodeDynamicObjectContent (dynamicObject obj)
  | CallSliceOfUint64sOffset ns => EncodeSliceOfUint64sOffset ns
  | CallSliceOfUint64sContent ns => EncodeSliceOfUint64sContent ns
  | CallArrayOfStaticBytes blobs => EncodeArrayOfStaticBytes blobs
  | CallSliceOfStaticBytesOffset blobs => EncodeSliceOfStaticBytesOffset blobs
  | CallSliceOfStaticBytesContent blobs => EncodeSliceOfStaticBytesContent blobs
  | CallSliceOfDynamicBytesOffset blobs => EncodeSliceOfDynamicBytesOffset blobs
  | CallSliceOfDynamicBytesContent blobs => EncodeSliceOfDynamicBytesContent blobs
  | CallSliceOfStaticObjectsOffset objects =>
      EncodeSliceOfStaticObjectsOffset (map staticObject objects)
  | CallSliceOfStaticObjectsContent objects =>
      EncodeSliceOfStaticObjectsContent (map staticObject objects)
  | CallSliceOfDynamicObjectsOffset objects =>
      EncodeSliceOfDynamicObjectsOffset (map dynamicObject objects)
  | CallSliceOfDynamicObjectsContent objects =>
      EncodeSliceOfDynamicObjectsContent (map dynamicObject objects)
  end
with staticObject (v : StaticValue) : StaticObject W :=
  match v with
  | StaticV size calls =>
      {| SizeSSZ := size; DefineSSZ := sequence (map exec calls) |}
  end
with dynamicObject (v : DynamicValue) : DynamicObject W :=
  match v with
  | DynamicV size calls =>
      {| SizeSSZd := size; DefineSSZd := sequence (map exec calls) |}
  end.

(** A [DefineSSZ] method given by its calls. *)
Definition execAll (calls : list Call) : Encoder W -> outcome (Encoder W) :=
  sequence (map exec calls).

End Exec.

(** ** Entry points *)

Section EntryPoints.
Context {W : Type} {writer : Writer W}.

(** The interface [Object]: a value is a static or a dynamic object. *)
Inductive Object : Type :=
| StaticObj (obj : StaticObject W)
| DynamicObj (obj : DynamicObject W).

(** Modelled from the spec: the encoder that an entry point of section 6
    starts from (their file is not among the sources).  Section 3: the
    encoder holds either a sink or a cursor into a pre-sized buffer, and
    no error has been latched yet. *)
Definition newStreaming (w : W) : Encoder W :=
  {| outWriter := Some w; outBuffer := nilSlice; err := None; offset := 0 |}.

(** Modelled from the spec: as [newStreaming], for the buffered mode of
    section 4.B; the cursor is at the start of the caller's buffer. *)
Definition newBuffered (buf : list byte) : Encoder W :=
  {| outWriter := None; outBuffer := {| arr := buf; lo := 0 |}; err := None; offset := 0 |}.

(** Modelled from the spec: the body shared by [Encode(value, sink)] and
    [EncodeToBuffer(value, buffer)] of section 6, whose file is not among
    the sources.  Section 4.B: before a dynamic value is emitted the
    offset is set to the size of its fixed part, which is what
    [EncodeDynamicObjectContent] does; a static value is walked as it
    is. *)
Definition encodeObject (obj : Object) (enc : Encoder W) : outcome (Encoder W) :=
  match obj with
  | StaticObj obj => EncodeStaticObject obj enc
  | DynamicObj obj => EncodeDynamicObjectContent obj enc
  end.

(** The sink of a streaming encoder. *)
Definition sinkOf (enc : Encoder W) (w0 : W) : W :=
  match outWriter enc with
  | Some w => w
  | None => w0
  end.

(** Modelled from the spec: [Encode(value, sink) -> error?] of section 6,
    on a fresh encoder without a latched error.  The result is the sink
    after the call and the error that is returned. *)
Definition EncodeToStream (w : W) (obj : Object) : outcome (W * option error) :=
  enc <- encodeObject obj (newStreaming w) ;;
  Ok (sinkOf enc w, err enc).

(** Modelled from the spec: [EncodeToBuffer(value, buffer) -> error?] of
    section 6.  The result is the caller's buffer after the call and the
    error that is returned. *)
Definition EncodeToBytes (buf : list byte) (obj : Object) : outcome (list byte * option error) :=
  enc <- encodeObject obj (newBuffered buf) ;;
  Ok (arr (outBuffer enc), err enc).

End EntryPoints.

Arguments Object W : clear implicits.

(** ** The decoder and codec.go *)

(** Modelled from the spec: the error kinds of section 7 (the error
    values of the library are not among the sources). *)
Inductive ErrorKind : Type :=
| OutputWriteFailed
| InputShort
| MalformedOffsets
| MalformedListSize
| SizeExceedsLimit
| UnsupportedShape.

(** Modelled from the spec: the decoder state of section 3 (decoder.go is
    not among the sources): the input payload, a read cursor and the
    latched first decode error. *)
Record Decoder := {
  input : list byte;
  cursor : Z;
  derr : option ErrorKind
}.

(** Modelled from the spec: [DecodeUint64], the mirror of [EncodeUint64].
    Sections 3 and 7: a uint64 is 8 little-endian bytes; reaching past
    the payload end is InputShort; the first error is latched and
    suppresses the reads after it.  The result carries the value of the
    field that the call writes through. *)
Definition DecodeUint64 (dec : Decoder) (n : Z) : Decoder * Z :=
  match derr dec with
  | Some _ => (dec, n)
  | None =>
      match subslice (input dec) (cursor dec) (cursor dec + 8) with
      | Ok data =>
          ({| input := input dec; cursor := cursor dec + 8; derr := None |},
           Uint64 data)
      | Panic _ =>
          ({| input := input dec; cursor := cursor dec; derr := Some InputShort |}, n)
      end
  end.

Section Codec.
Context {W : Type} {writer : Writer W}.

(** Codec is a unified SSZ encoder and decoder that allows simple structs
    to define their schemas once and have that work for both operations
    at once. *)
Record Codec := {
  enc : option (Encoder W);
  dec : option Decoder
}.

(** DefineUint64 defines the next field as a uint64.  The field is passed
    by address; the result carries its value after the call. *)
Definition DefineUint64 (c : Codec) (n : Z) : outcome (Codec * Z) :=
  match enc c with
  | Some e =>
      e <- EncodeUint64 n e ;;
      Ok ({| enc := Some e; dec := dec c |}, n)
  | None =>
      match dec c with
      | Some d =>
          let (d, n) := DecodeUint64 d n in
          Ok ({| enc := None; dec := Some d |}, n)
      | None => Panic "nil pointer dereference"
      end
  end.

(** A schema method as the encoder sees it: [obj.DefineSSZ(enc.codec)],
    with [enc.codec] the codec whose encoder is [enc]. *)
Definition onEncoder {T : Type} (define : Codec -> outcome (Codec * T))
    (e : Encoder W) : outcome (Encoder W) :=
  r <- define {| enc := Some e; dec := None |} ;;
  match enc (fst r) with
  | Some e => Ok e
  | None => Panic "nil pointer dereference"
  end.

(** Modelled from the spec: [Decode(value, payload) -> error?] of section
    6 for a value given by its schema method: the method runs on a codec
    that holds a fresh decoder over the payload.  The result is the value
    after the call and the error that is returned. *)
Definition DecodeFromBytes {T : Type} (blob : list byte)
    (define : Codec -> outcome (Codec * T)) : outcome (T * option ErrorKind) :=
  r <- define {| enc := None;
                 dec := Some {| input := blob; cursor := 0; derr := None |} |} ;;
  Ok (snd r, match dec (fst r) with Some d => derr d | None => None end).

End Codec.

Arguments Codec W : clear implicits.

(** ** tests/partial/voluntary_exit.go *)

(** The zero value of [ReadPos], as in [Uint64Reader{}]. *)
Definition zeroPos : ReadPos := {| Offset := 0; NextOffset := 0; ContainerEnd := 0 |}.

Record VoluntaryExit := {
  Epoch : Z;
  ValidatorIndex : Z
}.

Module VoluntaryExit.

Definition SizeSSZ (v : VoluntaryExit) : Z := 16.

Definition DefineSSZ {W : Type} {writer : Writer W} (v : VoluntaryExit)
    (codec : Codec W) : outcome (Codec W * VoluntaryExit) :=
  r <- DefineUint64 codec (Epoch v) ;;           (* Field (0) - Epoch          - 8 bytes *)
  let (codec, epoch) := r in
  r <- DefineUint64 codec (ValidatorIndex v) ;;  (* Field (1) - ValidatorIndex - 8 bytes *)
  let (codec, validatorIndex) := r in
  Ok (codec, {| Epoch := epoch; ValidatorIndex := validatorIndex |}).

(** The value as a [StaticObject] of the encoder. *)
Definition object {W : Type} {writer : Writer W} (v : VoluntaryExit) : Object W :=
  StaticObj (@Build_StaticObject W (SizeSSZ v) (onEncoder (DefineSSZ v))).

End VoluntaryExit.

Record VoluntaryExitReader := { ver_pos : ReadPos }.

#[export] Instance VoluntaryExitReader_Reader : Reader VoluntaryExitReader := {
  InitReaderSSZ _ pos := {| ver_pos := pos |};
  sizer _ := IsStaticReader 16
}.

Module VoluntaryExitReader.

Definition Epoch (v : VoluntaryExitReader) : Uint64Reader :=
  InitReaderSSZ {| u64_pos := zeroPos |} (ReadPos.Add (ver_pos v) 0).

Definition ValidatorIndex (v : VoluntaryExitReader) : Uint64Reader :=
  InitReaderSSZ {| u64_pos := zeroPos |} (ReadPos.Add (ver_pos v) 8).

End VoluntaryExitReader.

Record SignedVoluntaryExitReader := { sver_pos : ReadPos }.

#[export] Instance SignedVoluntaryExitReader_Reader : Reader SignedVoluntaryExitReader := {
  InitReaderSSZ _ pos := {| sver_pos := pos |};
  sizer _ := IsStaticReader 112
}.

Module SignedVoluntaryExitReader.

Definition Exit (v : SignedVoluntaryExitReader) : VoluntaryExitReader :=
  InitReaderSSZ {| ver_pos := zeroPos |} (ReadPos.Add (sver_pos v) 0).

Definition Signature (v : SignedVoluntaryExitReader) : ByteArrayReader :=
  InitReaderSSZ {| ba_pos := zeroPos; Size := 96 |} (ReadPos.Add (sver_pos v) 16).

End SignedVoluntaryExitReader.

Record ExecutionPayload := {
  ParentHash : list byte;      (* Hash, [32]byte *)
  FeeRecipient : list byte;    (* Address, [20]byte *)
  StateRoot : list byte;       (* Hash *)
  ReceiptsRoot : list byte;    (* Hash *)
  LogsBloom : list byte;       (* LogsBloom, [256]byte *)
  PrevRandao : list byte;      (* Hash *)
  BlockNumber : Z;
  GasLimit : Z;
  GasUsed : Z;
  Timestamp : Z;
  ExtraData : list byte;
  BaseFeePerGas : option Z;    (* *uint256.Int *)
  BlockHash : list byte;       (* Hash *)
  Transactions : list (list byte)
}.

(** Modelled from the spec: [SizeDynamicBytes], the first of the two size
    helpers of section 6 (their file is not among the sources): the
    serialized length of a byte blob. *)
Definition SizeDynamicBytes (blob : list byte) : Z := wrap32 (len blob).

(** Modelled from the spec: [SizeSliceOfDynamicBytes], the second of the
    two size helpers of section 6: every blob with its 4-byte offset. *)
Definition SizeSliceOfDynamicBytes (blobs : list (list byte)) : Z :=
  fold_left (fun size blob => wrap32 (size + wrap32 (4 + len blob))) blobs 0.

Module ExecutionPayload.

Definition SizeSSZ (e : ExecutionPayload) (fixed : bool) : Z :=
  let size := 508 in
  if negb fixed
  then
    let size := wrap32 (size + SizeDynamicBytes (ExtraData e)) in
    wrap32 (size + SizeSliceOfDynamicBytes (Transactions e))
  else size.

(** Modelled from the spec: the calls that [DefineSSZ] makes on an
    encoding codec.  The method names [DefineDynamicBytes] and
    [DefineSliceOfDynamicBytes] for fields 10 and 13, which codec.go does
    not have; by section 4.D a dynamic field takes an offset call in
    fixed-region order and a content call after all fixed-region calls,
    and these are the calls listed here. *)
Definition DefineSSZ (e : ExecutionPayload) : list Call :=
  [ CallStaticBytes (ParentHash e);                   (* Field  ( 0) - ParentHash    -  32 bytes *)
    CallStaticBytes (FeeRecipient e);                 (* Field  ( 1) - FeeRecipient  -  20 bytes *)
    CallStaticBytes (StateRoot e);                    (* Field  ( 2) - StateRoot     -  32 bytes *)
    CallStaticBytes (ReceiptsRoot e);                 (* Field  ( 3) - ReceiptsRoot  -  32 bytes *)
    CallStaticBytes (LogsBloom e);                    (* Field  ( 4) - LogsBloom     - 256 bytes *)
    CallStaticBytes (PrevRandao e);                   (* Field  ( 5) - PrevRandao    -  32 bytes *)
    CallUint64 (BlockNumber e);                       (* Field  ( 6) - BlockNumber   -   8 bytes *)
    CallUint64 (GasLimit e);                          (* Field  ( 7) - GasLimit      -   8 bytes *)
    CallUint64 (GasUsed e);                           (* Field  ( 8) - GasUsed       -   8 bytes *)
    CallUint64 (Timestamp e);                         (* Field  ( 9) - Timestamp     -   8 bytes *)
    CallDynamicBytesOffset (ExtraData e);             (* Offset (10) - ExtraData     -   4 bytes *)
    CallUint256 (BaseFeePerGas e);                    (* Field  (11) - BaseFeePerGas -  32 bytes *)
    CallStaticBytes (BlockHash e);                    (* Field  (12) - BlockHash     -  32 bytes *)
    CallSliceOfDynamicBytesOffset (Transactions e);   (* Offset (13) - Transactions  -   4 bytes *)
    CallDynamicBytesContent (ExtraData e);            (* Field  (10) - ExtraData *)
    CallSliceOfDynamicBytesContent (Transactions e)   (* Field  (13) - Transactions *)
  ].

(** The value as a [DynamicObject] of the encoder. *)
Definition object {W : Type} {writer : Writer W} (e : ExecutionPayload) : Object W :=
  DynamicObj (dynamicObject (DynamicV (SizeSSZ e) (DefineSSZ e))).

End ExecutionPayload.

Record ExecutionPayloadReader := { epr_pos : ReadPos }.

#[export] Instance ExecutionPayloadReader_Reader : Reader ExecutionPayloadReader := {
  InitReaderSSZ _ pos := {| epr_pos := pos |};
  sizer _ := NoSizeSSZ
}.

Module ExecutionPayloadReader.

Definition ParentHash (v : ExecutionPayloadReader) : ByteArrayReader :=
  InitReaderSSZ {| ba_pos := zeroPos; Size := 32 |} (ReadPos.Add (epr_pos v) 0).

Definition ExtraData (v : ExecutionPayloadReader) : DynamicBytesReader :=
  InitReaderSSZ {| db_pos := zeroPos |} (ReadPos.AddWithNext (epr_pos v) 436 495).

Definition Transactions (v : ExecutionPayloadReader) : ListReader DynamicBytesReader :=
  let r := {| Prototype := {| db_pos := zeroPos |}; lr_pos := zeroPos |} in
  InitReaderSSZ r (ReadPos.Add (epr_pos v) 495).

End ExecutionPayloadReader.

(** Modelled from the spec: [NewReader(payload)] of section 6, the root
    reader with [ReadPos = {0, 0, payload.length}]. *)
Definition rootPos (payload : list byte) : ReadPos :=
  {| Offset := 0; NextOffset := 0; ContainerEnd := wrap32 (len payload) |}.

(** ** Sample values *)

(** S1 of the specification. *)
Definition exit7 : VoluntaryExit :=
  {| Epoch := 7; ValidatorIndex := 0x1122334455667788 |}.

Definition exit7Bytes : list byte :=
  [Byte.x07; Byte.x00; Byte.x00; Byte.x00; Byte.x00; Byte.x00; Byte.x00; Byte.x00;
   Byte.x88; Byte.x77; Byte.x66; Byte.x55; Byte.x44; Byte.x33; Byte.x22; Byte.x11].

(** A container whose only field is a list of two [VoluntaryExit]s: the
    offset of the list (4), then [{1, 2}] and [{3, 4}], 16 bytes each. *)
Definition twoExits : ReaderSource :=
  {| payload := PutUint32 4 ++ (PutUint64 1 ++ PutUint64 2) ++ (PutUint64 3 ++ PutUint64 4);
     spare := [] |}.

Definition twoExitsReader : ListReader VoluntaryExitReader :=
  InitReaderSSZ {| Prototype := {| ver_pos := zeroPos |}; lr_pos := zeroPos |}
    (ReadPos.Add (rootPos (payload twoExits)) 0).

(** A reader type with [SizeSSZ(fixed bool)], hence a [DynamicReader]: a
    byte blob behind a 4-byte offset. *)
Record BlobReader := { blob_pos : ReadPos }.

#[export] Instance BlobReader_Reader : Reader BlobReader := {
  InitReaderSSZ _ pos := {| blob_pos := pos |};
  sizer _ := IsDynamicReader (fun _ => 4)
}.

(** A container whose only field is the list of the blobs "abc" and "de":
    the offset of the list (4), the item offsets 8 and 11, the content. *)
Definition twoBlobs : ReaderSource :=
  {| payload := PutUint32 4 ++ PutUint32 8 ++ PutUint32 11
                ++ [Byte.x61; Byte.x62; Byte.x63] ++ [Byte.x64; Byte.x65];
     spare := [] |}.

Definition twoBlobsReader : ListReader BlobReader :=
  InitReaderSSZ {| Prototype := {| blob_pos := zeroPos |}; lr_pos := zeroPos |}
    (ReadPos.Add (rootPos (payload twoBlobs)) 0).

(** A container whose only field is the blob "abcde": its offset (4),
    then the content. *)
Definition oneBlob : ReaderSource :=
  {| payload := PutUint32 4 ++ [Byte.x61; Byte.x62; Byte.x63; Byte.x64; Byte.x65];
     spare := [] |}.

Definition oneBlobReader : DynamicBytesReader :=
  InitReaderSSZ {| db_pos := zeroPos |} (ReadPos.Add (rootPos (payload oneBlob)) 0).

(** S6 of the specification; the fields it does not name are zero. *)
Definition payloadS6 : ExecutionPayload :=
  {| ParentHash := repeat Byte.x00 32;
     FeeRecipient := repeat Byte.x00 20;
     StateRoot := repeat Byte.x00 32;
     ReceiptsRoot := repeat Byte.x00 32;
     LogsBloom := repeat Byte.x00 256;
     PrevRandao := repeat Byte.x00 32;
     BlockNumber := 0;
     GasLimit := 0;
     GasUsed := 0;
     Timestamp := 0;
     ExtraData := [Byte.x01; Byte.x02];
     BaseFeePerGas := None;
     BlockHash := repeat Byte.x00 32;
     Transactions := [[Byte.x10]; [Byte.x20; Byte.x21]] |}.

(** The layout that S6 describes: 508 bytes of fixed region with the two
    offsets at 436 and 504, then ExtraData, then the Transactions
    sub-payload. *)
Definition payloadS6Bytes : list byte :=
  repeat Byte.x00 436 ++ PutUint32 508 ++ repeat Byte.x00 64 ++ PutUint32 510
  ++ [Byte.x01; Byte.x02]
  ++ PutUint32 8 ++ PutUint32 9 ++ [Byte.x10] ++ [Byte.x20; Byte.x21].

Definition payloadS6Reader : ExecutionPayloadReader :=
  InitReaderSSZ {| epr_pos := zeroPos |} (rootPos payloadS6Bytes).

(** ** Notions used by the properties *)

(** The calls that walk the schema of an object; all other calls write
    bytes of their own or move the offset. *)
Definition walksObjects (c : Call) : bool :=
  match c with
  | CallStaticObject _
  | CallDynamicObjectContent _
  | CallSliceOfStaticObjectsContent _
  | CallSliceOfDynamicObjectsContent _ => true
  | _ => false
  end.

(** The primitive operations of section 4.B: fixed-width integers and
    static bytes. *)
Definition isPrimitive (c : Call) : bool :=
  match c with
  | CallUint64 _
  | CallUint256 _
  | CallStaticBytes _
  | CallArrayOfStaticBytes _ => true
  | _ => false
  end.

(** The offset-phase operations, one per dynamic kind. *)
Definition isOffsetPhase (c : Call) : bool :=
  match c with
  | CallDynamicBytesOffset _
  | CallDynamicObjectOffset _
  | CallSliceOfUint64sOffset _
  | CallSliceOfStaticBytesOffset _
  | CallSliceOfDynamicBytesOffset _
  | CallSliceOfStaticObjectsOffset _
  | CallSliceOfDynamicObjectsOffset _ => true
  | _ => false
  end.

Definition sumZ (l : list Z) : Z := fold_right Z.add 0 l.

(** The serialized length of the content of a dynamic field, by kind, as
    section 3 of the specification lays the kinds out: a blob is its
    bytes, an object is what its size method reports, a list of static
    items is the items one after the other, and a list of dynamic items
    has a 4-byte offset in front of every item. *)
Definition contentLength (c : Call) : option Z :=
  match c with
  | CallDynamicBytesOffset blob => Some (len blob)
  | CallDynamicObjectOffset obj => Some (dynamicSize obj false)
  | CallSliceOfUint64sOffset ns => Some (len ns * 8)
  | CallSliceOfStaticBytesOffset blobs => Some (sumZ (map len blobs))
  | CallSliceOfDynamicBytesOffset blobs => Some (sumZ (map (fun blob => 4 + len blob) blobs))
  | CallSliceOfStaticObjectsOffset objects => Some (sumZ (map staticSize objects))
  | CallSliceOfDynamicObjectsOffset objects =>
      Some (sumZ (map (fun obj => 4 + dynamicSize obj false) objects))
  | _ => None
  end.

(** The items of a slice of static items are of one Go type, hence of one
    size. *)
Definition uniform (c : Call) : Prop :=
  match c with
  | CallSliceOfStaticBytesOffset blobs =>
      Forall (fun blob => len blob = len (hd [] blobs)) blobs
  | CallSliceOfStaticObjectsOffset objects =>
      Forall (fun obj => staticSize obj = staticSize (hd (StaticV 0 []) objects)) objects
  | _ => True
  end.

(** The content-phase call of an offset-phase call on bytes. *)
Definition contentCall (c : Call) : option Call :=
  match c with
  | CallDynamicBytesOffset blob => Some (CallDynamicBytesContent blob)
  | CallSliceOfUint64sOffset ns => Some (CallSliceOfUint64sContent ns)
  | CallSliceOfStaticBytesOffset blobs => Some (CallSliceOfStaticBytesContent blobs)
  | CallSliceOfDynamicBytesOffset blobs => Some (CallSliceOfDynamicBytesContent blobs)
  | _ => None
  end.



(** A streaming encoder with a latched error. *)
Definition latched {W : Type} (enc : Encoder W) (w : W) (e : error) : Prop :=
  outWriter enc = Some w /\ err enc = Some e.

(** A value given by its calls. *)
Inductive Value : Type :=
| StaticValueOf (v : StaticValue)
| DynamicValueOf (v : DynamicValue).

Definition objectOf {W : Type} {writer : Writer W} (v : Value) : Object W :=
  match v with
  | StaticValueOf v => StaticObj (staticObject v)
  | DynamicValueOf v => DynamicObj (dynamicObject v)
  end.

(** A streaming encoder over a [bytes.Buffer], and a buffered encoder,
    both without an error. *)
Definition streaming (w : list byte) (b : Slice) (o : Z) : Encoder (list byte) :=
  {| outWriter := Some w; outBuffer := b; err := None; offset := o |}.

Definition buffered (s : Slice) (o : Z) : Encoder (list byte) :=
  {| outWriter := None; outBuffer := s; err := None; offset := o |}.

(** What streaming mode writes for a value, and for a single call made at
    offset [o]; the offset after the call. *)
Definition streamBytes (v : Value) : list byte :=
  match EncodeToStream [] (objectOf v) with
  | Ok (w, _) => w
  | Panic _ => []
  end.

(** What a call [f] writes to a [bytes.Buffer] when made at offset [o], and
    the offset it leaves. *)
Definition outOf (f : Encoder (list byte) -> outcome (Encoder (list byte))) (o : Z)
  : list byte :=
  match f (streaming [] nilSlice o) with
  | Ok enc => sinkOf enc []
  | Panic _ => []
  end.

Definition offOf (f : Encoder (list byte) -> outcome (Encoder (list byte))) (o : Z) : Z :=
  match f (streaming [] nilSlice o) with
  | Ok enc => offset enc
  | Panic _ => o
  end.

Definition callBytes (c : Call) (o : Z) : list byte := outOf (exec c) o.

Definition callOffset (c : Call) (o : Z) : Z := offOf (exec c) o.

(** The bytes and the offset of a loop whose body puts out [outF x o] and
    leaves the offset [offF x o]. *)
Fixpoint loopBytes {A : Type} (outF : A -> Z -> list byte) (offF : A -> Z -> Z)
    (xs : list A) (o : Z) : list byte :=
  match xs with
  | [] => []
  | x :: xs => outF x o ++ loopBytes outF offF xs (offF x o)
  end.

Fixpoint loopOffset {A : Type} (offF : A -> Z -> Z) (xs : list A) (o : Z) : Z :=
  match xs with
  | [] => o
  | x :: xs => loopOffset offF xs (offF x o)
  end.

(** The slice after [p] was stored at its front and cut off. *)
Definition advance (s : Slice) (p : list byte) : Slice :=
  {| arr := firstn (lo s) (arr s) ++ p ++ skipn (lo s + length p) (arr s);
     lo := (lo s + length p)%nat |}.

(** The table of item offsets in front of a list of blobs, from the
    offset [o] of the first item. *)
Fixpoint offsetTable (o : Z) (blobs : list (list byte)) : list byte :=
  match blobs with
  | [] => []
  | blob :: rest => PutUint32 o ++ offsetTable (wrap32 (o + wrap32 (len blob))) rest
  end.

(** The bytes that a call which walks no object puts out when made at
    offset [o], and the offset it leaves. *)
Definition leafBytes (c : Call) (o : Z) : list byte :=
  match c with
  | CallUint64 n => PutUint64 n
  | CallUint256 (Some n) => MarshalSSZTo n
  | CallUint256 None => zeros32
  | CallStaticBytes blob => blob
  | CallDynamicBytesContent blob => blob
  | CallSliceOfUint64sContent ns => concat (map PutUint64 ns)
  | CallArrayOfStaticBytes blobs => concat blobs
  | CallSliceOfStaticBytesContent blobs => concat blobs
  | CallSliceOfDynamicBytesContent blobs =>
      offsetTable (wrap32 (4 * len blobs)) blobs ++ concat blobs
  | CallDynamicBytesOffset _
  | CallDynamicObjectOffset _
  | CallSliceOfUint64sOffset _
  | CallSliceOfStaticBytesOffset _
  | CallSliceOfDynamicBytesOffset _
  | CallSliceOfStaticObjectsOffset _
  | CallSliceOfDynamicObjectsOffset _ => PutUint32 o
  | _ => []
  end.

Definition leafOffset (c : Call) (o : Z) : Z :=
  match c with
  | CallDynamicBytesOffset blob => wrap32 (o + wrap32 (len blob))
  | CallDynamicObjectOffset obj => wrap32 (o + dynamicSize obj false)
  | CallSliceOfUint64sOffset ns =>
      if len ns >? 0 then wrap32 (o + wrap32 (len ns * 8)) else o
  | CallSliceOfStaticBytesOffset blobs =>
      if len blobs >? 0 then wrap32 (o + wrap32 (len blobs * len (hd [] blobs))) else o
  | CallSliceOfDynamicBytesOffset blobs =>
      fold_left (fun o blob => wrap32 (o + wrap32 (4 + len blob))) blobs o
  | CallSliceOfStaticObjectsOffset objects =>
      match objects with
      | [] => o
      | obj0 :: _ => wrap32 (o + wrap32 (wrap32 (len objects) * staticSize obj0))
      end
  | CallSliceOfDynamicObjectsOffset objects =>
      fold_left (fun o obj => wrap32 (o + wrap32 (4 + dynamicSize obj false))) objects o
  | CallSliceOfDynamicBytesContent blobs =>
      loopOffset (fun blob o => wrap32 (o + wrap32 (len blob))) blobs (wrap32 (4 * len blobs))
  | _ => o
  end.

(** Three writes of eight bytes into a sink with room for eight. *)
Definition threeWrites : list Call := [CallUint64 1; CallUint64 2; CallUint64 3].

Definition sinkOfEight : LimitedWriter := {| taken := []; room := 8 |}.

(** S3 of the specification: a container of the blobs "abc" and "de". *)
Definition blobsS3 : DynamicValue :=
  DynamicV (fun fixed => if fixed then 8 else 13)
    [ CallDynamicBytesOffset [Byte.x61; Byte.x62; Byte.x63];
      CallDynamicBytesOffset [Byte.x64; Byte.x65];
      CallDynamicBytesContent [Byte.x61; Byte.x62; Byte.x63];
      CallDynamicBytesContent [Byte.x64; Byte.x65] ].

(** The bytes [p] fit into the slice. *)
Definition fits (s : Slice) (p : list byte) : Prop :=
  (lo s + length p <= length (arr s))%nat.

(** [f] leaves the mode and the error of a buffered encoder alone. *)
Definition keepsErr {W : Type} (f : Encoder W -> outcome (Encoder W)) : Prop :=
  forall enc enc', outWriter enc = None -> f enc = Ok enc' ->
    outWriter enc' = None /\ err enc' = err enc.


(** Made at offset [o], the call [fS] on a streaming encoder and the call
    [fB] on a buffered encoder with room both put out the bytes [out] and
    leave the offset [o']. *)
Definition simAt (fS fB : Encoder (list byte) -> outcome (Encoder (list byte)))
    (o : Z) (out : list byte) (o' : Z) : Prop :=
  (forall w b, fS (streaming w b o) = Ok (streaming (w ++ out) b o')) /\
  (forall s, fits s out -> fB (buffered s o) = Ok (buffered (advance s out) o')).

Definition sim (fS fB : Encoder (list byte) -> outcome (Encoder (list byte))) : Prop :=
  forall o, exists out o', simAt fS fB o out o'.

(** Induction over calls: a call that walks objects is reached from the
    calls of those objects. *)
Section CallInduction.
Variable P : Call -> Prop.
Hypothesis leaf : forall c, walksObjects c = false -> P c.
Hypothesis staticObj : forall obj,
  Forall P (staticCalls obj) -> P (CallStaticObject obj).
Hypothesis dynamicObj : forall obj,
  Forall P (dynamicCalls obj) -> P (CallDynamicObjectContent obj).
Hypothesis staticObjs : forall objects,
  Forall (fun obj => Forall P (staticCalls obj)) objects ->
  P (CallSliceOfStaticObjectsContent objects).
Hypothesis dynamicObjs : forall objects,
  Forall (fun obj => Forall P (dynamicCalls obj)) objects ->
  P (CallSliceOfDynamicObjectsContent objects).

Fixpoint Call_walk_ind (c : Call) : P c :=
  let calls_ind :=
    fix calls_ind (cs : list Call) : Forall P cs :=
      match cs with
      | [] => Forall_nil P
      | c :: cs => Forall_cons c (Call_walk_ind c) (calls_ind cs)
      end in
  let static_ind (obj : StaticValue) : Forall P (staticCalls obj) :=
    match obj with StaticV _ cs => calls_ind cs end in
  let dynamic_ind (obj : DynamicValue) : Forall P (dynamicCalls obj) :=
    match obj with DynamicV _ cs => calls_ind cs end in
  match c with
  | CallStaticObject obj => staticObj obj (static_ind obj)
  | CallDynamicObjectContent obj => dynamicObj obj (dynamic_ind obj)
  | CallSliceOfStaticObjectsContent objects =>
      staticObjs objects
        ((fix objs_ind (os : list StaticValue)
            : Forall (fun obj => Forall P (staticCalls obj)) os :=
            match os with
            | [] => Forall_nil _
            | o :: os => Forall_cons o (static_ind o) (objs_ind os)
            end) objects)
  | CallSliceOfDynamicObjectsContent objects =>
      dynamicObjs objects
        ((fix objs_ind (os : list DynamicValue)
            : Forall (fun obj => Forall P (dynamicCalls obj)) os :=
            match os with
            | [] => Forall_nil _
            | o :: os => Forall_cons o (dynamic_ind o) (objs_ind os)
            end) objects)
  | CallUint64 n => leaf (CallUint64 n) eq_refl
  | CallUint256 n => leaf (CallUint256 n) eq_refl
  | CallStaticBytes blob => leaf (CallStaticBytes blob) eq_refl
  | CallDynamicBytesOffset blob => leaf (CallDynamicBytesOffset blob) eq_refl
  | CallDynamicBytesContent blob => leaf (CallDynamicBytesContent blob) eq_refl
  | CallDynamicObjectOffset obj => leaf (CallDynamicObjectOffset obj) eq_refl
  | CallSliceOfUint64sOffset ns => leaf (CallSliceOfUint64sOffset ns) eq_refl
  | CallSliceOfUint64sContent ns => leaf (CallSliceOfUint64sContent ns) eq_refl
  | CallArrayOfStaticBytes blobs => leaf (CallArrayOfStaticBytes blobs) eq_refl
  | CallSliceOfStaticBytesOffset blobs => leaf (CallSliceOfStaticBytesOffset blobs) eq_refl
  | CallSliceOfStaticBytesContent blobs => leaf (CallSliceOfStaticBytesContent blobs) eq_refl
  | CallSliceOfDynamicBytesOffset blobs => leaf (CallSliceOfDynamicBytesOffset blobs) eq_refl
  | CallSliceOfDynamicBytesContent blobs => leaf (CallSliceOfDynamicBytesContent blobs) eq_refl
  | CallSliceOfStaticObjectsOffset objects => leaf (CallSliceOfStaticObjectsOffset objects) eq_refl
  | CallSliceOfDynamicObjectsOffset objects => leaf (CallSliceOfDynamicObjectsOffset objects) eq_refl
  end.

End CallInduction.

(** ** Further types of the sources *)

(** The calls that [VoluntaryExit.DefineSSZ] makes on an encoding codec,
    with the size of the value. *)
Definition valueOfVoluntaryExit (v : VoluntaryExit) : StaticValue :=
  StaticV (VoluntaryExit.SizeSSZ v)
    [ CallUint64 (Epoch v);            (* Field (0) - Epoch          - 8 bytes *)
      CallUint64 (ValidatorIndex v) ]. (* Field (1) - ValidatorIndex - 8 bytes *)

(** [Exit] is a pointer in the source; a nil pointer makes [DefineSSZ]
    panic on the first field and is left out. *)
Record SignedVoluntaryExit := {
  Exit : VoluntaryExit;
  Signature : list byte   (* [96]byte *)
}.

Module SignedVoluntaryExit.

Definition SizeSSZ (v : SignedVoluntaryExit) : Z := 112.

(** The calls that [DefineSSZ] makes on an encoding codec. *)
Definition DefineSSZ (v : SignedVoluntaryExit) : list Call :=
  [ CallStaticObject (valueOfVoluntaryExit (Exit v));  (* Field (0) - Exit      - 16 bytes *)
    CallStaticBytes (Signature v) ].                   (* Field (1) - Signature - 96 bytes *)

End SignedVoluntaryExit.

(** tests/testtypes/consensus-spec-tests/historical_batch.go *)
Record HistoricalBatch := {
  BlockRoots : list (list byte);   (* [8192]Hash *)
  StateRoots : list (list byte)    (* [8192]Hash *)
}.

Module HistoricalBatch.

Definition SizeSSZ (h : HistoricalBatch) : Z := 2 * 8192 * 32.

(** The calls that [DefineSSZ] makes on an encoding codec. *)
Definition DefineSSZ (h : HistoricalBatch) : list Call :=
  [ CallArrayOfStaticBytes (BlockRoots h);
    CallArrayOfStaticBytes (StateRoots h) ].

(** The value has the shape of its Go type: two arrays of 8192 hashes of
    32 bytes. *)
Definition wellShaped (h : HistoricalBatch) : Prop :=
  len (BlockRoots h) = 8192 /\ len (StateRoots h) = 8192 /\
  Forall (fun root => len root = 32) (BlockRoots h) /\
  Forall (fun root => len root = 32) (StateRoots h).

End HistoricalBatch.

(** [IndexedAttestation] of the consensus spec test types.  The type
    [AttestationData] of the field [Data] is not among the sources; the
    field is any static object. *)
Record IndexedAttestation := {
  AttestationIndices : list Z;
  Data : StaticValue;
  ia_Signature : list byte   (* [96]byte *)
}.

(** Modelled from the spec: [SizeSliceOfUint64s], one of the size helpers
    of section 6 (their file is not among the sources): eight bytes for
    every item. *)
Definition SizeSliceOfUint64s (ns : list Z) : Z := wrap32 (len ns * 8).

Module IndexedAttestation.

Definition SizeSSZ (a : IndexedAttestation) (fixed : bool) : Z :=
  let size := 228 in
  if negb fixed
  then wrap32 (size + SizeSliceOfUint64s (AttestationIndices a))
  else size.

(** The calls that [DefineSSZ] makes on an encoding codec. *)
Definition DefineSSZ (a : IndexedAttestation) : list Call :=
  [ CallSliceOfUint64sOffset (AttestationIndices a);    (* Offset (0) - AttestationIndices - 4 bytes *)
    CallStaticObject (Data a);                          (* Field (1) - Data      - 128 bytes *)
    CallStaticBytes (ia_Signature a);                   (* Field (2) - Signature - 96 bytes *)
    CallSliceOfUint64sContent (AttestationIndices a) ]. (* Offset (0) - AttestationIndices *)

Definition value (a : IndexedAttestation) : DynamicValue :=
  DynamicV (SizeSSZ a) (DefineSSZ a).

End IndexedAttestation.

(** ** Further notions used by the properties *)

(** A slice whose start lies within its array. *)
Definition wfSlice (s : Slice) : Prop := (lo s <= length (arr s))%nat.

(** The call [fB], made at offset [o] on a buffered encoder without room
    for [out], panics. *)
Definition overruns (fB : Encoder (list byte) -> outcome (Encoder (list byte)))
    (o : Z) (out : list byte) : Prop :=
  forall s, wfSlice s -> ~ fits s out -> panics (fB (buffered s o)) = true.

(** The calls that write the bytes of a field and nothing else. *)
Definition writesBytesOnly (c : Call) : bool :=
  match c with
  | CallUint64 _
  | CallUint256 _
  | CallStaticBytes _
  | CallDynamicBytesContent _
  | CallSliceOfUint64sContent _
  | CallArrayOfStaticBytes _
  | CallSliceOfStaticBytesContent _ => true
  | _ => false
  end.

(** A sink that accepts every write. *)
Definition neverFails (W : Type) {writer : Writer W} : Prop :=
  forall (w : W) (p : list byte), snd (Write w p) = None.

(** [f], called on an encoder over a sink, returns with the encoder still
    over a sink and its buffer untouched; if the sink accepts every write
    and no error was set, none is set. *)
Definition streams {W : Type} {writer : Writer W}
    (f : Encoder W -> outcome (Encoder W)) : Prop :=
  forall enc w, outWriter enc = Some w ->
    exists enc' w', f enc = Ok enc' /\ outWriter enc' = Some w' /\
      outBuffer enc' = outBuffer enc /\
      (neverFails W -> err enc = None -> err enc' = None).

(** A nil pointer passed as a [StaticObject], for a type such as
    [*VoluntaryExit] whose [DefineSSZ] starts by taking the address of a
    field of its receiver, which panics on a nil receiver, and whose
    [SizeSSZ] does not touch the receiver.  The zero
    [SignedVoluntaryExit] has such an [Exit].  The schemas given by
    [Call] hold no nil object. *)
Definition nilStaticObject {W : Type} (size : Z) : StaticObject W :=
  {| SizeSSZ := size; DefineSSZ := fun _ => Panic "nil pointer dereference" |}.

(** A sink that accepts every write and keeps the writes apart, in the
    order in which they were issued. *)
Record Recorder := { recorded : list (list byte) }.

#[export] Instance recorder : Writer Recorder :=
  fun w p => ({| recorded := recorded w ++ [p] |}, None).

(** A streaming encoder over a recorder, without an error. *)
Definition recording (r : list (list byte)) (b : Slice) (o : Z) : Encoder Recorder :=
  {| outWriter := Some {| recorded := r |}; outBuffer := b; err := None; offset := o |}.

(** The writes that a call issues, in order, when it is made at offset [o]
    on a sink that accepts them all. *)
Definition writesOf (f : Encoder Recorder -> outcome (Encoder Recorder)) (o : Z)
  : list (list byte) :=
  match f (recording [] nilSlice o) with
  | Ok enc =>
      match outWriter enc with
      | Some w => recorded w
      | None => []
      end
  | Panic _ => []
  end.

Definition chunks (c : Call) (o : Z) : list (list byte) := writesOf (exec c) o.

(** The sink and the answer after the writes [ps] have been offered to
    the sink [w] one by one, up to and including the first that the sink
    rejects. *)
Fixpoint feed {W : Type} {writer : Writer W} (w : W) (ps : list (list byte))
  : W * option error :=
  match ps with
  | [] => (w, None)
  | p :: ps =>
      let (w', e) := Write w p in
      match e with
      | None => feed w' ps
      | Some e => (w', Some e)
      end
  end.

(** The calls that issue one write: of the bytes of their field, or of the
    offset. *)
Definition writesOnce (c : Call) : bool :=
  match c with
  | CallUint64 _
  | CallUint256 _
  | CallStaticBytes _
  | CallDynamicBytesContent _ => true
  | _ => isOffsetPhase c
  end.

(** Made at offset [o] on a streaming encoder without an error, [fR] over
    a recorder issues the writes [ps] and leaves the offset [o'], and [fW]
    over any sink leaves the sink and the error as [feed] has them: the
    writes up to the first rejected one have reached the sink, and the
    error is that rejection. *)
Definition feedsAt {W : Type} {writer : Writer W}
    (fW : Encoder W -> outcome (Encoder W))
    (fR : Encoder Recorder -> outcome (Encoder Recorder))
    (o : Z) (ps : list (list byte)) (o' : Z) : Prop :=
  (forall r b, fR (recording r b o) = Ok (recording (r ++ ps) b o')) /\
  (forall w b, exists o'',
     fW {| outWriter := Some w; outBuffer := b; err := None; offset := o |}
     = Ok {| outWriter := Some (fst (feed w ps)); outBuffer := b;
             err := snd (feed w ps); offset := o'' |} /\
     (snd (feed w ps) = None -> o'' = o')).

(** With an error latched, [f] returns without touching the sink, the
    error or the buffer. *)
Definition skips {W : Type} (f : Encoder W -> outcome (Encoder W)) : Prop :=
  forall enc w e, latched enc w e ->
    exists enc', f enc = Ok enc' /\ latched enc' w e /\ outBuffer enc' = outBuffer enc.

(** A dynamic object whose schema walk refuses to start unless the offset
    of the encoder is the size of the object's fixed region: a probe for
    the offset at which the encoder starts the walk of an object. *)
Definition anchoredOnly {W : Type} (obj : DynamicObject W) : DynamicObject W :=
  {| SizeSSZd := SizeSSZd obj;
     DefineSSZd := fun enc =>
       if offset enc =? SizeSSZd obj true then DefineSSZd obj enc
       else Panic "schema walk not anchored" |}.

(** [f] leaves the offset of the encoder as it was. *)
Definition keepsOffset {W : Type} (f : Encoder W -> outcome (Encoder W)) : Prop :=
  forall enc enc', f enc = Ok enc' -> offset enc' = offset enc.

(** A container of two dynamic blobs, as in S3 of the specification. *)
Definition twoBlobFields (a b : list byte) : list Call :=
  [ CallDynamicBytesOffset a;
    CallDynamicBytesOffset b;
    CallDynamicBytesContent a;
    CallDynamicBytesContent b ].

(** * Properties *)

(** ** The partial reader *)

Lemma subslice_ok (a : list byte) (lo hi : Z) :
  0 <= lo -> lo <= hi -> hi <= len a ->
  subslice a lo hi = Ok (firstn (Z.to_nat (hi - lo)) (skipn (Z.to_nat lo) a)).
Proof.
  intros H0 H1 H2. unfold subslice, len in *.
  destruct (Z.leb_spec 0 lo); [|lia].
  destruct (Z.leb_spec lo hi); [|lia].
  destruct (Z.leb_spec hi (Z.of_nat (length a))); [|lia].
  reflexivity.
Qed.


Lemma subslice_length (a : list byte) (lo hi : Z) (data : list byte) :
  subslice a lo hi = Ok data -> len data = hi - lo.
Proof.
  unfold subslice, len.
  destruct (Z.leb_spec 0 lo); [|discriminate].
  destruct (Z.leb_spec lo hi); [|discriminate].
  destruct (Z.leb_spec hi (Z.of_nat (length a))); [|discriminate].
  simpl. intros E. injection E as <-.
  rewrite length_firstn, length_skipn. lia.
Qed.

Lemma subslice_outside (a : list byte) (lo hi : Z) :
  ~ (0 <= lo /\ lo <= hi /\ hi <= len a) ->
  subslice a lo hi = Panic "slice bounds out of range".
Proof.
  intros H. unfold subslice, len in *.
  destruct (Z.leb_spec 0 lo); [|reflexivity].
  destruct (Z.leb_spec lo hi); [|reflexivity].
  destruct (Z.leb_spec hi (Z.of_nat (length a))); [|reflexivity].
  exfalso. apply H. auto.
Qed.

Lemma Uint32_range (b : list byte) : 0 <= Uint32 b < 2 ^ 32.
Proof.
  unfold Uint32. pose proof (le_combine_bound (firstn 4 b)) as H.
  assert (L : (length (firstn 4 b) <= 4)%nat) by (rewrite length_firstn; lia).
  assert (2 ^ (8 * Z.of_nat (length (firstn 4 b))) <= 2 ^ 32).
  { change 32 with (8 * 4). apply Z.pow_le_mono_r; lia. }
  lia.
Qed.

(** A slice expression that stays inside the length of the payload does
    not see the spare capacity. *)
Lemma subslice_inside (a sp : list byte) (lo hi : Z) :
  hi <= len a -> subslice (a ++ sp) lo hi = subslice a lo hi.
Proof.
  intros H. unfold subslice, len in *. rewrite length_app.
  destruct (Z.leb_spec 0 lo) as [H0|H0]; [|reflexivity].
  destruct (Z.leb_spec lo hi) as [H1|H1]; [|reflexivity].
  destruct (Z.leb_spec hi (Z.of_nat (length a))) as [H2|H2]; [|lia].
  destruct (Z.leb_spec hi (Z.of_nat (length a + length sp))) as [H3|H3]; [|lia].
  cbn [andb]. f_equal.
  rewrite skipn_app, firstn_app, length_skipn.
  replace (Z.to_nat lo - length a)%nat with 0%nat by lia.
  replace (Z.to_nat (hi - lo) - (length a - Z.to_nat lo))%nat with 0%nat by lia.
  cbn [skipn]. rewrite firstn_O, app_nil_r. reflexivity.
Qed.

Lemma backing_inside (src : ReaderSource) (lo hi : Z) :
  hi <= len (payload src) -> subslice (backing src) lo hi = subslice (payload src) lo hi.
Proof. apply subslice_inside. Qed.

Lemma copy_length (dst src : list byte) : length (copy dst src) = length dst.
Proof.
  unfold copy. rewrite length_app, length_firstn, length_skipn. lia.
Qed.

Lemma copy_truncated (dst src : list byte) :
  (length dst <= length src)%nat -> copy dst src = firstn (length dst) src.
Proof.
  intros H. unfold copy. rewrite skipn_all2 by exact H. apply app_nil_r.
Qed.

(** What [Len] and [Item] compute, for a prototype with [SizeSSZ()] and
    for one with [SizeSSZ(fixed bool)]: the length is the extent divided
    by the size that the prototype reports, and the item is positioned at
    [start + n]. *)
Lemma Len_divides_extent {T : Type} {R : Reader T} (r : ListReader T) (src : ReaderSource)
    (start end_ size : Z) :
  ReaderSource.offset src (Offset (lr_pos r)) = Ok start ->
  ReaderSource.objectEnd src (lr_pos r) = Ok end_ ->
  ListReader.ItemSize r = Ok size -> size <> 0 ->
  ListReader.Len r src = Ok (wrap32 (end_ - start) / size).
Proof.
  intros Hs He Hi Hz. unfold ListReader.Len. rewrite Hs, He, Hi. simpl.
  unfold div32. destruct (Z.eqb_spec size 0); [contradiction|reflexivity].
Qed.

Lemma Item_static_position {T : Type} {R : Reader T} (r : ListReader T) (src : ReaderSource)
    (start end_ size n : Z) :
  ReaderSource.offset src (Offset (lr_pos r)) = Ok start ->
  ReaderSource.objectEnd src (lr_pos r) = Ok end_ ->
  sizer (Prototype r) = IsStaticReader size -> size <> 0 ->
  start <> end_ -> n < wrap32 (end_ - start) / size ->
  ListReader.Item r src n
  = Ok (InitReaderSSZ (Prototype r)
          {| Offset := wrap32 (start + wrap32 n); NextOffset := 0; ContainerEnd := end_ |}).
Proof.
  intros Hs He Hk Hz Hne Hn. unfold ListReader.Item. rewrite Hs, He, Hk. simpl.
  destruct (Z.eqb_spec start end_); [contradiction|].
  unfold div32. destruct (Z.eqb_spec size 0); [contradiction|]. simpl.
  destruct (Z.geb_spec n (wrap32 (end_ - start) / size)); [lia|reflexivity].
Qed.

Lemma Item_dynamic_position {T : Type} {R : Reader T} (r : ListReader T) (src : ReaderSource)
    (start end_ n : Z) (size : bool -> Z) :
  ReaderSource.offset src (Offset (lr_pos r)) = Ok start ->
  ReaderSource.objectEnd src (lr_pos r) = Ok end_ ->
  sizer (Prototype r) = IsDynamicReader size -> size false <> 0 ->
  start <> end_ -> n < wrap32 (end_ - start) / size false ->
  ListReader.Item r src n
  = Ok (InitReaderSSZ (Prototype r)
          {| Offset := wrap32 (start + wrap32 n);
             NextOffset := wrap32 (start + 4);
             ContainerEnd := end_ |}).
Proof.
  intros Hs He Hk Hz Hne Hn. unfold ListReader.Item. rewrite Hs, He, Hk. simpl.
  destruct (Z.eqb_spec start end_); [contradiction|].
  unfold div32. destruct (Z.eqb_spec (size false) 0); [contradiction|]. simpl.
  destruct (Z.geb_spec n (wrap32 (end_ - start) / size false)); [lia|].
  destruct (Z.leb_spec n (wrap32 (end_ - start) / size false - 1)); [reflexivity|lia].
Qed.

(** C1 (the code departs from the claim).  On the list of two
    [VoluntaryExit]s, [Len] is (36 - 4) / 16 = 2 as the claim says, but
    [Item(1)] is positioned at start + 1 = 5, not at start + 1 * 16 = 20:
    the item size is left out of the sum.  Reading the epoch of that item
    takes the bytes 5..12 and yields 2^57 where the list holds 3. *)
Theorem C1_item_offset_ignores_item_size :
  ListReader.Len twoExitsReader twoExits = Ok 2 /\
  ListReader.Item twoExitsReader twoExits 1
    = Ok {| ver_pos := {| Offset := 5; NextOffset := 0; ContainerEnd := 36 |} |} /\
  ListReader.Item twoExitsReader twoExits 1
    <> Ok {| ver_pos := {| Offset := 4 + 1 * 16; NextOffset := 0; ContainerEnd := 36 |} |} /\
  (item <- ListReader.Item twoExitsReader twoExits 1 ;;
   Uint64Reader.Read (VoluntaryExitReader.Epoch item) twoExits) = Ok (2 ^ 57).
Proof.
  repeat split; try (vm_compute; reflexivity).
  vm_compute. discriminate.
Qed.

(** C2 (the code departs from the claim).  On the list of the two blobs
    "abc" and "de" the first item offset is 8, so the claim gives length
    8 / 4 = 2, the offset slot of item 1 at 4 + 4 = 8 and, item 1 being
    the last, the end of the list as its end.  The code divides the
    extent by the prototype's size, 13 / 4 = 3, puts item 1 at
    start + 1 = 5 and gives every item the next-offset slot start + 4. *)
Theorem C2_dynamic_item_arithmetic :
  ReaderSource.offset twoBlobs 4 = Ok 8 /\
  ListReader.Len twoBlobsReader twoBlobs = Ok 3 /\
  ListReader.Item twoBlobsReader twoBlobs 1
    = Ok {| blob_pos := {| Offset := 5; NextOffset := 8; ContainerEnd := 17 |} |} /\
  ListReader.Item twoBlobsReader twoBlobs 0
    = Ok {| blob_pos := {| Offset := 4; NextOffset := 8; ContainerEnd := 17 |} |}.
Proof.
  repeat split; vm_compute; reflexivity.
Qed.

(** C3 (the code departs from the claim).  The encoder produces the layout
    of S6: 521 bytes, 508 at local 436, 510 at local 504, then 01 02, the
    item offsets 8 and 9, and 10, 20 21.  The reader does not find the
    second transaction: [Transactions()] looks for the offset slot at
    local 495 instead of 504, [Item(1)] adds the index to what it finds
    there, and a read of two bytes yields the first two bytes of the
    payload, 00 00.  [Len] panics, since [DynamicBytesReader] has no
    [SizeSSZ]. *)
Theorem C3_execution_payload_scenario :
  EncodeToStream [] (ExecutionPayload.object payloadS6) = Ok (payloadS6Bytes, None) /\
  length payloadS6Bytes = 521%nat /\
  subslice payloadS6Bytes 436 440 = Ok (PutUint32 508) /\
  subslice payloadS6Bytes 504 508 = Ok (PutUint32 510) /\
  subslice payloadS6Bytes 510 521
    = Ok (PutUint32 8 ++ PutUint32 9 ++ [Byte.x10] ++ [Byte.x20; Byte.x21]) /\
  ListReader.Item (ExecutionPayloadReader.Transactions payloadS6Reader)
      {| payload := payloadS6Bytes; spare := [] |} 1
    = Ok {| db_pos := {| Offset := 1; NextOffset := 0; ContainerEnd := 521 |} |} /\
  (item <- ListReader.Item (ExecutionPayloadReader.Transactions payloadS6Reader)
             {| payload := payloadS6Bytes; spare := [] |} 1 ;;
   DynamicBytesReader.Read item {| payload := payloadS6Bytes; spare := [] |} [Byte.xff; Byte.xff])
    = Ok [Byte.x00; Byte.x00] /\
  ListReader.Len (ExecutionPayloadReader.Transactions payloadS6Reader)
      {| payload := payloadS6Bytes; spare := [] |} = Panic "invalid item type".
Proof.
  repeat split; vm_compute; reflexivity.
Qed.

Lemma Uint32_nonneg (b : list byte) : 0 <= Uint32 b.
Proof. unfold Uint32. apply le_combine_bound. Qed.

Lemma offset_nonneg (src : ReaderSource) (o v : Z) :
  ReaderSource.offset src o = Ok v -> 0 <= v.
Proof.
  unfold ReaderSource.offset.
  destruct (subslice (backing src) o (wrap32 (o + 4))); simpl; [|discriminate].
  intros E. injection E as <-. apply Uint32_nonneg.
Qed.




(** C10.  [DynamicBytesReader.Read] never looks at the length of the
    destination: when the content [payload[start:end]] exists and the
    destination is shorter, the destination receives the first
    [len(v)] bytes of the content and the call returns.
    [ByteArrayReader.Read] panics whenever the destination length differs
    from [Size]. *)
Theorem C10_dynamic_read_truncates_silently
    (r : DynamicBytesReader) (rb : ByteArrayReader) (src : ReaderSource)
    (v : list byte) (start end_ : Z) :
  (ReaderSource.offset src (Offset (db_pos r)) = Ok start ->
   ReaderSource.objectEnd src (db_pos r) = Ok end_ ->
   start <= end_ -> end_ <= len (payload src) ->
   len v < end_ - start ->
   exists content,
     subslice (payload src) start end_ = Ok content /\
     len content = end_ - start /\
     DynamicBytesReader.Read r src v = Ok (firstn (length v) content)) /\
  (len v <> Size rb -> ByteArrayReader.Read rb src v = Panic "invalid size").
Proof.
  split.
  - intros Hs He Hle Hlen Hv.
    pose proof (offset_nonneg _ _ _ Hs) as H0.
    exists (firstn (Z.to_nat (end_ - start)) (skipn (Z.to_nat start) (payload src))).
    pose proof (subslice_ok (payload src) start end_ H0 Hle Hlen) as Hsub.
    split; [exact Hsub|].
    pose proof (subslice_length _ _ _ _ Hsub) as Hl.
    split; [exact Hl|].
    unfold DynamicBytesReader.Read. rewrite Hs, He. simpl.
    rewrite backing_inside by exact Hlen. rewrite Hsub. simpl.
    f_equal. apply copy_truncated. unfold len in *. lia.
  - intros H. unfold ByteArrayReader.Read, len in *.
    destruct (Z.eqb_spec (Z.of_nat (length v)) (Size rb)); [contradiction|].
    reflexivity.
Qed.

Lemma C10_dynamic_read_truncates_silently_witness :
  (exists content,
     subslice (payload oneBlob) 4 9 = Ok content /\
     len content = 9 - 4 /\
     DynamicBytesReader.Read oneBlobReader oneBlob [Byte.xff; Byte.xff]
       = Ok (firstn 2 content)) /\
  ByteArrayReader.Read {| ba_pos := zeroPos; Size := 4 |} oneBlob [Byte.xff; Byte.xff]
    = Panic "invalid size".
Proof.
  split.
  - apply (proj1 (C10_dynamic_read_truncates_silently
      oneBlobReader {| ba_pos := zeroPos; Size := 4 |} oneBlob [Byte.xff; Byte.xff] 4 9)).
    + vm_compute. reflexivity.
    + vm_compute. reflexivity.
    + lia.
    + vm_compute. discriminate.
    + vm_compute. reflexivity.
  - apply (proj2 (C10_dynamic_read_truncates_silently
      oneBlobReader {| ba_pos := zeroPos; Size := 4 |} oneBlob
      [Byte.xff; Byte.xff] 0 0)).
    vm_compute. discriminate.
Defined.

(** The content of [oneBlob] is "abcde"; a destination of two bytes
    receives "ab". *)
Example oneBlob_read_two :
  DynamicBytesReader.Read oneBlobReader oneBlob [Byte.xff; Byte.xff]
    = Ok [Byte.x61; Byte.x62].
Proof. vm_compute. reflexivity. Qed.

(** ** S1: VoluntaryExit *)

(** C8.  The value of S1 encodes to the 16 bytes of the scenario, in
    streaming mode and into a buffer of 16 bytes, and decoding those bytes
    into any [VoluntaryExit] yields the value, without an error. *)
Theorem C8_voluntary_exit_bytes :
  EncodeToStream [] (VoluntaryExit.object exit7) = Ok (exit7Bytes, None) /\
  EncodeToBytes (W := list byte) (repeat Byte.x00 16) (VoluntaryExit.object exit7)
    = Ok (exit7Bytes, None) /\
  length exit7Bytes = 16%nat /\
  forall v0 : VoluntaryExit,
    DecodeFromBytes (W := list byte) exit7Bytes (VoluntaryExit.DefineSSZ v0)
      = Ok (exit7, None).
Proof.
  repeat split; try (vm_compute; reflexivity).
Qed.

(** ** The encoder: sequences of calls *)

Section Sequences.
Context {W : Type} {writer : Writer W}.

Lemma fold_panic (fs : list (Encoder W -> outcome (Encoder W))) (msg : string) :
  fold_left (fun m f => enc <- m ;; f enc) fs (Panic msg) = Panic msg.
Proof. induction fs as [|f fs IH]; simpl; [reflexivity|exact IH]. Qed.

Lemma sequence_nil (enc : Encoder W) : sequence [] enc = Ok enc.
Proof. reflexivity. Qed.

Lemma sequence_cons (f : Encoder W -> outcome (Encoder W)) fs (enc : Encoder W) :
  sequence (f :: fs) enc = (enc <- f enc ;; sequence fs enc).
Proof.
  unfold sequence. simpl. destruct (f enc) as [enc'|msg]; simpl.
  - reflexivity.
  - apply fold_panic.
Qed.

Lemma sequence_app (fs gs : list (Encoder W -> outcome (Encoder W))) (enc : Encoder W) :
  sequence (fs ++ gs) enc = (enc <- sequence fs enc ;; sequence gs enc).
Proof.
  revert enc. induction fs as [|f fs IH]; intros enc.
  - reflexivity.
  - simpl app. rewrite !sequence_cons.
    destruct (f enc) as [enc'|msg]; simpl; [apply IH|reflexivity].
Qed.

Lemma execAll_cons (c : Call) (cs : list Call) (enc : Encoder W) :
  execAll (c :: cs) enc = (enc <- exec c enc ;; execAll cs enc).
Proof. unfold execAll. simpl map. apply sequence_cons. Qed.

Lemma execAll_app (cs ds : list Call) (enc : Encoder W) :
  execAll (cs ++ ds) enc = (enc <- execAll cs enc ;; execAll ds enc).
Proof. unfold execAll. rewrite map_app. apply sequence_app. Qed.

Lemma staticObject_define (obj : StaticValue) :
  DefineSSZ (staticObject obj) = execAll (W := W) (staticCalls obj).
Proof. destruct obj; reflexivity. Qed.

Lemma dynamicObject_define (obj : DynamicValue) :
  DefineSSZd (dynamicObject obj) = execAll (W := W) (dynamicCalls obj).
Proof. destruct obj; reflexivity. Qed.

Lemma staticObject_size (obj : StaticValue) :
  SizeSSZ (staticObject (W := W) obj) = staticSize obj.
Proof. destruct obj; reflexivity. Qed.

Lemma dynamicObject_size (obj : DynamicValue) :
  SizeSSZd (dynamicObject (W := W) obj) = dynamicSize obj.
Proof. destruct obj; reflexivity. Qed.

End Sequences.

(** ** The encoder: the latched error *)

Section Latch.
Context {W : Type} {writer : Writer W}.

Lemma latched_hasErr (enc : Encoder W) (w : W) (e : error) :
  latched enc w e -> hasErr enc = true.
Proof. intros [_ H]. unfold hasErr. rewrite H. reflexivity. Qed.

Lemma rangeChecked_hasErr {A : Type} (body : A -> Encoder W -> outcome (Encoder W))
    (xs : list A) (enc : Encoder W) :
  hasErr enc = true ->
  rangeChecked body xs enc
    = Ok (match xs with [] => Continues enc | _ :: _ => Returned enc end).
Proof. intros H. destruct xs; simpl; [|rewrite H]; reflexivity. Qed.

Lemma write_streaming (enc : Encoder W) (w : W) (p : list byte) :
  outWriter enc = Some w ->
  write enc p = Ok {| outWriter := Some (fst (Write w p));
                      outBuffer := outBuffer enc;
                      err := snd (Write w p);
                      offset := offset enc |}.
Proof. intros H. unfold write. rewrite H. destruct (Write w p). reflexivity. Qed.

Lemma exec_latched (c : Call) (enc : Encoder W) (w : W) (e : error) :
  latched enc w e ->
  exists enc', exec c enc = Ok enc' /\ latched enc' w e /\ outBuffer enc' = outBuffer enc.
Proof.
  intros [Hw He]. destruct enc as [ow ob er off]. simpl in Hw, He. subst ow er.
  assert (L : forall o, @latched W {| outWriter := Some w; outBuffer := ob; err := Some e; offset := o |} w e)
    by (intros o; split; reflexivity).
  destruct c; simpl;
    try (eexists; split; [reflexivity|split; [apply L|reflexivity]]).
  - destruct ns; (eexists; split; [reflexivity|split; [apply L|reflexivity]]).
  - destruct blobs; (eexists; split; [reflexivity|split; [apply L|reflexivity]]).
  - destruct blobs; (eexists; split; [reflexivity|split; [apply L|reflexivity]]).
  - destruct blobs; (eexists; split; [reflexivity|split; [apply L|reflexivity]]).
  - destruct objects; (eexists; split; [reflexivity|split; [apply L|reflexivity]]).
  - destruct objects; (eexists; split; [reflexivity|split; [apply L|reflexivity]]).
Qed.

Lemma execAll_latched (cs : list Call) (enc : Encoder W) (w : W) (e : error) :
  latched enc w e ->
  exists enc', execAll cs enc = Ok enc' /\ latched enc' w e /\ outBuffer enc' = outBuffer enc.
Proof.
  revert enc. induction cs as [|c cs IH]; intros enc H.
  - exists enc. split; [reflexivity|split; [exact H|reflexivity]].
  - rewrite execAll_cons.
    destruct (exec_latched c enc w e H) as (enc1 & E1 & L1 & B1).
    rewrite E1. simpl.
    destruct (IH enc1 L1) as (enc2 & E2 & L2 & B2).
    exists enc2. split; [exact E2|split; [exact L2|congruence]].
Qed.

End Latch.

(** ** The encoder: the output buffer *)

Lemma len_app {A : Type} (a b : list A) : len (a ++ b) = len a + len b.
Proof. unfold len. rewrite length_app. lia. Qed.

Lemma len_nonneg {A : Type} (a : list A) : 0 <= len a.
Proof. unfold len. lia. Qed.

Lemma fits_slen (s : Slice) (p : list byte) : fits s p -> len p <= slen s.
Proof. unfold fits, slen, len. lia. Qed.

Lemma advance_length (s : Slice) (p : list byte) :
  fits s p -> length (arr (advance s p)) = length (arr s).
Proof.
  unfold fits, advance. simpl. intros H.
  rewrite !length_app, length_firstn, length_skipn. lia.
Qed.

Lemma advance_nil (s : Slice) : fits s [] -> advance s [] = s.
Proof.
  unfold fits, advance. destruct s as [a l]. simpl. intros H.
  rewrite Nat.add_0_r, firstn_skipn. reflexivity.
Qed.

Lemma fits_app (s : Slice) (a b : list byte) :
  fits s (a ++ b) <-> fits s a /\ fits (advance s a) b.
Proof.
  unfold fits at 1 2. rewrite length_app. split.
  - intros H. assert (Ha : fits s a) by (unfold fits; lia).
    split; [exact Ha|]. unfold fits. rewrite advance_length by exact Ha. simpl. lia.
  - intros [Ha Hb]. unfold fits in Hb. rewrite advance_length in Hb by exact Ha.
    simpl in Hb. lia.
Qed.

Lemma advance_app (s : Slice) (a b : list byte) :
  fits s a -> advance (advance s a) b = advance s (a ++ b).
Proof.
  unfold fits, advance. destruct s as [arr0 l]. simpl. intros H.
  f_equal.
  - rewrite firstn_app. rewrite length_firstn.
    replace (Nat.min l (length arr0)) with l by lia.
    rewrite firstn_all2 with (n := (l + length a)%nat)
      by (rewrite length_firstn; lia).
    replace (l + length a - l)%nat with (length a) by lia.
    rewrite firstn_app, firstn_all, Nat.sub_diag. simpl firstn at 2.
    rewrite app_nil_r, <- !app_assoc. f_equal. f_equal. f_equal.
    rewrite skipn_app, length_firstn.
    replace (Nat.min l (length arr0)) with l by lia.
    rewrite skipn_all2 with (n := (l + length a + length b)%nat)
      by (rewrite length_firstn; lia).
    simpl. rewrite skipn_app.
    rewrite skipn_all2 with (l := a) by lia. simpl.
    rewrite skipn_skipn, length_app. f_equal. lia.
  - rewrite length_app. lia.
Qed.

Lemma written_advance (s : Slice) (p : list byte) :
  fits s p -> written (advance s p) = written s ++ p.
Proof.
  unfold fits, written, advance. destruct s as [arr0 l]. simpl. intros H.
  rewrite firstn_app, length_firstn.
  replace (Nat.min l (length arr0)) with l by lia.
  rewrite firstn_all2 with (n := (l + length p)%nat) by (rewrite length_firstn; lia).
  f_equal. replace (l + length p - l)%nat with (length p) by lia.
  rewrite firstn_app, firstn_all, Nat.sub_diag. simpl. apply app_nil_r.
Qed.

Lemma scopy_fits (s : Slice) (p : list byte) :
  fits s p -> sfrom (scopy s p) (len p) = Ok (advance s p).
Proof.
  unfold fits, sfrom, scopy, slen, advance, copy, len. destruct s as [arr0 l]. simpl.
  intros H.
  assert (E : firstn l arr0 ++ firstn (length (skipn l arr0)) p ++ skipn (length p) (skipn l arr0)
              = firstn l arr0 ++ p ++ skipn (l + length p) arr0).
  { f_equal. rewrite firstn_all2 by (rewrite length_skipn; lia).
    f_equal. rewrite skipn_skipn. f_equal. lia. }
  rewrite E.
  destruct (Z.leb_spec 0 (Z.of_nat (length p))); [|lia].
  rewrite !length_app, length_firstn, length_skipn.
  destruct (Z.leb_spec (Z.of_nat (length p))
              (Z.of_nat (Nat.min l (length arr0) + (length p + (length arr0 - (l + length p))) - l)));
    [|lia].
  simpl. rewrite Nat2Z.id. reflexivity.
Qed.

Lemma sput_fits (s : Slice) (p : list byte) :
  fits s p -> sput s p = Ok (scopy s p).
Proof.
  intros H. unfold sput. pose proof (fits_slen s p H).
  destruct (Z.ltb_spec (slen s) (len p)); [lia|reflexivity].
Qed.

Lemma bufferPut_fits {W : Type} (enc : Encoder W) (p : list byte) :
  fits (outBuffer enc) p ->
  bufferPut enc p = Ok (setOutBuffer enc (advance (outBuffer enc) p)).
Proof.
  intros H. unfold bufferPut. rewrite sput_fits by exact H. simpl.
  rewrite scopy_fits by exact H. reflexivity.
Qed.

Lemma bufferCopy_fits {W : Type} (enc : Encoder W) (p : list byte) :
  fits (outBuffer enc) p ->
  bufferCopy enc p = Ok (setOutBuffer enc (advance (outBuffer enc) p)).
Proof.
  intros H. unfold bufferCopy. rewrite scopy_fits by exact H. reflexivity.
Qed.

(** ** The encoder: buffered mode and the error field *)

Section BufferedErr.
Context {W : Type} {writer : Writer W}.

Lemma keepsErr_bind (f g : Encoder W -> outcome (Encoder W)) :
  keepsErr f -> keepsErr g -> keepsErr (fun enc => enc <- f enc ;; g enc).
Proof.
  intros Hf Hg enc enc' Hw. destruct (f enc) as [enc1|] eqn:E; simpl; [|discriminate].
  intros E2. destruct (Hf enc enc1 Hw E) as [Hw1 He1].
  destruct (Hg enc1 enc' Hw1 E2) as [Hw2 He2]. split; congruence.
Qed.

Lemma keepsErr_pure (g : Encoder W -> Encoder W) :
  (forall enc, outWriter (g enc) = outWriter enc /\ err (g enc) = err enc) ->
  keepsErr (fun enc => Ok (g enc)).
Proof.
  intros H enc enc' Hw E. injection E as <-. destruct (H enc). split; congruence.
Qed.

Lemma keepsErr_bufferPut (p : list byte) : keepsErr (fun enc : Encoder W => bufferPut enc p).
Proof.
  intros enc enc' Hw. unfold bufferPut.
  destruct (sput (outBuffer enc) p); simpl; [|discriminate].
  destruct (sfrom a (len p)); simpl; [|discriminate].
  intros E. injection E as <-. simpl. auto.
Qed.

Lemma keepsErr_bufferCopy (p : list byte) : keepsErr (fun enc : Encoder W => bufferCopy enc p).
Proof.
  intros enc enc' Hw. unfold bufferCopy.
  destruct (sfrom (scopy (outBuffer enc) p) (len p)); simpl; [|discriminate].
  intros E. injection E as <-. simpl. auto.
Qed.

Lemma keepsErr_range {A : Type} (body : A -> Encoder W -> outcome (Encoder W)) (xs : list A) :
  Forall (fun x => keepsErr (body x)) xs -> keepsErr (range body xs).
Proof.
  induction 1 as [|x xs Hx _ IH].
  - intros enc enc' Hw E. injection E as <-. auto.
  - simpl. apply (keepsErr_bind (body x) (range body xs) Hx IH).
Qed.

Lemma keepsErr_rangeChecked {A : Type} (body : A -> Encoder W -> outcome (Encoder W))
    (xs : list A) (k : Encoder W -> outcome (Encoder W)) :
  Forall (fun x => keepsErr (body x)) xs -> keepsErr k ->
  keepsErr (fun enc => andThen (rangeChecked body xs enc) k).
Proof.
  intros H Hk. induction H as [|x xs Hx _ IH].
  - intros enc enc' Hw. unfold andThen. simpl. apply Hk. exact Hw.
  - intros enc enc' Hw. simpl. destruct (hasErr enc).
    + unfold andThen. simpl. intros E. injection E as <-. auto.
    + unfold andThen in *. destruct (body x enc) as [enc1|] eqn:E1; simpl; [|discriminate].
      destruct (Hx enc enc1 Hw E1) as [Hw1 He1]. intros E.
      destruct (IH enc1 enc' Hw1 E). split; congruence.
Qed.

Lemma keepsErr_sequence (fs : list (Encoder W -> outcome (Encoder W))) :
  Forall keepsErr fs -> keepsErr (sequence fs).
Proof.
  induction 1 as [|f fs Hf _ IH].
  - intros enc enc' Hw E. injection E as <-. auto.
  - intros enc enc' Hw. rewrite sequence_cons.
    apply (keepsErr_bind f (sequence fs) Hf IH). exact Hw.
Qed.

Lemma keepsErr_execAll (cs : list Call) :
  Forall (fun c => keepsErr (exec (W := W) c)) cs -> keepsErr (execAll (W := W) cs).
Proof.
  intros H. unfold execAll. apply keepsErr_sequence.
  induction H; simpl; constructor; assumption.
Qed.

Lemma keepsErr_Ok : keepsErr (fun enc : Encoder W => Ok enc).
Proof. intros enc enc' Hw E. injection E as <-. auto. Qed.

Lemma fold_addOffset_fields {A : Type} (g : A -> Z) (xs : list A) (enc : Encoder W) :
  let enc' := fold_left (fun enc x => addOffset enc (g x)) xs enc in
  outWriter enc' = outWriter enc /\ outBuffer enc' = outBuffer enc /\ err enc' = err enc.
Proof.
  revert enc. induction xs as [|x xs IH]; intros enc; simpl.
  - auto.
  - destruct (IH (addOffset enc (g x))) as (H1 & H2 & H3). simpl in *. auto.
Qed.

Lemma keepsErr_offsetPhase (advance : Encoder W -> Encoder W) :
  (forall enc, outWriter (advance enc) = outWriter enc /\ err (advance enc) = err enc) ->
  keepsErr (offsetPhase advance).
Proof.
  intros H enc enc' Hw. unfold offsetPhase, encodeOffset. rewrite Hw.
  destruct (bufferPut enc (PutUint32 (offset enc))) as [enc1|] eqn:E1; simpl; [|discriminate].
  intros E. injection E as <-.
  destruct (keepsErr_bufferPut _ enc enc1 Hw E1). destruct (H enc1). split; congruence.
Qed.

(** In buffered mode a call that walks no object leaves the error alone. *)
Lemma keepsErr_leaf (c : Call) : walksObjects c = false -> keepsErr (exec (W := W) c).
Proof.
  destruct c; simpl; try discriminate; intros _.
  - intros enc enc' Hw. unfold EncodeUint64. rewrite Hw. apply keepsErr_bufferPut. exact Hw.
  - intros enc enc' Hw. unfold EncodeUint256. rewrite Hw.
    destruct (sfrom _ 32); simpl; [|discriminate].
    intros E. injection E as <-. simpl. auto.
  - intros enc enc' Hw. unfold EncodeStaticBytes. rewrite Hw. apply keepsErr_bufferCopy. exact Hw.
  - apply keepsErr_offsetPhase. intros enc. simpl. auto.
  - intros enc enc' Hw. unfold EncodeDynamicBytesContent. rewrite Hw.
    apply keepsErr_bufferCopy. exact Hw.
  - apply keepsErr_offsetPhase. intros enc. simpl. auto.
  - apply keepsErr_offsetPhase. intros enc. cbv zeta.
    match goal with |- context [if ?b then _ else _] => destruct b end; simpl; auto.
  - intros enc enc' Hw. unfold EncodeSliceOfUint64sContent. rewrite Hw.
    apply keepsErr_range; [|exact Hw].
    apply Forall_forall. intros n _. apply keepsErr_bufferPut.
  - intros enc enc' Hw. unfold EncodeArrayOfStaticBytes. rewrite Hw.
    apply keepsErr_range; [|exact Hw].
    apply Forall_forall. intros n _. apply keepsErr_bufferCopy.
  - apply keepsErr_offsetPhase. intros enc. cbv zeta.
    match goal with |- context [if ?b then _ else _] => destruct b end; simpl; auto.
  - intros enc enc' Hw. unfold EncodeSliceOfStaticBytesContent. rewrite Hw.
    apply keepsErr_range; [|exact Hw].
    apply Forall_forall. intros n _. apply keepsErr_bufferCopy.
  - apply keepsErr_offsetPhase. intros enc.
    destruct (fold_addOffset_fields (fun blob => wrap32 (4 + len blob)) blobs enc) as (H1 & _ & H3).
    auto.
  - intros enc enc' Hw. unfold EncodeSliceOfDynamicBytesContent.
    unfold offsetDynamics. simpl outWriter. rewrite Hw.
    set (enc0 := setOffset enc (wrap32 (4 * len blobs))).
    assert (Hw0 : outWriter enc0 = None) by exact Hw.
    unfold andThen.
    destruct (range _ blobs enc0) as [enc1|] eqn:E1; simpl; [|discriminate].
    assert (K1 : outWriter enc1 = None /\ err enc1 = err enc0).
    { revert E1. apply keepsErr_range; [|exact Hw0].
      apply Forall_forall. intros blob _.
      apply (keepsErr_bind (fun enc => bufferPut enc (PutUint32 (offset enc)))
               (fun enc => Ok (addOffset enc (wrap32 (len blob))))).
      - intros e1 e2 H1. unfold bufferPut.
        destruct (sput (outBuffer e1) _); simpl; [|discriminate].
        destruct (sfrom a _); simpl; [|discriminate].
        intros E. injection E as <-. simpl. auto.
      - apply keepsErr_pure. intros e1. simpl. auto. }
    destruct K1 as [Hw1 He1]. rewrite Hw1. intros E2.
    assert (K2 : outWriter enc' = None /\ err enc' = err enc1).
    { revert E2. apply keepsErr_range; [|exact Hw1].
      apply Forall_forall. intros blob _. apply keepsErr_bufferCopy. }
    destruct K2. split; [assumption|]. simpl in He1. congruence.
  - apply keepsErr_offsetPhase. intros enc. destruct (map staticObject objects); simpl; auto.
  - apply keepsErr_offsetPhase. intros enc.
    destruct (fold_addOffset_fields (fun obj : DynamicObject W => wrap32 (4 + SizeSSZd obj false))
                (map dynamicObject objects) enc) as (H1 & _ & H3).
    auto.
Qed.

End BufferedErr.

Section BufferedErrAll.
Context {W : Type} {writer : Writer W}.

Lemma keepsErr_guarded (f : Encoder W -> outcome (Encoder W)) :
  keepsErr f -> keepsErr (fun enc => if hasErr enc then Ok enc else f enc).
Proof.
  intros H enc enc' Hw. destruct (hasErr enc).
  - intros E. injection E as <-. auto.
  - apply H. exact Hw.
Qed.

Lemma keepsErr_anchored (f : Encoder W -> outcome (Encoder W)) (d : Z) :
  keepsErr f -> keepsErr (fun enc => f (offsetDynamics enc d)).
Proof. intros H enc enc' Hw E. apply (H (offsetDynamics enc d) enc' Hw E). Qed.

(** In buffered mode no call sets the error. *)
Lemma keepsErr_exec (c : Call) : keepsErr (exec (W := W) c).
Proof.
  induction c using Call_walk_ind.
  - apply keepsErr_leaf. assumption.
  - simpl. unfold EncodeStaticObject. apply keepsErr_guarded.
    rewrite staticObject_define. apply keepsErr_execAll. assumption.
  - simpl. unfold EncodeDynamicObjectContent. apply keepsErr_guarded.
    apply keepsErr_anchored with (f := DefineSSZd (dynamicObject obj)).
    rewrite dynamicObject_define. apply keepsErr_execAll. assumption.
  - simpl. unfold EncodeSliceOfStaticObjectsContent.
    apply keepsErr_rangeChecked; [|apply keepsErr_Ok].
    induction H as [|obj objects Hobj _ IH]; simpl; constructor; [|exact IH].
    rewrite staticObject_define. apply keepsErr_execAll. exact Hobj.
  - simpl. unfold EncodeSliceOfDynamicObjectsContent.
    intros enc enc' Hw. cbv zeta.
    set (enc0 := offsetDynamics enc (wrap32 (4 * len (map dynamicObject objects)))).
    assert (Hw0 : outWriter enc0 = None) by exact Hw.
    rewrite Hw0. unfold andThen at 1.
    destruct (range _ (map dynamicObject objects) enc0) as [enc1|] eqn:E1; simpl; [|discriminate].
    assert (K1 : outWriter enc1 = None /\ err enc1 = err enc0).
    { revert E1. apply keepsErr_range; [|exact Hw0].
      apply Forall_forall. intros obj _.
      apply (keepsErr_bind (fun enc => bufferPut enc (PutUint32 (offset enc)))
               (fun enc => Ok (addOffset enc (SizeSSZd obj false)))).
      - intros e1 e2 H1. unfold bufferPut.
        destruct (sput (outBuffer e1) _); simpl; [|discriminate].
        destruct (sfrom a _); simpl; [|discriminate].
        intros E. injection E as <-. simpl. auto.
      - apply keepsErr_pure. intros e1. simpl. auto. }
    destruct K1 as [Hw1 He1]. intros E2.
    assert (K2 : outWriter enc' = None /\ err enc' = err enc1).
    { revert E2.
      apply (keepsErr_rangeChecked
               (fun (obj : DynamicObject W) enc => DefineSSZd obj (offsetDynamics enc (SizeSSZd obj true)))
               (map dynamicObject objects) Ok); [|apply keepsErr_Ok|exact Hw1].
      clear -H. induction H as [|obj objects Hobj _ IH]; simpl; constructor; [|exact IH].
      apply keepsErr_anchored with (f := DefineSSZd (dynamicObject obj)).
      rewrite dynamicObject_define. apply keepsErr_execAll. exact Hobj. }
    destruct K2. split; [assumption|]. simpl in He1. congruence.
Qed.








End BufferedErrAll.

(** ** The encoder: streaming mode against buffered mode *)

Lemma write_streaming_buffer (w : list byte) (b : Slice) (o : Z) (p : list byte) :
  write (streaming w b o) p = Ok (streaming (w ++ p) b o).
Proof. reflexivity. Qed.

Lemma bufferPut_buffered (s : Slice) (o : Z) (p : list byte) :
  fits s p -> bufferPut (buffered s o) p = Ok (buffered (advance s p) o).
Proof. intros H. rewrite bufferPut_fits by exact H. reflexivity. Qed.

Lemma bufferCopy_buffered (s : Slice) (o : Z) (p : list byte) :
  fits s p -> bufferCopy (buffered s o) p = Ok (buffered (advance s p) o).
Proof. intros H. rewrite bufferCopy_fits by exact H. reflexivity. Qed.

Lemma fits_nil_of (s : Slice) (p : list byte) : fits s p -> fits s [].
Proof. unfold fits. simpl. lia. Qed.

Lemma simAt_ret (o : Z) : simAt Ok Ok o [] o.
Proof.
  split.
  - intros w b. rewrite app_nil_r. reflexivity.
  - intros s H. rewrite advance_nil by exact H. reflexivity.
Qed.

Lemma simAt_bind fS1 fB1 fS2 fB2 (o o1 o2 : Z) (a b : list byte) :
  simAt fS1 fB1 o a o1 -> simAt fS2 fB2 o1 b o2 ->
  simAt (fun enc => enc <- fS1 enc ;; fS2 enc) (fun enc => enc <- fB1 enc ;; fB2 enc)
    o (a ++ b) o2.
Proof.
  intros [S1 B1] [S2 B2]. split.
  - intros w b0. rewrite S1. simpl. rewrite S2, app_assoc. reflexivity.
  - intros s H. apply fits_app in H. destruct H as [Ha Hb].
    rewrite B1 by exact Ha. simpl. rewrite B2 by exact Hb.
    rewrite advance_app by exact Ha. reflexivity.
Qed.

Lemma simAt_write_put (p : Z -> list byte) (o : Z) :
  simAt (fun enc => write enc (p (offset enc))) (fun enc => bufferPut enc (p (offset enc)))
    o (p o) o.
Proof.
  split.
  - intros w b. reflexivity.
  - intros s H. simpl offset. rewrite bufferPut_buffered by exact H. reflexivity.
Qed.

Lemma simAt_write_copy (p : list byte) (o : Z) :
  simAt (fun enc => write enc p) (fun enc => bufferCopy enc p) o p o.
Proof.
  split.
  - intros w b. reflexivity.
  - intros s H. rewrite bufferCopy_buffered by exact H. reflexivity.
Qed.

Lemma simAt_offset (g : Encoder (list byte) -> Encoder (list byte)) (h : Z -> Z) (o : Z) :
  (forall w b o, g (streaming w b o) = streaming w b (h o)) ->
  (forall s o, g (buffered s o) = buffered s (h o)) ->
  simAt (fun enc => Ok (g enc)) (fun enc => Ok (g enc)) o [] (h o).
Proof.
  intros HS HB. split.
  - intros w b. rewrite HS, app_nil_r. reflexivity.
  - intros s H. rewrite HB, advance_nil by exact H. reflexivity.
Qed.

Lemma simAt_anchored fS fB (d o : Z) (out : list byte) (o' : Z) :
  simAt fS fB d out o' ->
  simAt (fun enc => fS (offsetDynamics enc d)) (fun enc => fB (offsetDynamics enc d)) o out o'.
Proof. intros [S B]. split; intros; [apply S|apply B; assumption]. Qed.

Lemma simAt_guarded fS fB (o : Z) (out : list byte) (o' : Z) :
  simAt fS fB o out o' ->
  simAt (fun enc => if hasErr enc then Ok enc else fS enc)
        (fun enc => if hasErr enc then Ok enc else fB enc) o out o'.
Proof. intros [S B]. split; intros; [apply S|apply B; assumption]. Qed.

Lemma simAt_mode fS fB (o : Z) (out : list byte) (o' : Z) :
  simAt fS fB o out o' ->
  simAt (fun enc => match outWriter enc with Some _ => fS enc | None => fB enc end)
        (fun enc => match outWriter enc with Some _ => fS enc | None => fB enc end) o out o'.
Proof. intros [S B]. split; intros; [apply S|apply B; assumption]. Qed.

Lemma simAt_guardedS fS fB (o : Z) (out : list byte) (o' : Z) :
  simAt fS fB o out o' ->
  simAt (fun enc => if hasErr enc then Ok enc else fS enc) fB o out o'.
Proof. intros [S B]. split; intros; [apply S|apply B; assumption]. Qed.

Lemma sim_simAt fS fB : sim fS fB -> forall o, simAt fS fB o (outOf fS o) (offOf fS o).
Proof.
  intros H o. destruct (H o) as (out & o' & S & B).
  assert (E1 : outOf fS o = out) by (unfold outOf; rewrite S; reflexivity).
  assert (E2 : offOf fS o = o') by (unfold offOf; rewrite S; reflexivity).
  rewrite E1, E2. split; assumption.
Qed.

Lemma simAt_sim fS fB (outF : Z -> list byte) (offF : Z -> Z) :
  (forall o, simAt fS fB o (outF o) (offF o)) -> sim fS fB.
Proof. intros H o. exists (outF o), (offF o). apply H. Qed.

Lemma simAt_out fS fB (o : Z) (out : list byte) (o' : Z) :
  simAt fS fB o out o' -> outOf fS o = out /\ offOf fS o = o'.
Proof.
  intros [S _]. unfold outOf, offOf. rewrite S. split; reflexivity.
Qed.

(** The loops: the checked loop of streaming mode against the plain and
    the checked loop of buffered mode. *)
Lemma simAt_loops {A : Type} (bodyS bodyB : A -> Encoder (list byte) -> outcome (Encoder (list byte)))
    (outF : A -> Z -> list byte) (offF : A -> Z -> Z) (xs : list A) :
  Forall (fun x => forall o, simAt (bodyS x) (bodyB x) o (outF x o) (offF x o)) xs ->
  forall o,
    (forall w b, rangeChecked bodyS xs (streaming w b o)
       = Ok (Continues (streaming (w ++ loopBytes outF offF xs o) b (loopOffset offF xs o)))) /\
    (forall s, fits s (loopBytes outF offF xs o) ->
       range bodyB xs (buffered s o)
       = Ok (buffered (advance s (loopBytes outF offF xs o)) (loopOffset offF xs o))) /\
    (forall s, fits s (loopBytes outF offF xs o) ->
       rangeChecked bodyB xs (buffered s o)
       = Ok (Continues (buffered (advance s (loopBytes outF offF xs o)) (loopOffset offF xs o)))).
Proof.
  induction 1 as [|x xs Hx _ IH]; intros o; simpl.
  - split; [|split].
    + intros w b. rewrite app_nil_r. reflexivity.
    + intros s H. rewrite advance_nil by exact H. reflexivity.
    + intros s H. rewrite advance_nil by exact H. reflexivity.
  - destruct (Hx o) as [S B]. destruct (IH (offF x o)) as (S' & B' & C').
    split; [|split].
    + intros w b. rewrite S. simpl. rewrite S', app_assoc. reflexivity.
    + intros s H. apply fits_app in H. destruct H as [Ha Hb].
      rewrite B by exact Ha. simpl. rewrite B' by exact Hb.
      rewrite advance_app by exact Ha. reflexivity.
    + intros s H. apply fits_app in H. destruct H as [Ha Hb].
      rewrite B by exact Ha. simpl. rewrite C' by exact Hb.
      rewrite advance_app by exact Ha. reflexivity.
Qed.

Lemma loopBytes_const {A : Type} (f : A -> list byte) (xs : list A) (o : Z) :
  loopBytes (fun x _ => f x) (fun _ o => o) xs o = concat (map f xs) /\
  loopOffset (fun (_ : A) o => o) xs o = o.
Proof.
  induction xs as [|x xs [IH1 IH2]]; simpl; [auto|].
  rewrite IH1, IH2. auto.
Qed.

Lemma loopBytes_offsetTable (blobs : list (list byte)) (o : Z) :
  loopBytes (fun (_ : list byte) o => PutUint32 o)
    (fun blob o => wrap32 (o + wrap32 (len blob))) blobs o = offsetTable o blobs.
Proof.
  revert o. induction blobs as [|blob blobs IH]; intros o; simpl; [reflexivity|].
  rewrite IH. reflexivity.
Qed.

Lemma fold_addOffset_streaming {A : Type} (g : A -> Z) (xs : list A) w b o :
  fold_left (fun enc x => addOffset enc (g x)) xs (streaming w b o)
  = streaming w b (fold_left (fun o x => wrap32 (o + g x)) xs o).
Proof.
  revert o. induction xs as [|x xs IH]; intros o; simpl; [reflexivity|].
  rewrite <- IH. reflexivity.
Qed.

Lemma fold_addOffset_buffered {A : Type} (g : A -> Z) (xs : list A) s o :
  fold_left (fun enc x => addOffset enc (g x)) xs (buffered s o)
  = buffered s (fold_left (fun o x => wrap32 (o + g x)) xs o).
Proof.
  revert o. induction xs as [|x xs IH]; intros o; simpl; [reflexivity|].
  rewrite <- IH. reflexivity.
Qed.

Lemma simAt_offsetPhase (adv : Encoder (list byte) -> Encoder (list byte)) (h : Z -> Z) (o : Z) :
  (forall w b o, adv (streaming w b o) = streaming w b (h o)) ->
  (forall s o, adv (buffered s o) = buffered s (h o)) ->
  simAt (offsetPhase adv) (offsetPhase adv) o (PutUint32 o) (h o).
Proof.
  intros HS HB. split.
  - intros w b. unfold offsetPhase, encodeOffset. simpl.
    f_equal. apply HS.
  - intros s H. unfold offsetPhase, encodeOffset. simpl outWriter. cbv iota. simpl offset.
    rewrite bufferPut_buffered by exact H. simpl. f_equal. apply HB.
Qed.

Lemma len_MarshalSSZTo (n : Z) : len (MarshalSSZTo n) = 32.
Proof. unfold len, MarshalSSZTo. rewrite length_le_split. reflexivity. Qed.

Lemma fold_map {A B C : Type} (f : C -> B -> C) (g : A -> B) (xs : list A) (c : C) :
  fold_left f (map g xs) c = fold_left (fun c x => f c (g x)) xs c.
Proof. revert c. induction xs as [|x xs IH]; intros c; simpl; [reflexivity|apply IH]. Qed.

(** A call that walks no object: its bytes and its offset, the same in
    both modes. *)
Lemma simAt_leaf (c : Call) (o : Z) :
  walksObjects c = false -> simAt (exec c) (exec c) o (leafBytes c o) (leafOffset c o).
Proof.
  destruct c; simpl; try discriminate; intros _.
  - split; intros; [reflexivity|]. unfold EncodeUint64. simpl.
    apply bufferPut_buffered. assumption.
  - split.
    + intros w b. destruct n; reflexivity.
    + intros s H. unfold EncodeUint256. simpl outWriter. cbv iota. simpl outBuffer.
      destruct n as [n|].
      * pose proof (fits_slen _ _ H) as Hl. rewrite len_MarshalSSZTo in Hl.
        destruct (Z.ltb_spec (slen s) 32); [lia|].
        rewrite <- (len_MarshalSSZTo n), scopy_fits by exact H. reflexivity.
      * change 32 with (len zeros32). rewrite scopy_fits by exact H. reflexivity.
  - split; intros; [reflexivity|]. unfold EncodeStaticBytes. simpl.
    apply bufferCopy_buffered. assumption.
  - apply (simAt_offsetPhase _ (fun o => wrap32 (o + wrap32 (len blob)))); reflexivity.
  - split; intros; [reflexivity|]. unfold EncodeDynamicBytesContent. simpl.
    apply bufferCopy_buffered. assumption.
  - apply (simAt_offsetPhase _ (fun o => wrap32 (o + dynamicSize obj false))).
    + intros. unfold addOffset. rewrite dynamicObject_size. reflexivity.
    + intros. unfold addOffset. rewrite dynamicObject_size. reflexivity.
  - apply (simAt_offsetPhase _
             (fun o => if len ns >? 0 then wrap32 (o + wrap32 (len ns * 8)) else o)).
    + intros. cbv zeta. destruct (len ns >? 0); reflexivity.
    + intros. cbv zeta. destruct (len ns >? 0); reflexivity.
  - destruct (simAt_loops (fun n enc => write enc (PutUint64 n))
                (fun n enc => bufferPut enc (PutUint64 n))
                (fun n _ => PutUint64 n) (fun _ o => o) ns) with (o := o) as (S & B & _).
    { apply Forall_forall. intros n _ o0. apply (simAt_write_put (fun _ => PutUint64 n)). }
    destruct (loopBytes_const PutUint64 ns o) as [E1 E2]. rewrite E1, E2 in S, B.
    split.
    + intros w b. unfold EncodeSliceOfUint64sContent. simpl outWriter. cbv iota.
      rewrite S. reflexivity.
    + intros s H. unfold EncodeSliceOfUint64sContent. simpl outWriter. cbv iota.
      apply B. exact H.
  - destruct (simAt_loops (fun blob enc => write enc blob)
                (fun blob enc => bufferCopy enc blob)
                (fun blob _ => blob) (fun _ o => o) blobs) with (o := o) as (S & B & _).
    { apply Forall_forall. intros blob _ o0. apply simAt_write_copy. }
    destruct (loopBytes_const (fun blob : list byte => blob) blobs o) as [E1 E2].
    rewrite map_id in E1. rewrite E1, E2 in S, B.
    split.
    + intros w b. unfold EncodeArrayOfStaticBytes. simpl outWriter. cbv iota.
      rewrite S. reflexivity.
    + intros s H. unfold EncodeArrayOfStaticBytes. simpl outWriter. cbv iota.
      apply B. exact H.
  - apply (simAt_offsetPhase _
             (fun o => if len blobs >? 0
                       then wrap32 (o + wrap32 (len blobs * len (hd [] blobs))) else o)).
    + intros. cbv zeta. destruct (len blobs >? 0); reflexivity.
    + intros. cbv zeta. destruct (len blobs >? 0); reflexivity.
  - destruct (simAt_loops (fun blob enc => write enc blob)
                (fun blob enc => bufferCopy enc blob)
                (fun blob _ => blob) (fun _ o => o) blobs) with (o := o) as (S & B & _).
    { apply Forall_forall. intros blob _ o0. apply simAt_write_copy. }
    destruct (loopBytes_const (fun blob : list byte => blob) blobs o) as [E1 E2].
    rewrite map_id in E1. rewrite E1, E2 in S, B.
    split.
    + intros w b. unfold EncodeSliceOfStaticBytesContent. simpl outWriter. cbv iota.
      rewrite S. reflexivity.
    + intros s H. unfold EncodeSliceOfStaticBytesContent. simpl outWriter. cbv iota.
      apply B. exact H.
  - apply (simAt_offsetPhase _
             (fun o => fold_left (fun o blob => wrap32 (o + wrap32 (4 + len blob))) blobs o)).
    + intros. apply (fold_addOffset_streaming (fun blob : list byte => wrap32 (4 + len blob))).
    + intros. apply (fold_addOffset_buffered (fun blob : list byte => wrap32 (4 + len blob))).
  - set (d := wrap32 (4 * len blobs)).
    set (offF := fun (blob : list byte) (o : Z) => wrap32 (o + wrap32 (len blob))).
    destruct (simAt_loops
                (fun (blob : list byte) enc =>
                   enc <- write enc (PutUint32 (offset enc)) ;;
                   Ok (addOffset enc (wrap32 (len blob))))
                (fun (blob : list byte) enc =>
                   enc <- bufferPut enc (PutUint32 (offset enc)) ;;
                   Ok (addOffset enc (wrap32 (len blob))))
                (fun _ o => PutUint32 o) offF blobs) with (o := d) as (S1 & B1 & _).
    { apply Forall_forall. intros blob _ o0.
      rewrite <- (app_nil_r (PutUint32 o0)).
      apply (simAt_bind (fun enc => write enc (PutUint32 (offset enc)))
               (fun enc => bufferPut enc (PutUint32 (offset enc)))
               (fun enc => Ok (addOffset enc (wrap32 (len blob))))
               (fun enc => Ok (addOffset enc (wrap32 (len blob)))) o0 o0 (offF blob o0)).
      - apply (simAt_write_put PutUint32).
      - apply (simAt_offset (fun enc => addOffset enc (wrap32 (len blob)))
                 (fun o => wrap32 (o + wrap32 (len blob)))); reflexivity. }
    rewrite loopBytes_offsetTable in S1, B1.
    destruct (simAt_loops (fun blob enc => write enc blob)
                (fun blob enc => bufferCopy enc blob)
                (fun blob _ => blob) (fun _ o => o) blobs)
      with (o := loopOffset offF blobs d) as (S2 & B2 & _).
    { apply Forall_forall. intros blob _ o0. apply simAt_write_copy. }
    destruct (loopBytes_const (fun blob : list byte => blob) blobs (loopOffset offF blobs d))
      as [E1 E2].
    rewrite map_id in E1. rewrite E1, E2 in S2, B2.
    split.
    + intros w b. unfold EncodeSliceOfDynamicBytesContent, offsetDynamics.
      cbv zeta. simpl outWriter. cbv iota.
      change (setOffset (streaming w b o) (wrap32 (4 * len blobs))) with (streaming w b d).
      rewrite S1. unfold andThen at 1. simpl. rewrite S2. simpl.
      rewrite app_assoc. reflexivity.
    + intros s H. apply fits_app in H. destruct H as [Ha Hb].
      unfold EncodeSliceOfDynamicBytesContent, offsetDynamics.
      cbv zeta. simpl outWriter. cbv iota.
      change (setOffset (buffered s o) (wrap32 (4 * len blobs))) with (buffered s d).
      rewrite B1 by exact Ha. unfold andThen. simpl. rewrite B2 by exact Hb.
      rewrite advance_app by exact Ha. reflexivity.
  - apply (simAt_offsetPhase _
             (fun o => match objects with
                       | [] => o
                       | obj0 :: _ => wrap32 (o + wrap32 (wrap32 (len objects) * staticSize obj0))
                       end)).
    + intros. destruct objects as [|obj0 objects]; simpl; [reflexivity|].
      unfold addOffset, len. simpl. rewrite staticObject_size, length_map. reflexivity.
    + intros. destruct objects as [|obj0 objects]; simpl; [reflexivity|].
      unfold addOffset, len. simpl. rewrite staticObject_size, length_map. reflexivity.
  - apply (simAt_offsetPhase _
             (fun o => fold_left (fun o obj => wrap32 (o + wrap32 (4 + dynamicSize obj false)))
                         objects o)).
    + intros. rewrite fold_map.
      rewrite (fold_addOffset_streaming
                 (fun obj : DynamicValue => wrap32 (4 + SizeSSZd (dynamicObject (W := list byte) obj) false))).
      f_equal. clear. revert o0. induction objects as [|obj objects IH]; intros o0; simpl;
        [reflexivity|]. rewrite dynamicObject_size. apply IH.
    + intros. rewrite fold_map.
      rewrite (fold_addOffset_buffered
                 (fun obj : DynamicValue => wrap32 (4 + SizeSSZd (dynamicObject (W := list byte) obj) false))).
      f_equal. clear. revert o0. induction objects as [|obj objects IH]; intros o0; simpl;
        [reflexivity|]. rewrite dynamicObject_size. apply IH.
Qed.

Lemma simAt_ext fS fB fS' fB' (o : Z) (out : list byte) (o' : Z) :
  (forall enc, fS' enc = fS enc) -> (forall enc, fB' enc = fB enc) ->
  simAt fS fB o out o' -> simAt fS' fB' o out o'.
Proof.
  intros ES EB [S B]. split; intros.
  - rewrite ES. apply S.
  - rewrite EB. apply B. assumption.
Qed.

Lemma sim_sequence (fs : list (Encoder (list byte) -> outcome (Encoder (list byte)))) :
  Forall (fun f => sim f f) fs -> sim (sequence fs) (sequence fs).
Proof.
  induction 1 as [|f fs Hf _ IH]; intros o.
  - exists [], o. apply simAt_ret.
  - destruct (Hf o) as (a & o1 & H1). destruct (IH o1) as (b & o2 & H2).
    exists (a ++ b), o2.
    apply (simAt_ext (fun enc => enc <- f enc ;; sequence fs enc)
             (fun enc => enc <- f enc ;; sequence fs enc)).
    + intros enc. apply sequence_cons.
    + intros enc. apply sequence_cons.
    + apply simAt_bind with (o1 := o1); assumption.
Qed.

Lemma sim_execAll (cs : list Call) :
  Forall (fun c => sim (exec c) (exec c)) cs -> sim (execAll cs) (execAll cs).
Proof.
  intros H. unfold execAll. apply sim_sequence.
  induction H; simpl; constructor; assumption.
Qed.

(** Every call writes the same bytes and leaves the same offset in both
    modes. *)
Lemma sim_exec (c : Call) : sim (exec c) (exec c).
Proof.
  induction c using Call_walk_ind.
  - intros o. exists (leafBytes c o), (leafOffset c o). apply simAt_leaf. assumption.
  - intros o. destruct (sim_execAll _ H o) as (out & o' & S & B).
    exists out, o'. simpl. unfold EncodeStaticObject. rewrite staticObject_define.
    split; intros; [apply S|apply B; assumption].
  - intros o. destruct (sim_execAll _ H (dynamicSize obj true)) as (out & o' & S & B).
    exists out, o'. simpl. unfold EncodeDynamicObjectContent.
    rewrite dynamicObject_define, dynamicObject_size.
    split; intros; [apply S|apply B; assumption].
  - intros o. simpl. unfold EncodeSliceOfStaticObjectsContent.
    set (body := fun (obj : StaticObject (list byte)) enc => DefineSSZ obj enc).
    destruct (simAt_loops body body (fun obj => outOf (body obj)) (fun obj => offOf (body obj))
                (map staticObject objects)) with (o := o) as (S & _ & C).
    { clear o. induction H as [|obj objects Hobj _ IH]; simpl; constructor; [|exact IH].
      apply sim_simAt. unfold body. rewrite staticObject_define.
      apply sim_execAll. exact Hobj. }
    eexists. eexists. split.
    + intros w b. rewrite S. reflexivity.
    + intros s Hs. rewrite C by exact Hs. reflexivity.
  - intros o. simpl. unfold EncodeSliceOfDynamicObjectsContent.
    set (xs := map dynamicObject objects).
    set (d := wrap32 (4 * len xs)).
    set (bodyS1 := fun (obj : DynamicObject (list byte)) enc =>
                     enc <- write enc (PutUint32 (offset enc)) ;;
                     Ok (addOffset enc (SizeSSZd obj false))).
    set (bodyB1 := fun (obj : DynamicObject (list byte)) enc =>
                     enc <- bufferPut enc (PutUint32 (offset enc)) ;;
                     Ok (addOffset enc (SizeSSZd obj false))).
    set (body2 := fun (obj : DynamicObject (list byte)) enc =>
                    let enc := offsetDynamics enc (SizeSSZd obj true) in
                    DefineSSZd obj enc).
    set (offF1 := fun (obj : DynamicObject (list byte)) (o : Z) =>
                    wrap32 (o + SizeSSZd obj false)).
    destruct (simAt_loops bodyS1 bodyB1 (fun _ o => PutUint32 o) offF1 xs)
      with (o := d) as (S1 & B1 & _).
    { apply Forall_forall. intros obj _ o0.
      rewrite <- (app_nil_r (PutUint32 o0)).
      apply (simAt_bind (fun enc => write enc (PutUint32 (offset enc)))
               (fun enc => bufferPut enc (PutUint32 (offset enc)))
               (fun enc => Ok (addOffset enc (SizeSSZd obj false)))
               (fun enc => Ok (addOffset enc (SizeSSZd obj false))) o0 o0 (offF1 obj o0)).
      - apply (simAt_write_put PutUint32).
      - apply (simAt_offset (fun enc => addOffset enc (SizeSSZd obj false))
                 (fun o => wrap32 (o + SizeSSZd obj false))); reflexivity. }
    destruct (simAt_loops body2 body2 (fun obj => outOf (body2 obj)) (fun obj => offOf (body2 obj)) xs)
      with (o := loopOffset offF1 xs d) as (S2 & _ & C2).
    { unfold xs. clear -H.
      induction H as [|obj objects Hobj _ IH]; simpl; constructor; [|exact IH].
      apply sim_simAt. intros o.
      destruct (sim_execAll _ Hobj (dynamicSize obj true)) as (out & o' & S & B).
      exists out, o'. unfold body2. cbv zeta.
      rewrite dynamicObject_define, dynamicObject_size.
      split; intros; [apply S|apply B; assumption]. }
    eexists. eexists. split.
    + intros w b. cbv zeta. simpl outWriter. cbv iota.
      change (offsetDynamics (streaming w b o) d) with (streaming w b d).
      rewrite S1. unfold andThen at 1. simpl bind. cbv iota.
      rewrite S2. unfold andThen. simpl. rewrite app_assoc. reflexivity.
    + intros s Hs. apply fits_app in Hs. destruct Hs as [Ha Hb].
      cbv zeta. simpl outWriter. cbv iota.
      change (offsetDynamics (buffered s o) d) with (buffered s d).
      rewrite B1 by exact Ha. unfold andThen at 1. simpl bind. cbv iota.
      rewrite C2 by exact Hb. unfold andThen. simpl.
      rewrite advance_app by exact Ha. reflexivity.
Qed.

Lemma exec_callBytes (c : Call) (o : Z) :
  simAt (exec c) (exec c) o (callBytes c o) (callOffset c o).
Proof. apply sim_simAt. apply sim_exec. Qed.

Lemma advance_whole (buf out : list byte) :
  length buf = length out -> arr (advance {| arr := buf; lo := 0 |} out) = out.
Proof.
  intros H. unfold advance. simpl. rewrite skipn_all2 by lia. apply app_nil_r.
Qed.

(** C6.  A value encodes to the same bytes in both modes: what streaming
    mode writes to a sink that never fails is what buffered mode leaves in
    a buffer of exactly that length, and neither mode reports an error.
    For every single encode call, made at any offset, the streaming branch
    appends to the sink the bytes that the buffered branch stores at its
    cursor, and both leave the same offset. *)
Theorem C6_streaming_and_buffered_agree
    (v : Value) (buf : list byte) (c : Call) (o : Z) (w : list byte) (b s : Slice) :
  (length buf = length (streamBytes v) ->
   EncodeToStream [] (objectOf v) = Ok (streamBytes v, None) /\
   EncodeToBytes (W := list byte) buf (objectOf v) = Ok (streamBytes v, None)) /\
  (fits s (callBytes c o) ->
   exec c (streaming w b o) = Ok (streaming (w ++ callBytes c o) b (callOffset c o)) /\
   exec c (buffered s o) = Ok (buffered (advance s (callBytes c o)) (callOffset c o)) /\
   written (advance s (callBytes c o)) = written s ++ callBytes c o).
Proof.
  split.
  - intros Hlen.
    set (top := match v with
                | StaticValueOf sv => CallStaticObject sv
                | DynamicValueOf dv => CallDynamicObjectContent dv
                end).
    assert (E : forall enc : Encoder (list byte), encodeObject (objectOf v) enc = exec top enc)
      by (destruct v; reflexivity).
    destruct (exec_callBytes top 0) as [S B].
    assert (Es : streamBytes v = callBytes top 0).
    { unfold streamBytes, EncodeToStream. rewrite E.
      change (newStreaming []) with (streaming [] nilSlice 0).
      rewrite S. reflexivity. }
    split.
    + unfold EncodeToStream. rewrite E.
      change (newStreaming []) with (streaming [] nilSlice 0).
      rewrite S, Es. reflexivity.
    + unfold EncodeToBytes. rewrite E.
      change (newBuffered buf) with (buffered {| arr := buf; lo := 0 |} 0).
      rewrite Es in Hlen.
      rewrite B by (unfold fits; simpl; lia).
      unfold bind, buffered. simpl outBuffer. simpl err.
      rewrite advance_whole by exact Hlen. rewrite Es. reflexivity.
  - intros H. destruct (exec_callBytes c o) as [S B].
    split; [apply S|]. split; [apply B; exact H|]. apply written_advance. exact H.
Qed.

Lemma C6_streaming_and_buffered_agree_witness :
  (EncodeToStream [] (ExecutionPayload.object payloadS6) = Ok (payloadS6Bytes, None) /\
   EncodeToBytes (W := list byte) (repeat Byte.xff 521) (ExecutionPayload.object payloadS6)
     = Ok (payloadS6Bytes, None)) /\
  (exec (CallUint64 7) (streaming [] nilSlice 0) = Ok (streaming (PutUint64 7) nilSlice 0) /\
   exec (CallUint64 7) (buffered {| arr := repeat Byte.xff 8; lo := 0 |} 0)
     = Ok (buffered {| arr := PutUint64 7; lo := 8 |} 0) /\
   written {| arr := PutUint64 7; lo := 8 |} = PutUint64 7).
Proof.
  split.
  - refine (proj1 (C6_streaming_and_buffered_agree
      (DynamicValueOf (DynamicV (ExecutionPayload.SizeSSZ payloadS6)
                         (ExecutionPayload.DefineSSZ payloadS6)))
      (repeat Byte.xff 521) (CallUint64 7) 0 [] nilSlice
      {| arr := repeat Byte.xff 8; lo := 0 |}) _).
    vm_compute. reflexivity.
  - refine (proj2 (C6_streaming_and_buffered_agree
      (DynamicValueOf (DynamicV (ExecutionPayload.SizeSSZ payloadS6)
                         (ExecutionPayload.DefineSSZ payloadS6)))
      (repeat Byte.xff 521) (CallUint64 7) 0 [] nilSlice
      {| arr := repeat Byte.xff 8; lo := 0 |}) _).
    unfold fits. vm_compute. lia.
Defined.

(** ** The encoder: the dynamic offset *)

Lemma wrap32_small (o : Z) : 0 <= o < 2 ^ 32 -> wrap32 o = o.
Proof. intros H. unfold wrap32. apply Z.mod_small. exact H. Qed.

Lemma wrap32_range (o : Z) : 0 <= wrap32 o < 2 ^ 32.
Proof. unfold wrap32. apply Z.mod_pos_bound. reflexivity. Qed.

Lemma wrap32_add_r (a b : Z) : wrap32 (a + wrap32 b) = wrap32 (a + b).
Proof. unfold wrap32. apply Zplus_mod_idemp_r. Qed.

Lemma wrap32_add_l (a b : Z) : wrap32 (wrap32 a + b) = wrap32 (a + b).
Proof. unfold wrap32. apply Zplus_mod_idemp_l. Qed.

Lemma wrap32_mul_l (a b : Z) : wrap32 (wrap32 a * b) = wrap32 (a * b).
Proof. unfold wrap32. apply Zmult_mod_idemp_l. Qed.

Lemma fold_wrap32 {A : Type} (g : A -> Z) (xs : list A) (o : Z) :
  0 <= o < 2 ^ 32 ->
  fold_left (fun o x => wrap32 (o + wrap32 (g x))) xs o = wrap32 (o + sumZ (map g xs)).
Proof.
  revert o. induction xs as [|x xs IH]; intros o Ho; simpl.
  - rewrite Z.add_0_r, wrap32_small by exact Ho. reflexivity.
  - rewrite IH by apply wrap32_range.
    rewrite wrap32_add_l.
    replace (o + wrap32 (g x) + sumZ (map g xs))
      with (o + sumZ (map g xs) + wrap32 (g x)) by lia.
    rewrite wrap32_add_r. f_equal. lia.
Qed.

Lemma sumZ_uniform {A : Type} (g : A -> Z) (xs : list A) (k : Z) :
  Forall (fun x => g x = k) xs -> sumZ (map g xs) = len xs * k.
Proof.
  induction 1 as [|x xs Hx _ IH].
  - reflexivity.
  - change (sumZ (map g (x :: xs))) with (g x + sumZ (map g xs)).
    rewrite Hx, IH. unfold len. simpl length. rewrite Nat2Z.inj_succ. ring.
Qed.

Lemma len_concat (blobs : list (list byte)) : len (concat blobs) = sumZ (map len blobs).
Proof.
  induction blobs as [|blob blobs IH]; simpl; [reflexivity|].
  rewrite len_app, IH. reflexivity.
Qed.

Lemma len_offsetTable (o : Z) (blobs : list (list byte)) :
  len (offsetTable o blobs) = 4 * len blobs.
Proof.
  revert o. induction blobs as [|blob blobs IH]; intros o; cbn [offsetTable]; [reflexivity|].
  rewrite len_app, IH. unfold len, PutUint32. rewrite length_le_split. simpl length. lia.
Qed.

(** The offset that an offset-phase call leaves is the offset it found
    plus the content length of its field. *)
Lemma leafOffset_contentLength (c : Call) (d o : Z) :
  contentLength c = Some d -> uniform c -> 0 <= o < 2 ^ 32 ->
  leafOffset c o = wrap32 (o + d).
Proof.
  destruct c; cbn [contentLength leafOffset uniform]; try discriminate;
    intros E U Ho; injection E as <-.
  - apply wrap32_add_r.
  - reflexivity.
  - destruct (Z.gtb_spec (len ns) 0).
    + apply wrap32_add_r.
    + assert (len ns = 0) by (pose proof (len_nonneg ns); lia).
      replace (len ns * 8) with 0 by lia. rewrite Z.add_0_r, wrap32_small by exact Ho.
      reflexivity.
  - rewrite (sumZ_uniform len blobs (len (hd [] blobs)) U).
    destruct (Z.gtb_spec (len blobs) 0).
    + apply wrap32_add_r.
    + assert (len blobs = 0) by (pose proof (len_nonneg blobs); lia).
      replace (len blobs * len (hd [] blobs)) with 0 by lia.
      rewrite Z.add_0_r, wrap32_small by exact Ho. reflexivity.
  - apply (fold_wrap32 (fun blob : list byte => 4 + len blob)). exact Ho.
  - destruct objects as [|obj0 objects].
    + simpl. rewrite Z.add_0_r, wrap32_small by exact Ho. reflexivity.
    + rewrite (sumZ_uniform staticSize (obj0 :: objects) (staticSize obj0) U).
      rewrite wrap32_add_r. unfold wrap32 at 1 3.
      rewrite <- Zplus_mod_idemp_r. fold (wrap32 (len (obj0 :: objects))).
      fold (wrap32 (wrap32 (len (obj0 :: objects)) * staticSize obj0)).
      rewrite wrap32_mul_l. unfold wrap32. rewrite Zplus_mod_idemp_r. reflexivity.
  - apply (fold_wrap32 (fun obj : DynamicValue => 4 + dynamicSize obj false)). exact Ho.
Qed.

(** The content-phase call of a dynamic field on bytes writes as many
    bytes as the content length of the field. *)
Lemma contentCall_length (c c' : Call) (o : Z) :
  contentCall c = Some c' -> contentLength c = Some (len (callBytes c' o)).
Proof.
  intros E'.
  assert (L : walksObjects c' = false)
    by (destruct c; simpl in E'; try discriminate; injection E' as <-; reflexivity).
  destruct (simAt_out _ _ _ _ _ (simAt_leaf c' o L)) as [Eb _].
  unfold callBytes. rewrite Eb. clear Eb L.
  destruct c; unfold contentCall in E'; try discriminate;
    injection E' as <-; unfold contentLength, leafBytes; f_equal; symmetry.
  - induction ns as [|n ns IH]; cbn [map concat]; [reflexivity|].
    rewrite len_app, IH. unfold len, PutUint64. rewrite length_le_split.
    simpl length. lia.
  - apply len_concat.
  - rewrite len_app, len_offsetTable, len_concat.
    induction blobs as [|blob blobs IH]; [reflexivity|].
    change (sumZ (map len (blob :: blobs))) with (len blob + sumZ (map len blobs)).
    change (sumZ (map (fun blob => 4 + len blob) (blob :: blobs)))
      with (4 + len blob + sumZ (map (fun blob => 4 + len blob) blobs)).
    rewrite <- IH. unfold len. simpl length. rewrite Nat2Z.inj_succ. ring.
Qed.

Section OffsetPhase.
Context {W : Type} {writer : Writer W}.

Lemma setOffset_same (enc : Encoder W) : setOffset enc (offset enc) = enc.
Proof. destruct enc. reflexivity. Qed.

Lemma fold_addOffset_setOffset {A : Type} (g : A -> Z) (xs : list A) (enc : Encoder W) :
  fold_left (fun enc x => addOffset enc (g x)) xs enc
  = setOffset enc (fold_left (fun o x => wrap32 (o + g x)) xs (offset enc)).
Proof.
  revert enc. induction xs as [|x xs IH]; intros enc; simpl.
  - symmetry. apply setOffset_same.
  - rewrite IH. reflexivity.
Qed.

Lemma fold_dynamicObjects (objects : list DynamicValue) (enc : Encoder W) :
  fold_left (fun enc (obj : DynamicObject W) => addOffset enc (wrap32 (4 + SizeSSZd obj false)))
    (map dynamicObject objects) enc
  = setOffset enc
      (fold_left (fun o obj => wrap32 (o + wrap32 (4 + dynamicSize obj false)))
         objects (offset enc)).
Proof.
  revert enc. induction objects as [|obj objects IH]; intros enc.
  - symmetry. apply setOffset_same.
  - cbn [map fold_left]. rewrite IH. unfold addOffset at 1 2.
    rewrite dynamicObject_size. reflexivity.
Qed.

(** An offset-phase call is the shared snippet followed by a move of the
    offset. *)
Lemma exec_offsetPhase (c : Call) (enc : Encoder W) :
  isOffsetPhase c = true ->
  exec c enc
  = (r <- encodeOffset enc ;;
     match r with
     | None => Ok enc
     | Some enc1 => Ok (setOffset enc1 (leafOffset c (offset enc1)))
     end).
Proof.
  destruct c; simpl; try discriminate; intros _.
  - reflexivity.
  - unfold EncodeDynamicObjectOffset, offsetPhase.
    destruct (encodeOffset enc) as [[enc1|]|]; simpl; try reflexivity.
    unfold addOffset. rewrite dynamicObject_size. reflexivity.
  - unfold EncodeSliceOfUint64sOffset, offsetPhase.
    destruct (encodeOffset enc) as [[enc1|]|]; simpl; try reflexivity.
    destruct (len ns >? 0); [reflexivity|]. rewrite setOffset_same. reflexivity.
  - unfold EncodeSliceOfStaticBytesOffset, offsetPhase.
    destruct (encodeOffset enc) as [[enc1|]|]; simpl; try reflexivity.
    destruct (len blobs >? 0); [reflexivity|]. rewrite setOffset_same. reflexivity.
  - unfold EncodeSliceOfDynamicBytesOffset, offsetPhase.
    destruct (encodeOffset enc) as [[enc1|]|]; simpl; try reflexivity.
    f_equal. apply (fold_addOffset_setOffset (fun blob : list byte => wrap32 (4 + len blob))).
  - unfold EncodeSliceOfStaticObjectsOffset, offsetPhase.
    destruct (encodeOffset enc) as [[enc1|]|]; simpl; try reflexivity.
    destruct objects as [|obj0 objects]; simpl.
    + rewrite setOffset_same. reflexivity.
    + unfold addOffset, len. simpl length. rewrite staticObject_size, length_map. reflexivity.
  - unfold EncodeSliceOfDynamicObjectsOffset, offsetPhase.
    destruct (encodeOffset enc) as [[enc1|]|]; cbn [bind]; try reflexivity.
    f_equal. apply fold_dynamicObjects.
Qed.

End OffsetPhase.

Lemma primitive_leaf (p : Call) (o : Z) :
  isPrimitive p = true ->
  walksObjects p = false /\ leafBytes p o = leafBytes p 0 /\ leafOffset p o = o.
Proof. destruct p; simpl; try discriminate; intros _; auto. Qed.

Lemma execAll_primitives (prims : list Call) (w : list byte) (b : Slice) (o : Z) :
  Forall (fun p => isPrimitive p = true) prims ->
  execAll prims (streaming w b o)
  = Ok (streaming (w ++ concat (map (fun p => leafBytes p 0) prims)) b o).
Proof.
  intros H. revert w. induction H as [|p prims Hp _ IH]; intros w.
  - simpl. rewrite app_nil_r. reflexivity.
  - rewrite execAll_cons.
    destruct (primitive_leaf p o Hp) as (L & Eb & Eo).
    destruct (simAt_leaf p o L) as [S _]. rewrite S. simpl bind.
    rewrite Eo, IH, Eb. cbn [map concat]. rewrite app_assoc. reflexivity.
Qed.

(** The first offset placeholder of a dynamic container holds the size of
    its fixed region, whatever the offset was before the container. *)
Lemma first_offset_is_fixed_size (size : bool -> Z) (prims : list Call) (c : Call)
    (rest : list Call) (o : Z) :
  Forall (fun p => isPrimitive p = true) prims -> isOffsetPhase c = true ->
  exists tail,
    callBytes (CallDynamicObjectContent (DynamicV size (prims ++ c :: rest))) o
    = concat (map (fun p => leafBytes p 0) prims) ++ PutUint32 (size true) ++ tail.
Proof.
  intros Hp Hc.
  assert (L : walksObjects c = false) by (destruct c; simpl in Hc; try discriminate; reflexivity).
  assert (Eb : leafBytes c (size true) = PutUint32 (size true))
    by (destruct c; simpl in Hc; try discriminate; reflexivity).
  destruct (simAt_leaf c (size true) L) as [S _].
  assert (R : sim (execAll rest) (execAll rest)).
  { apply sim_execAll. apply Forall_forall. intros x _. apply sim_exec. }
  destruct (R (leafOffset c (size true))) as (tail & o' & St & _).
  exists tail.
  change (callBytes (CallDynamicObjectContent (DynamicV size (prims ++ c :: rest))) o)
    with (match execAll (prims ++ c :: rest) (streaming [] nilSlice (size true)) with
          | Ok enc0 => sinkOf enc0 []
          | Panic _ => []
          end).
  rewrite execAll_app, execAll_primitives by exact Hp. simpl bind.
  rewrite execAll_cons, S. simpl bind. rewrite St.
  unfold sinkOf, streaming. simpl outWriter.
  rewrite Eb, <- !app_assoc. reflexivity.
Qed.

Lemma contentLength_offsetPhase (c : Call) (d : Z) :
  contentLength c = Some d -> isOffsetPhase c = true.
Proof. destruct c; simpl; try discriminate; reflexivity. Qed.

(** S3 of the specification: the two offsets are 8, the size of the fixed
    region, and 8 + 3. *)
Example S3_bytes :
  EncodeToStream [] (objectOf (DynamicValueOf blobsS3))
  = Ok (PutUint32 8 ++ PutUint32 11
        ++ [Byte.x61; Byte.x62; Byte.x63] ++ [Byte.x64; Byte.x65], None).
Proof. vm_compute. reflexivity. Qed.

(** * Further properties of the sources *)

(** ** The partial reader *)

(** X1.  Nested accessors compose: positioning at [a] and then at [b]
    inside it is positioning at [a + b], also after [AddWithNext], whose
    next-offset slot the inner position forgets; the container end is
    carried along. *)
Theorem ReadPos_Add_composes (p : ReadPos) (a b g : Z) :
  ReadPos.Add (ReadPos.Add p a) b = ReadPos.Add p (a + b) /\
  ReadPos.Add (ReadPos.AddWithNext p a g) b = ReadPos.Add p (a + b) /\
  ContainerEnd (ReadPos.AddWithNext p a g) = ContainerEnd p /\
  Offset (ReadPos.AddWithNext p a g) = Offset (ReadPos.Add p a).
Proof.
  assert (E : wrap32 (wrap32 (Offset p + a) + b) = wrap32 (Offset p + (a + b)))
    by (rewrite wrap32_add_l; f_equal; lia).
  unfold ReadPos.Add, ReadPos.AddWithNext. simpl.
  repeat split; rewrite E; reflexivity.
Qed.

(** X2.  [offset] reads a 4-byte slot exactly when the slot lies inside the
    capacity of the payload slice and its end does not wrap around 32
    bits; what it returns is the uint32 stored there in the backing array
    (in the payload itself when the slot lies inside its length).  In
    every other case it panics with Go's slice-bounds message. *)
Theorem offset_reads_slot_inside_capacity (src : ReaderSource) (o : Z) :
  0 <= o < 2 ^ 32 ->
  (o + 4 <= cap src /\ o + 4 < 2 ^ 32 ->
   exists v, ReaderSource.offset src o = Ok v /\ 0 <= v < 2 ^ 32 /\
             v = le_combine (firstn 4 (skipn (Z.to_nat o) (backing src))) /\
             (o + 4 <= len (payload src) ->
              v = le_combine (firstn 4 (skipn (Z.to_nat o) (payload src))))) /\
  (~ (o + 4 <= cap src /\ o + 4 < 2 ^ 32) ->
   ReaderSource.offset src o = Panic "slice bounds out of range").
Proof.
  intros Ho. split.
  - intros [Hlen Hw]. unfold ReaderSource.offset.
    assert (E : wrap32 (o + 4) = o + 4) by (apply wrap32_small; lia).
    rewrite E.
    assert (D : subslice (backing src) o (o + 4)
                = Ok (firstn 4 (skipn (Z.to_nat o) (backing src)))).
    { rewrite subslice_ok by (fold (cap src); lia).
      replace (Z.to_nat (o + 4 - o)) with 4%nat by lia. reflexivity. }
    rewrite D. cbn [bind].
    eexists. split; [reflexivity|]. split; [apply Uint32_range|].
    unfold Uint32. rewrite firstn_firstn. split; [reflexivity|].
    intros Hin. rewrite backing_inside in D by exact Hin.
    rewrite subslice_ok in D by lia.
    replace (Z.to_nat (o + 4 - o)) with 4%nat in D by lia.
    assert (X : firstn 4 (skipn (Z.to_nat o) (payload src))
                = firstn 4 (skipn (Z.to_nat o) (backing src))) by congruence.
    rewrite X. reflexivity.
  - intros H. unfold ReaderSource.offset.
    rewrite subslice_outside; [reflexivity|].
    fold (cap src).
    intros (H0 & H1 & H2). apply H.
    destruct (Z.lt_ge_cases (o + 4) (2 ^ 32)) as [Hw|Hw].
    + rewrite wrap32_small in H2 by lia. lia.
    + exfalso. unfold wrap32 in H1.
      assert (E : (o + 4) mod 2 ^ 32 = o + 4 - 2 ^ 32).
      { symmetry. apply Z.mod_unique with (q := 1); lia. }
      lia.
Qed.

Lemma offset_reads_slot_inside_capacity_witness :
  let roomy := {| payload := PutUint32 4; spare := PutUint32 9 |} in
  (exists v, ReaderSource.offset roomy 4 = Ok v /\ 0 <= v < 2 ^ 32 /\
             v = le_combine (firstn 4 (skipn (Z.to_nat 4) (backing roomy))) /\
             (4 + 4 <= len (payload roomy) ->
              v = le_combine (firstn 4 (skipn (Z.to_nat 4) (payload roomy))))) /\
  ReaderSource.offset oneBlob 6 = Panic "slice bounds out of range".
Proof.
  intros roomy. split.
  - refine (proj1 (offset_reads_slot_inside_capacity roomy 4 _) _).
    + lia.
    + vm_compute. split; [discriminate|reflexivity].
  - refine (proj2 (offset_reads_slot_inside_capacity oneBlob 6 _) _).
    + lia.
    + vm_compute. intros [H _]. apply H. reflexivity.
Defined.

(** X3.  [ByteArrayReader.Read] with a destination of [Size] bytes and the
    array inside the payload overwrites the whole destination with
    [payload[Offset : Offset+Size]]; nothing of the old content is left. *)
Theorem ByteArrayReader_Read_fills_destination
    (r : ByteArrayReader) (src : ReaderSource) (v : list byte) :
  len v = Size r -> 0 <= Offset (ba_pos r) ->
  Offset (ba_pos r) + Size r <= len (payload src) ->
  ByteArrayReader.Read r src v
  = Ok (firstn (length v) (skipn (Z.to_nat (Offset (ba_pos r))) (payload src))).
Proof.
  intros Hv H0 Hlen. unfold ByteArrayReader.Read.
  rewrite backing_inside by exact Hlen. unfold len in *.
  destruct (Z.eqb_spec (Z.of_nat (length v)) (Size r)); [|contradiction].
  simpl negb. cbv iota.
  rewrite subslice_ok by (unfold len; lia). simpl bind.
  replace (Z.to_nat (Offset (ba_pos r) + Size r - Offset (ba_pos r))) with (length v) by lia.
  rewrite copy_truncated by (rewrite length_firstn, length_skipn; lia).
  rewrite firstn_firstn, Nat.min_id. reflexivity.
Qed.

Lemma ByteArrayReader_Read_fills_destination_witness :
  ByteArrayReader.Read {| ba_pos := zeroPos; Size := 4 |} oneBlob (repeat Byte.xff 4)
  = Ok (firstn 4 (skipn (Z.to_nat 0) (payload oneBlob))).
Proof.
  refine (ByteArrayReader_Read_fills_destination
            {| ba_pos := zeroPos; Size := 4 |} oneBlob (repeat Byte.xff 4) _ _ _).
  - reflexivity.
  - simpl. lia.
  - vm_compute. discriminate.
Defined.

(** X4.  [DynamicBytesReader.Read] with a destination at least as long as
    the content puts the content at the front of the destination and
    leaves the rest of it as it was. *)
Theorem DynamicBytesReader_Read_keeps_tail
    (r : DynamicBytesReader) (src : ReaderSource) (v : list byte) (start end_ : Z) :
  ReaderSource.offset src (Offset (db_pos r)) = Ok start ->
  ReaderSource.objectEnd src (db_pos r) = Ok end_ ->
  start <= end_ -> end_ <= len (payload src) ->
  end_ - start <= len v ->
  DynamicBytesReader.Read r src v
  = Ok (firstn (Z.to_nat (end_ - start)) (skipn (Z.to_nat start) (payload src))
        ++ skipn (Z.to_nat (end_ - start)) v).
Proof.
  intros Hs He Hle Hlen Hv.
  pose proof (offset_nonneg _ _ _ Hs) as H0.
  unfold DynamicBytesReader.Read. rewrite Hs, He. simpl bind.
  rewrite backing_inside by exact Hlen.
  pose proof (subslice_ok (payload src) start end_ H0 Hle Hlen) as Hsub.
  rewrite Hsub. simpl bind. f_equal.
  pose proof (subslice_length _ _ _ _ Hsub) as Hl. unfold len in *.
  unfold copy. rewrite firstn_all2 by lia. f_equal. f_equal. lia.
Qed.

Lemma DynamicBytesReader_Read_keeps_tail_witness :
  DynamicBytesReader.Read oneBlobReader oneBlob (repeat Byte.xff 7)
  = Ok (firstn (Z.to_nat (9 - 4)) (skipn (Z.to_nat 4) (payload oneBlob))
        ++ skipn (Z.to_nat (9 - 4)) (repeat Byte.xff 7)).
Proof.
  refine (DynamicBytesReader_Read_keeps_tail oneBlobReader oneBlob (repeat Byte.xff 7) 4 9
            _ _ _ _ _).
  - vm_compute. reflexivity.
  - vm_compute. reflexivity.
  - lia.
  - vm_compute. discriminate.
  - vm_compute. discriminate.
Defined.

(** X5.  For a prototype that reports a non-zero item size, [Item] and
    [Len] agree on the bounds: [Item(n)] returns exactly when the list is
    not empty and [n] is below [Len()], and panics with "out of bounds"
    otherwise.  There is no lower bound: a negative index passes the
    check. *)
Theorem Item_returns_exactly_below_Len {T : Type} {R : Reader T}
    (r : ListReader T) (src : ReaderSource) (start end_ size n : Z) :
  ReaderSource.offset src (Offset (lr_pos r)) = Ok start ->
  ReaderSource.objectEnd src (lr_pos r) = Ok end_ ->
  ListReader.ItemSize r = Ok size -> size <> 0 ->
  let l := wrap32 (end_ - start) / size in
  ListReader.Len r src = Ok l /\
  (start <> end_ /\ n < l -> exists it, ListReader.Item r src n = Ok it) /\
  (~ (start <> end_ /\ n < l) -> ListReader.Item r src n = Panic "out of bounds").
Proof.
  intros Hs He Hi Hz l. split; [exact (Len_divides_extent r src _ _ _ Hs He Hi Hz)|].
  unfold ListReader.ItemSize in Hi.
  split.
  - intros [Hne Hn]. destruct (sizer (Prototype r)) as [sz|sz|] eqn:Hk; inversion Hi; subst size.
    + eexists. exact (Item_static_position r src _ _ _ _ Hs He Hk Hz Hne Hn).
    + eexists. exact (Item_dynamic_position r src _ _ _ _ Hs He Hk Hz Hne Hn).
  - intros Hnot. unfold ListReader.Item. rewrite Hs, He. simpl bind.
    destruct (Z.eqb_spec start end_) as [|Hne]; [reflexivity|].
    assert (Hn : l <= n) by (destruct (Z.lt_ge_cases n l); [exfalso; auto|assumption]).
    destruct (sizer (Prototype r)) as [sz|sz|] eqn:Hk; inversion Hi; subst size;
      unfold div32;
      match goal with |- context [?s =? 0] => destruct (Z.eqb_spec s 0) as [|_] end;
      try contradiction; simpl bind;
      fold l; destruct (Z.geb_spec n l); try lia; reflexivity.
Qed.

Lemma Item_returns_exactly_below_Len_witness :
  ListReader.Len twoExitsReader twoExits = Ok (wrap32 (36 - 4) / 16) /\
  (exists it, ListReader.Item twoExitsReader twoExits (-1) = Ok it) /\
  ListReader.Item twoExitsReader twoExits 2 = Panic "out of bounds".
Proof.
  pose proof (Item_returns_exactly_below_Len twoExitsReader twoExits 4 36 16) as H.
  split; [|split].
  - refine (proj1 (H 0 _ _ _ _)); try reflexivity; discriminate.
  - refine (proj1 (proj2 (H (-1) _ _ _ _)) _); try reflexivity; try discriminate.
    split; [discriminate|reflexivity].
  - refine (proj2 (proj2 (H 2 _ _ _ _)) _); try reflexivity; try discriminate.
    intros [_ Hlt]. vm_compute in Hlt. discriminate.
Defined.

(** X6.  A prototype without a [SizeSSZ] method (a [ListReader] nested
    in a [ListReader], a [Uint64Reader], ...) gets no bounds check in
    [Item]: on a non-empty extent every index is accepted and positioned at
    [start + n]; [Len] on the same list panics with "invalid item type",
    once both offsets have been read. *)
Theorem Item_unsized_prototype_unchecked {T : Type} {R : Reader T}
    (r : ListReader T) (src : ReaderSource) (start end_ : Z) :
  ReaderSource.offset src (Offset (lr_pos r)) = Ok start ->
  ReaderSource.objectEnd src (lr_pos r) = Ok end_ ->
  sizer (Prototype r) = NoSizeSSZ -> start <> end_ ->
  (forall n, ListReader.Item r src n
             = Ok (InitReaderSSZ (Prototype r)
                     {| Offset := wrap32 (start + wrap32 n);
                        NextOffset := 0; ContainerEnd := end_ |})) /\
  ListReader.Len r src = Panic "invalid item type".
Proof.
  intros Hs He Hk Hne. split.
  - intros n. unfold ListReader.Item. rewrite Hs, He, Hk. simpl bind.
    destruct (Z.eqb_spec start end_); [contradiction|reflexivity].
  - unfold ListReader.Len, ListReader.ItemSize. rewrite Hs, He, Hk. reflexivity.
Qed.

Lemma Item_unsized_prototype_unchecked_witness :
  let r := {| Prototype := {| u64_pos := zeroPos |};
              lr_pos := ReadPos.Add (rootPos (payload twoExits)) 0 |} in
  (forall n, ListReader.Item r twoExits n
             = Ok (InitReaderSSZ (Prototype r)
                     {| Offset := wrap32 (4 + wrap32 n);
                        NextOffset := 0; ContainerEnd := 36 |})) /\
  ListReader.Len r twoExits = Panic "invalid item type".
Proof.
  intros r.
  refine (Item_unsized_prototype_unchecked r twoExits 4 36 _ _ _ _).
  - reflexivity.
  - reflexivity.
  - reflexivity.
  - discriminate.
Defined.

(** ** Encoding and partial reading together *)

Lemma subslice_middle (pre x post : list byte) :
  subslice (pre ++ x ++ post) (len pre) (len pre + len x) = Ok x.
Proof.
  pose proof (len_nonneg pre). pose proof (len_nonneg x). pose proof (len_nonneg post).
  rewrite subslice_ok by (rewrite ?len_app; lia).
  unfold len. f_equal.
  rewrite Nat2Z.id, skipn_app, skipn_all, Nat.sub_diag. simpl.
  replace (Z.to_nat (Z.of_nat (length pre) + Z.of_nat (length x) - Z.of_nat (length pre)))
    with (length x) by lia.
  rewrite firstn_app, firstn_all, Nat.sub_diag. simpl. apply app_nil_r.
Qed.

Lemma Uint64_PutUint64 (n : Z) : 0 <= n < 2 ^ 64 -> Uint64 (PutUint64 n) = n.
Proof.
  intros H. unfold Uint64, PutUint64.
  rewrite firstn_all2 by (rewrite length_le_split; lia).
  rewrite le_combine_split. apply Z.mod_small. exact H.
Qed.

Lemma Uint32_PutUint32 (n : Z) : 0 <= n < 2 ^ 32 -> Uint32 (PutUint32 n) = n.
Proof.
  intros H. unfold Uint32, PutUint32.
  rewrite firstn_all2 by (rewrite length_le_split; lia).
  rewrite le_combine_split. apply Z.mod_small. exact H.
Qed.

Lemma len_PutUint64 (n : Z) : len (PutUint64 n) = 8.
Proof. unfold len, PutUint64. rewrite length_le_split. reflexivity. Qed.

Lemma len_PutUint32 (n : Z) : len (PutUint32 n) = 4.
Proof. unfold len, PutUint32. rewrite length_le_split. reflexivity. Qed.

(** On an encoding codec, [VoluntaryExit.DefineSSZ] is the sequence of its
    two [EncodeUint64] calls. *)
Lemma VoluntaryExit_define_calls {W : Type} {writer : Writer W}
    (v : VoluntaryExit) (e : Encoder W) :
  onEncoder (VoluntaryExit.DefineSSZ v) e
  = execAll (staticCalls (valueOfVoluntaryExit v)) e.
Proof.
  unfold onEncoder, VoluntaryExit.DefineSSZ, DefineUint64. simpl staticCalls.
  rewrite !execAll_cons. cbn [exec enc bind].
  destruct (EncodeUint64 (Epoch v) e) as [e1|m]; [|reflexivity]. cbn [bind enc].
  rewrite execAll_cons. cbn [exec].
  destruct (EncodeUint64 (ValidatorIndex v) e1) as [e2|m]; reflexivity.
Qed.

Lemma VoluntaryExit_bytes (v : VoluntaryExit) (o : Z) :
  outOf (onEncoder (VoluntaryExit.DefineSSZ v)) o
  = PutUint64 (Epoch v) ++ PutUint64 (ValidatorIndex v).
Proof.
  unfold outOf. rewrite VoluntaryExit_define_calls.
  simpl staticCalls. rewrite execAll_primitives by (repeat constructor).
  reflexivity.
Qed.

Lemma Uint64Reader_Read_at (src : ReaderSource) (r : Uint64Reader)
    (pre post : list byte) (n : Z) :
  payload src = pre ++ PutUint64 n ++ post ->
  Offset (u64_pos r) = len pre -> 0 <= n < 2 ^ 64 ->
  Uint64Reader.Read r src = Ok n.
Proof.
  intros Hp Ho Hn. unfold Uint64Reader.Read, backing. rewrite Hp, Ho.
  rewrite <- !app_assoc.
  rewrite <- (len_PutUint64 n) at 1. rewrite subslice_middle. simpl bind.
  rewrite Uint64_PutUint64 by exact Hn. reflexivity.
Qed.

(** X7.  Round trip of [VoluntaryExit] through the encoder and the partial
    reader: wherever the encoding of a value lies in a payload, a
    [VoluntaryExitReader] positioned on it reads back both fields. *)
Theorem VoluntaryExit_partial_read_round_trip
    (v : VoluntaryExit) (pre post sp : list byte) (pos : ReadPos) (o : Z) :
  0 <= Epoch v < 2 ^ 64 -> 0 <= ValidatorIndex v < 2 ^ 64 ->
  Offset pos = len pre -> len pre + 8 < 2 ^ 32 ->
  let src := {| payload := pre ++ outOf (onEncoder (VoluntaryExit.DefineSSZ v)) o ++ post;
                spare := sp |} in
  let r := InitReaderSSZ {| ver_pos := zeroPos |} pos in
  Uint64Reader.Read (VoluntaryExitReader.Epoch r) src = Ok (Epoch v) /\
  Uint64Reader.Read (VoluntaryExitReader.ValidatorIndex r) src = Ok (ValidatorIndex v).
Proof.
  intros He Hv Ho Hlen src r. pose proof (len_nonneg pre) as H0.
  subst src. rewrite VoluntaryExit_bytes. split.
  - apply Uint64Reader_Read_at with (pre := pre) (post := PutUint64 (ValidatorIndex v) ++ post).
    + cbn [payload]. rewrite <- !app_assoc. reflexivity.
    + cbn. rewrite Ho. rewrite wrap32_small by lia. lia.
    + exact He.
  - apply Uint64Reader_Read_at with (pre := pre ++ PutUint64 (Epoch v)) (post := post).
    + cbn [payload]. rewrite <- !app_assoc. reflexivity.
    + cbn. rewrite Ho, len_app, len_PutUint64. apply wrap32_small. lia.
    + exact Hv.
Qed.

Lemma VoluntaryExit_partial_read_round_trip_witness :
  let src := {| payload := [Byte.xff] ++ outOf (onEncoder (VoluntaryExit.DefineSSZ exit7)) 0
                           ++ [Byte.xff];
                spare := [] |} in
  let r := InitReaderSSZ {| ver_pos := zeroPos |}
             {| Offset := 1; NextOffset := 0; ContainerEnd := 18 |} in
  Uint64Reader.Read (VoluntaryExitReader.Epoch r) src = Ok (Epoch exit7) /\
  Uint64Reader.Read (VoluntaryExitReader.ValidatorIndex r) src = Ok (ValidatorIndex exit7).
Proof.
  refine (VoluntaryExit_partial_read_round_trip exit7 [Byte.xff] [Byte.xff] []
            {| Offset := 1; NextOffset := 0; ContainerEnd := 18 |} 0 _ _ _ _).
  - vm_compute. split; [discriminate|reflexivity].
  - vm_compute. split; [discriminate|reflexivity].
  - reflexivity.
  - vm_compute. reflexivity.
Defined.

(** ** How calls compose *)

Lemma simAt_execAll (cs : list Call) (o : Z) :
  simAt (execAll cs) (execAll cs) o
    (loopBytes callBytes callOffset cs o) (loopOffset callOffset cs o).
Proof.
  revert o. induction cs as [|c cs IH]; intros o.
  - apply simAt_ret.
  - cbn [loopBytes loopOffset].
    apply (simAt_ext (fun enc => enc <- exec c enc ;; execAll cs enc)
             (fun enc => enc <- exec c enc ;; execAll cs enc)).
    + intros enc. apply execAll_cons.
    + intros enc. apply execAll_cons.
    + apply simAt_bind with (o1 := callOffset c o); [apply exec_callBytes|apply IH].
Qed.

(** X8.  The calls of a schema compose: a [DefineSSZ] method writes the
    concatenation of what each of its calls writes when made at the offset
    that the calls before it left, and it leaves the offset of the last
    one; in buffered mode this holds whenever the buffer has room. *)
Theorem schema_writes_its_calls_in_order (cs : list Call) (o : Z) :
  (forall w b, execAll cs (streaming w b o)
     = Ok (streaming (w ++ loopBytes callBytes callOffset cs o) b
             (loopOffset callOffset cs o))) /\
  (forall s, fits s (loopBytes callBytes callOffset cs o) ->
     execAll cs (buffered s o)
     = Ok (buffered (advance s (loopBytes callBytes callOffset cs o))
             (loopOffset callOffset cs o))).
Proof. exact (simAt_execAll cs o). Qed.

Lemma callBytes_leaf (c : Call) (o : Z) :
  walksObjects c = false -> callBytes c o = leafBytes c o /\ callOffset c o = leafOffset c o.
Proof.
  intros H. apply (simAt_out (exec c) (exec c)). apply simAt_leaf. exact H.
Qed.

Lemma execAll_out (cs : list Call) (o : Z) :
  outOf (execAll cs) o = loopBytes callBytes callOffset cs o /\
  offOf (execAll cs) o = loopOffset callOffset cs o.
Proof. apply (simAt_out (execAll cs) (execAll cs)). apply simAt_execAll. Qed.

Lemma static_object_layout (obj : StaticValue) (o : Z) :
  callBytes (CallStaticObject obj) o = loopBytes callBytes callOffset (staticCalls obj) o /\
  callOffset (CallStaticObject obj) o = loopOffset callOffset (staticCalls obj) o.
Proof.
  apply (simAt_out (exec (CallStaticObject obj)) (exec (CallStaticObject obj))).
  destruct (simAt_execAll (staticCalls obj) o) as [S B].
  simpl exec. unfold EncodeStaticObject. rewrite staticObject_define.
  split; intros; [apply S|apply B; assumption].
Qed.

Lemma dynamic_object_layout (obj : DynamicValue) (o : Z) :
  callBytes (CallDynamicObjectContent obj) o
  = loopBytes callBytes callOffset (dynamicCalls obj) (dynamicSize obj true) /\
  callOffset (CallDynamicObjectContent obj) o
  = loopOffset callOffset (dynamicCalls obj) (dynamicSize obj true).
Proof.
  apply (simAt_out (exec (CallDynamicObjectContent obj)) (exec (CallDynamicObjectContent obj))).
  destruct (simAt_execAll (dynamicCalls obj) (dynamicSize obj true)) as [S B].
  simpl exec. unfold EncodeDynamicObjectContent.
  rewrite dynamicObject_define, dynamicObject_size.
  split; intros; [apply S|apply B; assumption].
Qed.

(** X9.  Objects are laid out by their fields.  A static object writes its
    calls at the offset it is met with.  The content of a dynamic object
    restarts the offset at the size of its fixed part, whatever the offset
    was, and does not put the old offset back afterwards. *)
Theorem objects_are_laid_out_by_fields (o : Z) :
  (forall obj,
     callBytes (CallStaticObject obj) o = loopBytes callBytes callOffset (staticCalls obj) o /\
     callOffset (CallStaticObject obj) o = loopOffset callOffset (staticCalls obj) o) /\
  (forall obj,
     callBytes (CallDynamicObjectContent obj) o
     = loopBytes callBytes callOffset (dynamicCalls obj) (dynamicSize obj true) /\
     callOffset (CallDynamicObjectContent obj) o
     = loopOffset callOffset (dynamicCalls obj) (dynamicSize obj true)).
Proof.
  split; intros obj; [apply static_object_layout|apply dynamic_object_layout].
Qed.

(** ** The types of the sources *)

Lemma SignedVoluntaryExit_bytes (v : SignedVoluntaryExit) (o : Z) :
  outOf (execAll (SignedVoluntaryExit.DefineSSZ v)) o
  = (PutUint64 (Epoch (Exit v)) ++ PutUint64 (ValidatorIndex (Exit v))) ++ Signature v.
Proof.
  rewrite (proj1 (execAll_out _ o)). unfold SignedVoluntaryExit.DefineSSZ.
  cbn [loopBytes loopOffset].
  rewrite (proj1 (static_object_layout _ o)).
  cbn [staticCalls valueOfVoluntaryExit loopBytes loopOffset].
  repeat match goal with
         | |- context [callBytes ?c ?o'] =>
             rewrite (proj1 (callBytes_leaf c o' eq_refl))
         end.
  cbn [leafBytes]. rewrite !app_nil_r. reflexivity.
Qed.

Lemma ByteArrayReader_Read_at (src : ReaderSource) (r : ByteArrayReader)
    (pre x post dst : list byte) :
  payload src = pre ++ x ++ post ->
  Offset (ba_pos r) = len pre -> Size r = len x -> len dst = len x ->
  ByteArrayReader.Read r src dst = Ok x.
Proof.
  intros Hp Ho Hs Hd. unfold ByteArrayReader.Read, backing. rewrite Hp, Ho, Hs.
  fold (len dst). rewrite Hd, Z.eqb_refl. cbn [negb].
  rewrite <- !app_assoc. rewrite subslice_middle. cbn [bind].
  rewrite copy_truncated by (unfold len in *; lia).
  f_equal. apply firstn_all2. unfold len in *. lia.
Qed.

(** X10.  [SignedVoluntaryExit]: the encoding is the exit's two integers
    followed by the signature, [SizeSSZ] bytes in all, and wherever it
    lies in a payload a [SignedVoluntaryExitReader] positioned on it reads
    back the fields of the nested exit and the signature. *)
Theorem SignedVoluntaryExit_partial_read_round_trip
    (v : SignedVoluntaryExit) (pre post sp : list byte) (pos : ReadPos) (o : Z) :
  0 <= Epoch (Exit v) < 2 ^ 64 -> 0 <= ValidatorIndex (Exit v) < 2 ^ 64 ->
  len (Signature v) = 96 ->
  Offset pos = len pre -> len pre + 16 < 2 ^ 32 ->
  let bytes := outOf (execAll (SignedVoluntaryExit.DefineSSZ v)) o in
  let src := {| payload := pre ++ bytes ++ post; spare := sp |} in
  let r := InitReaderSSZ {| sver_pos := zeroPos |} pos in
  len bytes = SignedVoluntaryExit.SizeSSZ v /\
  Uint64Reader.Read (VoluntaryExitReader.Epoch (SignedVoluntaryExitReader.Exit r)) src
  = Ok (Epoch (Exit v)) /\
  Uint64Reader.Read (VoluntaryExitReader.ValidatorIndex (SignedVoluntaryExitReader.Exit r)) src
  = Ok (ValidatorIndex (Exit v)) /\
  (forall dst, len dst = 96 ->
     ByteArrayReader.Read (SignedVoluntaryExitReader.Signature r) src dst = Ok (Signature v)).
Proof.
  intros He Hv Hsig Ho Hlen bytes src r. pose proof (len_nonneg pre) as H0.
  subst src bytes. rewrite SignedVoluntaryExit_bytes.
  split; [|split; [|split]].
  - rewrite !len_app, !len_PutUint64, Hsig. reflexivity.
  - apply Uint64Reader_Read_at with (pre := pre)
      (post := PutUint64 (ValidatorIndex (Exit v)) ++ Signature v ++ post).
    + cbn [payload]. rewrite <- !app_assoc. reflexivity.
    + cbn. rewrite Ho. rewrite !wrap32_small by (rewrite ?wrap32_small; lia). lia.
    + exact He.
  - apply Uint64Reader_Read_at with (pre := pre ++ PutUint64 (Epoch (Exit v)))
      (post := Signature v ++ post).
    + cbn [payload]. rewrite <- !app_assoc. reflexivity.
    + cbn. rewrite Ho, len_app, len_PutUint64.
      rewrite !wrap32_small by (rewrite ?wrap32_small; lia). lia.
    + exact Hv.
  - intros dst Hdst.
    apply ByteArrayReader_Read_at
      with (pre := pre ++ PutUint64 (Epoch (Exit v)) ++ PutUint64 (ValidatorIndex (Exit v)))
           (post := post).
    + cbn [payload]. rewrite <- !app_assoc. reflexivity.
    + cbn. rewrite Ho, !len_app, !len_PutUint64. rewrite wrap32_small by lia. lia.
    + cbn. symmetry. exact Hsig.
    + rewrite Hdst, Hsig. reflexivity.
Qed.

Lemma SignedVoluntaryExit_partial_read_round_trip_witness :
  let v := {| Exit := exit7; Signature := repeat Byte.x01 96 |} in
  let bytes := outOf (execAll (SignedVoluntaryExit.DefineSSZ v)) 0 in
  let src := {| payload := [Byte.xff] ++ bytes ++ []; spare := [] |} in
  let r := InitReaderSSZ {| sver_pos := zeroPos |}
             {| Offset := 1; NextOffset := 0; ContainerEnd := 113 |} in
  len bytes = SignedVoluntaryExit.SizeSSZ v /\
  Uint64Reader.Read (VoluntaryExitReader.Epoch (SignedVoluntaryExitReader.Exit r)) src
  = Ok (Epoch (Exit v)) /\
  Uint64Reader.Read (VoluntaryExitReader.ValidatorIndex (SignedVoluntaryExitReader.Exit r)) src
  = Ok (ValidatorIndex (Exit v)) /\
  (forall dst, len dst = 96 ->
     ByteArrayReader.Read (SignedVoluntaryExitReader.Signature r) src dst = Ok (Signature v)).
Proof.
  intros v.
  refine (SignedVoluntaryExit_partial_read_round_trip v [Byte.xff] [] []
            {| Offset := 1; NextOffset := 0; ContainerEnd := 113 |} 0 _ _ _ _ _).
  - vm_compute. split; [discriminate|reflexivity].
  - vm_compute. split; [discriminate|reflexivity].
  - reflexivity.
  - reflexivity.
  - vm_compute. reflexivity.
Defined.

Lemma concat_len_uniform (k : Z) (blobs : list (list byte)) :
  Forall (fun blob => len blob = k) blobs -> len (concat blobs) = len blobs * k.
Proof.
  induction 1 as [|blob blobs Hb _ IH].
  - reflexivity.
  - cbn [concat]. rewrite len_app, IH, Hb. unfold len. cbn [length].
    rewrite Nat2Z.inj_succ. ring.
Qed.

Lemma HistoricalBatch_bytes (h : HistoricalBatch) (o : Z) :
  outOf (execAll (HistoricalBatch.DefineSSZ h)) o
  = concat (BlockRoots h) ++ concat (StateRoots h).
Proof.
  rewrite (proj1 (execAll_out _ o)). unfold HistoricalBatch.DefineSSZ.
  cbn [loopBytes loopOffset].
  repeat match goal with
         | |- context [callBytes ?c ?o'] =>
             rewrite (proj1 (callBytes_leaf c o' eq_refl))
         end.
  cbn [leafBytes]. rewrite !app_nil_r. reflexivity.
Qed.

(** X11.  [HistoricalBatch]: the encoding is the block roots followed by
    the state roots, with nothing between the hashes; for a value of the
    shape of the Go type (two arrays of 8192 hashes) it is [SizeSSZ] bytes
    long and the offset is left as it was. *)
Theorem HistoricalBatch_layout (h : HistoricalBatch) (o : Z) :
  HistoricalBatch.wellShaped h ->
  outOf (execAll (HistoricalBatch.DefineSSZ h)) o
  = concat (BlockRoots h) ++ concat (StateRoots h) /\
  len (outOf (execAll (HistoricalBatch.DefineSSZ h)) o) = HistoricalBatch.SizeSSZ h /\
  offOf (execAll (HistoricalBatch.DefineSSZ h)) o = o.
Proof.
  intros (Hb & Hs & Fb & Fs). split; [apply HistoricalBatch_bytes|]. split.
  - rewrite HistoricalBatch_bytes, len_app.
    rewrite (concat_len_uniform 32 _ Fb), (concat_len_uniform 32 _ Fs), Hb, Hs.
    reflexivity.
  - rewrite (proj2 (execAll_out _ o)). unfold HistoricalBatch.DefineSSZ.
    cbn [loopOffset].
    repeat match goal with
           | |- context [callOffset ?c ?o'] =>
               rewrite (proj2 (callBytes_leaf c o' eq_refl))
           end.
    reflexivity.
Qed.

Lemma HistoricalBatch_layout_witness :
  let h := {| BlockRoots := repeat (repeat Byte.x01 32) (Z.to_nat 8192);
              StateRoots := repeat (repeat Byte.x02 32) (Z.to_nat 8192) |} in
  outOf (execAll (HistoricalBatch.DefineSSZ h)) 0
  = concat (BlockRoots h) ++ concat (StateRoots h) /\
  len (outOf (execAll (HistoricalBatch.DefineSSZ h)) 0) = HistoricalBatch.SizeSSZ h /\
  offOf (execAll (HistoricalBatch.DefineSSZ h)) 0 = 0.
Proof.
  intros h. refine (HistoricalBatch_layout h 0 _).
  unfold HistoricalBatch.wellShaped, h. cbn [BlockRoots StateRoots].
  split; [vm_compute; reflexivity|]. split; [vm_compute; reflexivity|].
  split; apply Forall_forall; intros x Hx; apply repeat_spec in Hx; subst x; reflexivity.
Defined.

Lemma IndexedAttestation_bytes (a : IndexedAttestation) (o : Z) :
  let o1 := leafOffset (CallSliceOfUint64sOffset (AttestationIndices a)) 228 in
  callBytes (CallDynamicObjectContent (IndexedAttestation.value a)) o
  = (PutUint32 228 ++ callBytes (CallStaticObject (Data a)) o1 ++ ia_Signature a)
    ++ concat (map PutUint64 (AttestationIndices a)).
Proof.
  intros o1. rewrite (proj1 (dynamic_object_layout _ o)).
  cbn [dynamicCalls dynamicSize IndexedAttestation.value IndexedAttestation.DefineSSZ
       IndexedAttestation.SizeSSZ negb loopBytes loopOffset].
  rewrite (proj1 (callBytes_leaf (CallSliceOfUint64sOffset (AttestationIndices a)) 228 eq_refl)).
  rewrite (proj2 (callBytes_leaf (CallSliceOfUint64sOffset (AttestationIndices a)) 228 eq_refl)).
  fold o1.
  repeat match goal with
         | |- context [callBytes (CallStaticBytes ?p) ?o'] =>
             rewrite (proj1 (callBytes_leaf (CallStaticBytes p) o' eq_refl))
         | |- context [callBytes (CallSliceOfUint64sContent ?p) ?o'] =>
             rewrite (proj1 (callBytes_leaf (CallSliceOfUint64sContent p) o' eq_refl))
         end.
  cbn [leafBytes]. rewrite !app_nil_r, <- !app_assoc. reflexivity.
Qed.

(** X12.  [IndexedAttestation]: the encoding opens with the offset 228 of
    the attestation indices, then come the data and the signature, then
    the indices as 8-byte integers.  When the data takes its 128 bytes and
    the signature its 96, the indices do begin at byte 228, where the
    offset says. *)
Theorem IndexedAttestation_layout (a : IndexedAttestation) (o : Z) :
  let o1 := leafOffset (CallSliceOfUint64sOffset (AttestationIndices a)) 228 in
  let bytes := callBytes (CallDynamicObjectContent (IndexedAttestation.value a)) o in
  len (callBytes (CallStaticObject (Data a)) o1) = 128 ->
  len (ia_Signature a) = 96 ->
  exists fixed,
    bytes = fixed ++ concat (map PutUint64 (AttestationIndices a)) /\
    len fixed = Uint32 bytes /\ Uint32 bytes = 228 /\
    len bytes = 228 + len (AttestationIndices a) * 8 /\
    fixed = PutUint32 228 ++ callBytes (CallStaticObject (Data a)) o1 ++ ia_Signature a.
Proof.
  intros o1 bytes Hd Hs. subst bytes. rewrite IndexedAttestation_bytes. fold o1.
  exists (PutUint32 228 ++ callBytes (CallStaticObject (Data a)) o1 ++ ia_Signature a).
  assert (U : Uint32 ((PutUint32 228 ++ callBytes (CallStaticObject (Data a)) o1
                       ++ ia_Signature a)
                      ++ concat (map PutUint64 (AttestationIndices a))) = 228).
  { rewrite <- app_assoc. unfold Uint32.
    rewrite firstn_app, firstn_all2 by (unfold PutUint32; rewrite length_le_split; lia).
    replace (4 - length (PutUint32 228))%nat with 0%nat
      by (unfold PutUint32; rewrite length_le_split; reflexivity).
    rewrite firstn_O, app_nil_r. unfold PutUint32. rewrite le_combine_split. reflexivity. }
  split; [reflexivity|]. rewrite U.
  assert (L : len (PutUint32 228 ++ callBytes (CallStaticObject (Data a)) o1
                   ++ ia_Signature a) = 228)
    by (rewrite !len_app, len_PutUint32, Hd, Hs; reflexivity).
  split; [exact L|]. split; [reflexivity|]. split; [|reflexivity].
  rewrite len_app, L. f_equal.
  rewrite (concat_len_uniform 8).
  - unfold len. rewrite length_map. reflexivity.
  - apply Forall_forall. intros x Hx. apply in_map_iff in Hx.
    destruct Hx as (n & <- & _). apply len_PutUint64.
Qed.

Lemma IndexedAttestation_layout_witness :
  let a := {| AttestationIndices := [1; 2; 3];
              Data := StaticV 128 [CallStaticBytes (repeat Byte.x01 128)];
              ia_Signature := repeat Byte.x02 96 |} in
  let bytes := callBytes (CallDynamicObjectContent (IndexedAttestation.value a)) 0 in
  exists fixed,
    bytes = fixed ++ concat (map PutUint64 (AttestationIndices a)) /\
    len fixed = Uint32 bytes /\ Uint32 bytes = 228 /\
    len bytes = 228 + len (AttestationIndices a) * 8 /\
    fixed = PutUint32 228
            ++ callBytes (CallStaticObject (Data a))
                 (leafOffset (CallSliceOfUint64sOffset (AttestationIndices a)) 228)
            ++ ia_Signature a.
Proof.
  intros a. refine (IndexedAttestation_layout a 0 _ _).
  - vm_compute. reflexivity.
  - vm_compute. reflexivity.
Defined.

Lemma twoBlobFields_bytes (size : bool -> Z) (a b : list byte) (o : Z) :
  size true = 8 -> 8 + len a < 2 ^ 32 ->
  callBytes (CallDynamicObjectContent (DynamicV size (twoBlobFields a b))) o
  = PutUint32 8 ++ PutUint32 (8 + len a) ++ a ++ b.
Proof.
  intros Hsz Hlen. pose proof (len_nonneg a) as H0.
  rewrite (proj1 (dynamic_object_layout _ o)).
  cbn [dynamicCalls dynamicSize twoBlobFields loopBytes loopOffset]. rewrite Hsz.
  repeat match goal with
         | |- context [callBytes ?c ?o'] =>
             rewrite (proj1 (callBytes_leaf c o' eq_refl))
         | |- context [callOffset ?c ?o'] =>
             rewrite (proj2 (callBytes_leaf c o' eq_refl))
         end.
  cbn [leafBytes leafOffset].
  rewrite (wrap32_small (len a)) by lia. rewrite (wrap32_small (8 + len a)) by lia.
  rewrite !app_nil_r. reflexivity.
Qed.

Lemma offset_at (src : ReaderSource) (pre post : list byte) (o n : Z) :
  payload src = pre ++ PutUint32 n ++ post ->
  o = len pre -> len pre + 4 < 2 ^ 32 -> 0 <= n < 2 ^ 32 ->
  ReaderSource.offset src o = Ok n.
Proof.
  intros Hp Ho Hlen Hn. pose proof (len_nonneg pre) as H0. subst o.
  unfold ReaderSource.offset, backing. rewrite Hp. rewrite <- !app_assoc.
  rewrite wrap32_small by lia.
  rewrite <- (len_PutUint32 n) at 1. rewrite subslice_middle. simpl bind.
  rewrite Uint32_PutUint32 by exact Hn. reflexivity.
Qed.

Lemma subslice_at (pre x post : list byte) (lo hi : Z) :
  lo = len pre -> hi = lo + len x -> subslice (pre ++ x ++ post) lo hi = Ok x.
Proof. intros -> ->. apply subslice_middle. Qed.

Lemma copy_same_length (dst src : list byte) : len dst = len src -> copy dst src = src.
Proof.
  intros H. unfold len in H. rewrite copy_truncated by lia.
  apply firstn_all2. lia.
Qed.

(** X13.  Round trip of a container of two dynamic blobs (the shape of S3)
    through [EncodeDynamicBytesOffset], [EncodeDynamicBytesContent] and
    [DynamicBytesReader]: over the encoding as the whole payload, from a
    position at its start that ends with it, the reader of the first
    field, which ends at the offset of the second, and the reader of the
    last field, which ends with the container, read back the two blobs. *)
Theorem two_blobs_partial_read_round_trip
    (size : bool -> Z) (a b dstA dstB sp : list byte) (o : Z) (pos : ReadPos) :
  size true = 8 -> 8 + len a + len b < 2 ^ 32 ->
  len dstA = len a -> len dstB = len b ->
  let bytes := callBytes (CallDynamicObjectContent (DynamicV size (twoBlobFields a b))) o in
  Offset pos = 0 -> ContainerEnd pos = len bytes ->
  let src := {| payload := bytes; spare := sp |} in
  let rA := InitReaderSSZ {| db_pos := zeroPos |} (ReadPos.AddWithNext pos 0 4) in
  let rB := InitReaderSSZ {| db_pos := zeroPos |} (ReadPos.Add pos 4) in
  DynamicBytesReader.Read rA src dstA = Ok a /\
  DynamicBytesReader.Read rB src dstB = Ok b.
Proof.
  intros Hsz Hlen HA HB bytes HO HC src rA rB.
  pose proof (len_nonneg a) as Ha0. pose proof (len_nonneg b) as Hb0.
  assert (E : bytes = PutUint32 8 ++ PutUint32 (8 + len a) ++ a ++ b)
    by (apply twoBlobFields_bytes; [exact Hsz|lia]).
  assert (L : len bytes = 8 + len a + len b)
    by (rewrite E, !len_app, !len_PutUint32; lia).
  assert (O0 : ReaderSource.offset src 0 = Ok 8).
  { apply offset_at with (pre := []) (post := PutUint32 (8 + len a) ++ a ++ b).
    - exact E.
    - reflexivity.
    - reflexivity.
    - lia. }
  assert (O4 : ReaderSource.offset src 4 = Ok (8 + len a)).
  { apply offset_at with (pre := PutUint32 8) (post := a ++ b).
    - cbn [payload src]. rewrite E. reflexivity.
    - reflexivity.
    - reflexivity.
    - lia. }
  assert (SA : subslice bytes 8 (8 + len a) = Ok a).
  { rewrite E.
    replace (PutUint32 8 ++ PutUint32 (8 + len a) ++ a ++ b)
      with ((PutUint32 8 ++ PutUint32 (8 + len a)) ++ a ++ b)
      by (rewrite <- app_assoc; reflexivity).
    apply subslice_at; rewrite ?len_app, ?len_PutUint32; lia. }
  assert (SB : subslice bytes (8 + len a) (8 + len a + len b) = Ok b).
  { rewrite E.
    replace (PutUint32 8 ++ PutUint32 (8 + len a) ++ a ++ b)
      with ((PutUint32 8 ++ PutUint32 (8 + len a) ++ a) ++ b ++ [])
      by (rewrite app_nil_r, <- !app_assoc; reflexivity).
    apply subslice_at; rewrite ?len_app, ?len_PutUint32; lia. }
  split.
  - unfold DynamicBytesReader.Read, ReaderSource.objectEnd.
    change (Offset (db_pos rA)) with (wrap32 (Offset pos + 0)).
    change (NextOffset (db_pos rA)) with (wrap32 (Offset pos + 4)).
    rewrite HO.
    change (wrap32 (0 + 0)) with 0. change (wrap32 (0 + 4)) with 4.
    rewrite O0. cbn [bind]. change (4 =? 0) with false. cbv iota.
    rewrite O4. cbn [bind].
    rewrite backing_inside by (change (payload src) with bytes; lia).
    change (payload src) with bytes.
    rewrite SA. cbn [bind]. rewrite copy_same_length by exact HA. reflexivity.
  - unfold DynamicBytesReader.Read, ReaderSource.objectEnd.
    change (Offset (db_pos rB)) with (wrap32 (Offset pos + 4)).
    change (NextOffset (db_pos rB)) with 0.
    change (ContainerEnd (db_pos rB)) with (ContainerEnd pos).
    rewrite HO, HC.
    change (wrap32 (0 + 4)) with 4.
    rewrite O4. cbn [bind]. change (0 =? 0) with true. cbv iota. cbn [bind].
    rewrite L.
    rewrite backing_inside by (change (payload src) with bytes; lia).
    change (payload src) with bytes.
    rewrite SB. cbn [bind]. rewrite copy_same_length by exact HB. reflexivity.
Qed.

Lemma two_blobs_partial_read_round_trip_witness :
  let a := [Byte.x61; Byte.x62; Byte.x63] in
  let b := [Byte.x64; Byte.x65] in
  let pos := {| Offset := 0; NextOffset := 0; ContainerEnd := 13 |} in
  let bytes := callBytes (CallDynamicObjectContent blobsS3) 0 in
  let src := {| payload := bytes; spare := [] |} in
  let rA := InitReaderSSZ {| db_pos := zeroPos |} (ReadPos.AddWithNext pos 0 4) in
  let rB := InitReaderSSZ {| db_pos := zeroPos |} (ReadPos.Add pos 4) in
  DynamicBytesReader.Read rA src (repeat Byte.x00 3) = Ok a /\
  DynamicBytesReader.Read rB src (repeat Byte.x00 2) = Ok b.
Proof.
  intros a b pos.
  refine (two_blobs_partial_read_round_trip (fun fixed => if fixed then 8 else 13)
            a b (repeat Byte.x00 3) (repeat Byte.x00 2) [] 0 pos _ _ _ _ _ _).
  - reflexivity.
  - vm_compute. reflexivity.
  - reflexivity.
  - reflexivity.
  - reflexivity.
  - vm_compute. reflexivity.
Defined.

(** ** A buffer that is too short *)

Lemma wfSlice_advance (s : Slice) (p : list byte) :
  fits s p -> wfSlice (advance s p).
Proof.
  intros H. unfold wfSlice. rewrite advance_length by exact H.
  unfold fits in H. simpl. exact H.
Qed.

Lemma fits_dec (s : Slice) (p : list byte) : {fits s p} + {~ fits s p}.
Proof. unfold fits. apply le_dec. Qed.

Lemma slen_scopy (s : Slice) (p : list byte) : wfSlice s -> slen (scopy s p) = slen s.
Proof.
  unfold wfSlice, slen, scopy. simpl. intros H.
  rewrite length_app, copy_length, length_firstn, length_skipn. lia.
Qed.

Lemma overruns_put (p : Z -> list byte) (o : Z) :
  overruns (fun enc => bufferPut enc (p (offset enc))) o (p o).
Proof.
  intros s Hwf Hnf. simpl offset. unfold bufferPut, buffered. simpl outBuffer.
  unfold sput. destruct (Z.ltb_spec (slen s) (len (p o))); [reflexivity|].
  exfalso. apply Hnf. unfold fits, wfSlice, slen, len in *. lia.
Qed.

Lemma overruns_copy (p : list byte) (o : Z) :
  overruns (fun enc => bufferCopy enc p) o p.
Proof.
  intros s Hwf Hnf. unfold bufferCopy, buffered. simpl outBuffer.
  unfold sfrom. rewrite slen_scopy by exact Hwf.
  destruct (Z.leb_spec (len p) (slen s)).
  - exfalso. apply Hnf. unfold fits, wfSlice, slen, len in *. lia.
  - rewrite andb_false_r. reflexivity.
Qed.

Lemma overruns_bind fS f1 f2 (o o1 : Z) (a b : list byte) :
  simAt fS f1 o a o1 -> overruns f1 o a -> overruns f2 o1 b ->
  overruns (fun enc => enc <- f1 enc ;; f2 enc) o (a ++ b).
Proof.
  intros [_ B] H1 H2 s Hwf Hnf.
  destruct (fits_dec s a) as [Ha|Ha].
  - rewrite B by exact Ha. cbn [bind].
    apply H2; [apply wfSlice_advance; exact Ha|].
    intros Hb. apply Hnf. apply fits_app. split; assumption.
  - specialize (H1 s Hwf Ha). destruct (f1 (buffered s o)); [discriminate|reflexivity].
Qed.

Lemma overruns_ext f f' (o : Z) (out : list byte) :
  (forall enc, f' enc = f enc) -> overruns f o out -> overruns f' o out.
Proof. intros E H s Hwf Hnf. rewrite E. apply H; assumption. Qed.

Lemma overruns_pure (g : Encoder (list byte) -> Encoder (list byte)) (o : Z) :
  overruns (fun enc => Ok (g enc)) o [].
Proof.
  intros s Hwf Hnf. exfalso. apply Hnf. unfold fits, wfSlice in *. simpl. lia.
Qed.

Lemma overruns_loops {A : Type}
    (bodyS bodyB : A -> Encoder (list byte) -> outcome (Encoder (list byte)))
    (outF : A -> Z -> list byte) (offF : A -> Z -> Z) (xs : list A) :
  Forall (fun x => forall o, simAt (bodyS x) (bodyB x) o (outF x o) (offF x o) /\
                             overruns (bodyB x) o (outF x o)) xs ->
  forall o s, wfSlice s -> ~ fits s (loopBytes outF offF xs o) ->
    panics (range bodyB xs (buffered s o)) = true /\
    panics (rangeChecked bodyB xs (buffered s o)) = true.
Proof.
  induction 1 as [|x xs Hx _ IH]; intros o s Hwf Hnf.
  - exfalso. apply Hnf. unfold fits, wfSlice in *. simpl. lia.
  - cbn [loopBytes] in Hnf. cbn [range rangeChecked].
    change (hasErr (buffered s o)) with false. cbv iota.
    destruct (Hx o) as [[_ B] Ho].
    destruct (fits_dec s (outF x o)) as [Ha|Ha].
    + rewrite B by exact Ha. cbn [bind].
      apply IH; [apply wfSlice_advance; exact Ha|].
      intros Hb. apply Hnf. apply fits_app. split; assumption.
    + specialize (Ho s Hwf Ha).
      destruct (bodyB x (buffered s o)); [discriminate|split; reflexivity].
Qed.

Lemma overruns_offsetPhase (adv : Encoder (list byte) -> Encoder (list byte)) (o : Z) :
  overruns (offsetPhase adv) o (PutUint32 o).
Proof.
  intros s Hwf Hnf. unfold offsetPhase, encodeOffset.
  simpl outWriter. cbv iota. simpl offset.
  assert (H : panics (bufferPut (buffered s o) (PutUint32 o)) = true)
    by exact (overruns_put PutUint32 o s Hwf Hnf).
  destruct (bufferPut (buffered s o) (PutUint32 o)); [discriminate|reflexivity].
Qed.

Lemma overruns_range_copy (blobs : list (list byte)) (o : Z) (s : Slice) :
  wfSlice s -> ~ fits s (concat blobs) ->
  panics (range (fun blob enc => bufferCopy enc blob) blobs (buffered s o)) = true.
Proof.
  intros Hwf Hnf.
  destruct (loopBytes_const (fun blob : list byte => blob) blobs o) as [E _].
  rewrite map_id in E. rewrite <- E in Hnf.
  refine (proj1 (overruns_loops (fun blob enc => write enc blob)
                   (fun blob enc => bufferCopy enc blob)
                   (fun blob _ => blob) (fun _ o => o) blobs _ o s Hwf Hnf)).
  apply Forall_forall. intros blob _ o0. split; [apply simAt_write_copy|apply overruns_copy].
Qed.

Lemma overruns_leaf (c : Call) (o : Z) :
  walksObjects c = false -> overruns (exec c) o (leafBytes c o).
Proof.
  destruct c; simpl; try discriminate; intros _.
  - intros s Hwf Hnf. unfold EncodeUint64. simpl outWriter. cbv iota.
    exact (overruns_put (fun _ => PutUint64 n) o s Hwf Hnf).
  - intros s Hwf Hnf. unfold EncodeUint256. simpl outWriter. cbv iota. simpl outBuffer.
    destruct n as [n|].
    + destruct (Z.ltb_spec (slen s) 32) as [Hl|Hl].
      * unfold sfrom. destruct (Z.leb_spec 32 (slen s)); [lia|reflexivity].
      * exfalso. apply Hnf. pose proof (len_MarshalSSZTo n).
        unfold fits, wfSlice, slen, len in *. lia.
    + exact (overruns_copy zeros32 o s Hwf Hnf).
  - intros s Hwf Hnf. unfold EncodeStaticBytes. simpl outWriter. cbv iota.
    exact (overruns_copy blob o s Hwf Hnf).
  - apply overruns_offsetPhase.
  - intros s Hwf Hnf. unfold EncodeDynamicBytesContent. simpl outWriter. cbv iota.
    exact (overruns_copy blob o s Hwf Hnf).
  - apply overruns_offsetPhase.
  - apply overruns_offsetPhase.
  - intros s Hwf Hnf. unfold EncodeSliceOfUint64sContent. simpl outWriter. cbv iota.
    destruct (loopBytes_const PutUint64 ns o) as [E _]. rewrite <- E in Hnf.
    refine (proj1 (overruns_loops (fun n enc => write enc (PutUint64 n))
                     (fun n enc => bufferPut enc (PutUint64 n))
                     (fun n _ => PutUint64 n) (fun _ o => o) ns _ o s Hwf Hnf)).
    apply Forall_forall. intros n _ o0. split.
    + apply (simAt_write_put (fun _ => PutUint64 n)).
    + apply (overruns_put (fun _ => PutUint64 n)).
  - intros s Hwf Hnf. unfold EncodeArrayOfStaticBytes. simpl outWriter. cbv iota.
    apply overruns_range_copy; assumption.
  - apply overruns_offsetPhase.
  - intros s Hwf Hnf. unfold EncodeSliceOfStaticBytesContent. simpl outWriter. cbv iota.
    apply overruns_range_copy; assumption.
  - apply overruns_offsetPhase.
  - set (d := wrap32 (4 * len blobs)).
    set (offF := fun (blob : list byte) (o : Z) => wrap32 (o + wrap32 (len blob))).
    set (bodyS := fun (blob : list byte) (enc : Encoder (list byte)) =>
                    enc <- write enc (PutUint32 (offset enc)) ;;
                    Ok (addOffset enc (wrap32 (len blob)))).
    set (bodyB := fun (blob : list byte) (enc : Encoder (list byte)) =>
                    enc <- bufferPut enc (PutUint32 (offset enc)) ;;
                    Ok (addOffset enc (wrap32 (len blob)))).
    assert (F : Forall (fun blob => forall o, simAt (bodyS blob) (bodyB blob) o
                                                (PutUint32 o) (offF blob o) /\
                                              overruns (bodyB blob) o (PutUint32 o)) blobs).
    { apply Forall_forall. intros blob _ o0.
      rewrite <- (app_nil_r (PutUint32 o0)). split.
      - apply (simAt_bind (fun enc => write enc (PutUint32 (offset enc)))
                 (fun enc => bufferPut enc (PutUint32 (offset enc)))
                 (fun enc => Ok (addOffset enc (wrap32 (len blob))))
                 (fun enc => Ok (addOffset enc (wrap32 (len blob)))) o0 o0 (offF blob o0)).
        + apply (simAt_write_put PutUint32).
        + apply (simAt_offset (fun enc => addOffset enc (wrap32 (len blob)))
                   (fun o => wrap32 (o + wrap32 (len blob)))); reflexivity.
      - apply (overruns_bind (fun enc => write enc (PutUint32 (offset enc)))
                 (fun enc => bufferPut enc (PutUint32 (offset enc)))
                 (fun enc => Ok (addOffset enc (wrap32 (len blob)))) o0 o0).
        + apply (simAt_write_put PutUint32).
        + apply (overruns_put PutUint32).
        + apply overruns_pure. }
    intros s Hwf Hnf. unfold EncodeSliceOfDynamicBytesContent, offsetDynamics.
    cbv zeta. simpl outWriter. cbv iota.
    change (setOffset (buffered s o) (wrap32 (4 * len blobs))) with (buffered s d).
    fold bodyB. rewrite <- loopBytes_offsetTable in Hnf. fold offF d in Hnf.
    destruct (fits_dec s (loopBytes (fun _ o => PutUint32 o) offF blobs d)) as [Ha|Ha].
    + destruct (simAt_loops bodyS bodyB (fun _ o => PutUint32 o) offF blobs) with (o := d)
        as (_ & B1 & _).
      { eapply Forall_impl; [|exact F]. intros blob H o0. apply H. }
      rewrite B1 by exact Ha. unfold andThen. cbn [bind]. simpl outWriter. cbv iota.
      apply overruns_range_copy; [apply wfSlice_advance; exact Ha|].
      intros Hb. apply Hnf. apply fits_app. split; assumption.
    + pose proof (proj1 (overruns_loops bodyS bodyB _ offF blobs F d s Hwf Ha)) as P.
      destruct (range bodyB blobs (buffered s d)); [discriminate|reflexivity].
  - apply overruns_offsetPhase.
  - apply overruns_offsetPhase.
Qed.

Lemma overruns_execAll (cs : list Call) :
  Forall (fun c => forall o, overruns (exec c) o (callBytes c o)) cs ->
  forall o, overruns (execAll cs) o (loopBytes callBytes callOffset cs o).
Proof.
  induction 1 as [|c cs Hc _ IH]; intros o.
  - intros s Hwf Hnf. exfalso. apply Hnf. unfold fits, wfSlice in *. simpl. lia.
  - cbn [loopBytes].
    apply (overruns_ext (fun enc => enc <- exec c enc ;; execAll cs enc)).
    + intros enc. apply execAll_cons.
    + apply (overruns_bind (exec c) (exec c) (execAll cs) o (callOffset c o)).
      * apply exec_callBytes.
      * apply Hc.
      * apply IH.
Qed.

Lemma overruns_andThen (m : outcome (ctl (list byte)))
    (k : Encoder (list byte) -> outcome (Encoder (list byte))) :
  panics m = true -> panics (andThen m k) = true.
Proof. destruct m; [discriminate|reflexivity]. Qed.

Lemma overruns_exec (c : Call) : forall o, overruns (exec c) o (callBytes c o).
Proof.
  induction c using Call_walk_ind; intros o.
  - rewrite (proj1 (callBytes_leaf c o H)). apply overruns_leaf. exact H.
  - rewrite (proj1 (static_object_layout obj o)).
    intros s Hwf Hnf. simpl exec. unfold EncodeStaticObject.
    change (hasErr (buffered s o)) with false. cbv iota.
    rewrite staticObject_define. apply overruns_execAll; assumption.
  - rewrite (proj1 (dynamic_object_layout obj o)).
    intros s Hwf Hnf. simpl exec. unfold EncodeDynamicObjectContent.
    change (hasErr (buffered s o)) with false. cbv iota zeta.
    rewrite dynamicObject_define, dynamicObject_size.
    change (offsetDynamics (buffered s o) (dynamicSize obj true))
      with (buffered s (dynamicSize obj true)).
    apply overruns_execAll; assumption.
  - set (body := fun (obj : StaticObject (list byte)) enc => DefineSSZ obj enc).
    assert (F : Forall (fun x => forall o,
                          simAt (body x) (body x) o (outOf (body x) o) (offOf (body x) o) /\
                          overruns (body x) o (outOf (body x) o))
                  (map staticObject objects)).
    { clear o. induction H as [|obj objects Hobj _ IH]; simpl; constructor; [|exact IH].
      intros o. unfold body. rewrite staticObject_define.
      rewrite (proj1 (execAll_out _ o)), (proj2 (execAll_out _ o)).
      split; [apply simAt_execAll|apply overruns_execAll; exact Hobj]. }
    destruct (simAt_loops body body (fun obj => outOf (body obj)) (fun obj => offOf (body obj))
                (map staticObject objects)) with (o := o) as (S & _ & C).
    { eapply Forall_impl; [|exact F]. intros x Hx o0. apply Hx. }
    assert (E : callBytes (CallSliceOfStaticObjectsContent objects) o
                = loopBytes (fun obj => outOf (body obj)) (fun obj => offOf (body obj))
                    (map staticObject objects) o).
    { unfold callBytes, outOf. simpl exec. unfold EncodeSliceOfStaticObjectsContent.
      fold body. rewrite S. reflexivity. }
    rewrite E. intros s Hwf Hnf. simpl exec. unfold EncodeSliceOfStaticObjectsContent.
    apply overruns_andThen.
    exact (proj2 (overruns_loops body body _ _ _ F o s Hwf Hnf)).
  - set (xs := map (dynamicObject (W := list byte)) objects).
    set (d := wrap32 (4 * len xs)).
    set (bodyS1 := fun (obj : DynamicObject (list byte)) (enc : Encoder (list byte)) =>
                     enc <- write enc (PutUint32 (offset enc)) ;;
                     Ok (addOffset enc (SizeSSZd obj false))).
    set (bodyB1 := fun (obj : DynamicObject (list byte)) (enc : Encoder (list byte)) =>
                     enc <- bufferPut enc (PutUint32 (offset enc)) ;;
                     Ok (addOffset enc (SizeSSZd obj false))).
    set (body2 := fun (obj : DynamicObject (list byte)) (enc : Encoder (list byte)) =>
                    let enc := offsetDynamics enc (SizeSSZd obj true) in
                    DefineSSZd obj enc).
    set (offF1 := fun (obj : DynamicObject (list byte)) (o : Z) =>
                    wrap32 (o + SizeSSZd obj false)).
    assert (F1 : Forall (fun x => forall o,
                           simAt (bodyS1 x) (bodyB1 x) o (PutUint32 o) (offF1 x o) /\
                           overruns (bodyB1 x) o (PutUint32 o)) xs).
    { apply Forall_forall. intros obj _ o0.
      rewrite <- (app_nil_r (PutUint32 o0)). split.
      - apply (simAt_bind (fun enc => write enc (PutUint32 (offset enc)))
                 (fun enc => bufferPut enc (PutUint32 (offset enc)))
                 (fun enc => Ok (addOffset enc (SizeSSZd obj false)))
                 (fun enc => Ok (addOffset enc (SizeSSZd obj false))) o0 o0 (offF1 obj o0)).
        + apply (simAt_write_put PutUint32).
        + apply (simAt_offset (fun enc => addOffset enc (SizeSSZd obj false))
                   (fun o => wrap32 (o + SizeSSZd obj false))); reflexivity.
      - apply (overruns_bind (fun enc => write enc (PutUint32 (offset enc)))
                 (fun enc => bufferPut enc (PutUint32 (offset enc)))
                 (fun enc => Ok (addOffset enc (SizeSSZd obj false))) o0 o0).
        + apply (simAt_write_put PutUint32).
        + apply (overruns_put PutUint32).
        + apply overruns_pure. }
    assert (F2 : Forall (fun x => forall o,
                           simAt (body2 x) (body2 x) o (outOf (body2 x) o) (offOf (body2 x) o) /\
                           overruns (body2 x) o (outOf (body2 x) o)) xs).
    { unfold xs. clear -H.
      induction H as [|obj objects Hobj _ IH]; simpl; constructor; [|exact IH].
      intros o.
      assert (Sm : simAt (body2 (dynamicObject obj)) (body2 (dynamicObject obj)) o
                     (loopBytes callBytes callOffset (dynamicCalls obj) (dynamicSize obj true))
                     (loopOffset callOffset (dynamicCalls obj) (dynamicSize obj true))).
      { destruct (simAt_execAll (dynamicCalls obj) (dynamicSize obj true)) as [S B].
        unfold body2. cbv zeta. rewrite dynamicObject_define, dynamicObject_size.
        split; intros; [apply S|apply B; assumption]. }
      destruct (simAt_out _ _ _ _ _ Sm) as [E1 E2]. rewrite E1, E2.
      split; [exact Sm|].
      intros s Hwf Hnf. unfold body2. cbv zeta.
      rewrite dynamicObject_define, dynamicObject_size.
      change (offsetDynamics (buffered s o) (dynamicSize obj true))
        with (buffered s (dynamicSize obj true)).
      apply overruns_execAll; assumption. }
    destruct (simAt_loops bodyS1 bodyB1 (fun _ o => PutUint32 o) offF1 xs)
      with (o := d) as (S1 & B1 & _).
    { eapply Forall_impl; [|exact F1]. intros x Hx o0. apply Hx. }
    destruct (simAt_loops body2 body2 (fun obj => outOf (body2 obj)) (fun obj => offOf (body2 obj)) xs)
      with (o := loopOffset offF1 xs d) as (S2 & _ & C2).
    { eapply Forall_impl; [|exact F2]. intros x Hx o0. apply Hx. }
    assert (E : callBytes (CallSliceOfDynamicObjectsContent objects) o
                = loopBytes (fun _ o => PutUint32 o) offF1 xs d
                  ++ loopBytes (fun obj => outOf (body2 obj)) (fun obj => offOf (body2 obj))
                       xs (loopOffset offF1 xs d)).
    { unfold callBytes, outOf. simpl exec. unfold EncodeSliceOfDynamicObjectsContent.
      fold xs. cbv zeta. simpl outWriter. cbv iota.
      change (offsetDynamics (streaming [] nilSlice o) (wrap32 (4 * len xs)))
        with (streaming [] nilSlice d).
      fold bodyS1. rewrite S1. unfold andThen at 1. cbn [bind]. cbv iota.
      fold body2. rewrite S2. unfold andThen. cbn [bind]. reflexivity. }
    rewrite E. intros s Hwf Hnf. simpl exec. unfold EncodeSliceOfDynamicObjectsContent.
    fold xs. cbv zeta. simpl outWriter. cbv iota.
    change (offsetDynamics (buffered s o) (wrap32 (4 * len xs))) with (buffered s d).
    fold bodyB1.
    destruct (fits_dec s (loopBytes (fun _ o => PutUint32 o) offF1 xs d)) as [Ha|Ha].
    + rewrite B1 by exact Ha. unfold andThen at 1. cbn [bind]. cbv iota.
      fold body2. apply overruns_andThen.
      refine (proj2 (overruns_loops body2 body2 _ _ _ F2 _ _ _ _)).
      * apply wfSlice_advance. exact Ha.
      * intros Hb. apply Hnf. apply fits_app. split; assumption.
    + pose proof (proj1 (overruns_loops bodyS1 bodyB1 _ offF1 xs F1 d s Hwf Ha)) as P.
      destruct (range bodyB1 xs (buffered s d)); [discriminate|reflexivity].
Qed.

(** X14.  In buffered mode a buffer that is too short for what a call
    writes never gives a truncated encoding or an error: the call panics,
    whatever the call and however deep the objects it walks. *)
Theorem buffer_overrun_panics (c : Call) (o : Z) (s : Slice) :
  wfSlice s -> ~ fits s (callBytes c o) ->
  panics (exec c (buffered s o)) = true.
Proof. intros Hwf Hnf. exact (overruns_exec c o s Hwf Hnf). Qed.

Lemma buffer_overrun_panics_witness :
  panics (exec (CallUint64 7) (buffered {| arr := repeat Byte.x00 4; lo := 0 |} 0)) = true.
Proof.
  refine (buffer_overrun_panics (CallUint64 7) 0 {| arr := repeat Byte.x00 4; lo := 0 |} _ _).
  - unfold wfSlice. simpl. lia.
  - unfold fits. vm_compute. lia.
Defined.

(** ** Streaming mode *)

Section Streams.
Context {W : Type} {writer : Writer W}.

Lemma streams_bind (f g : Encoder W -> outcome (Encoder W)) :
  streams f -> streams g -> streams (fun enc => enc <- f enc ;; g enc).
Proof.
  intros Hf Hg enc w Hw.
  destruct (Hf enc w Hw) as (enc1 & w1 & E1 & Hw1 & Hb1 & He1).
  destruct (Hg enc1 w1 Hw1) as (enc2 & w2 & E2 & Hw2 & Hb2 & He2).
  exists enc2, w2. rewrite E1. cbn [bind]. repeat split; try assumption.
  - congruence.
  - intros N H. apply He2; [exact N|]. apply He1; assumption.
Qed.

Lemma streams_pure (g : Encoder W -> Encoder W) :
  (forall enc, outWriter (g enc) = outWriter enc /\ outBuffer (g enc) = outBuffer enc /\
               err (g enc) = err enc) ->
  streams (fun enc => Ok (g enc)).
Proof.
  intros H enc w Hw. destruct (H enc) as (H1 & H2 & H3).
  exists (g enc), w. repeat split; congruence.
Qed.

Lemma streams_Ok : streams (fun enc : Encoder W => Ok enc).
Proof. apply (streams_pure (fun enc => enc)). auto. Qed.

Lemma streams_write (p : Encoder W -> list byte) : streams (fun enc => write enc (p enc)).
Proof.
  intros enc w Hw. rewrite (write_streaming enc w (p enc) Hw).
  eexists. eexists. split; [reflexivity|]. cbn [outWriter outBuffer err].
  repeat split. intros N _. apply N.
Qed.

Lemma streams_guarded (f : Encoder W -> outcome (Encoder W)) :
  streams f -> streams (fun enc => if hasErr enc then Ok enc else f enc).
Proof.
  intros H enc w Hw. destruct (hasErr enc).
  - exact (streams_Ok enc w Hw).
  - exact (H enc w Hw).
Qed.

Lemma streams_anchored (f : Encoder W -> outcome (Encoder W)) (d : Z) :
  streams f -> streams (fun enc => f (offsetDynamics enc d)).
Proof. intros H enc w Hw. exact (H (offsetDynamics enc d) w Hw). Qed.

Lemma streams_mode (fS fB : Encoder W -> outcome (Encoder W)) :
  streams fS ->
  streams (fun enc => match outWriter enc with Some _ => fS enc | None => fB enc end).
Proof. intros H enc w Hw. rewrite Hw. exact (H enc w Hw). Qed.

Lemma streams_rangeChecked {A : Type} (body : A -> Encoder W -> outcome (Encoder W))
    (xs : list A) (k : Encoder W -> outcome (Encoder W)) :
  Forall (fun x => streams (body x)) xs -> streams k ->
  streams (fun enc => andThen (rangeChecked body xs enc) k).
Proof.
  intros H Hk. induction H as [|x xs Hx _ IH].
  - intros enc w Hw. unfold andThen. cbn [rangeChecked bind]. exact (Hk enc w Hw).
  - intros enc w Hw. cbn [rangeChecked]. destruct (hasErr enc).
    + unfold andThen. cbn [bind]. exact (streams_Ok enc w Hw).
    + destruct (Hx enc w Hw) as (enc1 & w1 & E1 & Hw1 & Hb1 & He1).
      destruct (IH enc1 w1 Hw1) as (enc2 & w2 & E2 & Hw2 & Hb2 & He2).
      exists enc2, w2. rewrite E1. cbn [bind]. repeat split; try assumption.
      * congruence.
      * intros N Hn. apply He2; [exact N|]. apply He1; assumption.
Qed.

Lemma streams_sequence (fs : list (Encoder W -> outcome (Encoder W))) :
  Forall streams fs -> streams (sequence fs).
Proof.
  induction 1 as [|f fs Hf _ IH].
  - intros enc w Hw. rewrite sequence_nil. exact (streams_Ok enc w Hw).
  - intros enc w Hw. rewrite sequence_cons.
    exact (streams_bind f (sequence fs) Hf IH enc w Hw).
Qed.

Lemma streams_execAll (cs : list Call) :
  Forall (fun c => streams (exec (W := W) c)) cs -> streams (execAll (W := W) cs).
Proof.
  intros H. unfold execAll. apply streams_sequence.
  induction H; simpl; constructor; assumption.
Qed.

Lemma streams_offsetPhase (adv : Encoder W -> Encoder W) :
  (forall enc, outWriter (adv enc) = outWriter enc /\ outBuffer (adv enc) = outBuffer enc /\
               err (adv enc) = err enc) ->
  streams (offsetPhase adv).
Proof.
  intros H enc w Hw. unfold offsetPhase, encodeOffset. rewrite Hw.
  destruct (hasErr enc).
  - cbn [bind]. exact (streams_Ok enc w Hw).
  - destruct (streams_write (fun enc => PutUint32 (offset enc)) enc w Hw)
      as (enc1 & w1 & E1 & Hw1 & Hb1 & He1).
    rewrite E1. cbn [bind]. destruct (H enc1) as (H1 & H2 & H3).
    exists (adv enc1), w1. repeat split; try congruence.
    intros N Hn. rewrite H3. apply He1; assumption.
Qed.

End Streams.

Section StreamsAll.
Context {W : Type} {writer : Writer W}.

Lemma streams_leaf (c : Call) : walksObjects c = false -> streams (exec (W := W) c).
Proof.
  destruct c; simpl; try discriminate; intros _.
  - apply (streams_mode (fun enc => if hasErr enc then Ok enc else write enc (PutUint64 n))).
    apply streams_guarded. apply (streams_write (fun _ => PutUint64 n)).
  - intros enc w Hw. unfold EncodeUint256. rewrite Hw.
    destruct n as [n|].
    + exact (streams_guarded _ (streams_write (fun _ => MarshalSSZTo n)) enc w Hw).
    + exact (streams_guarded _ (streams_write (fun _ => zeros32)) enc w Hw).
  - apply (streams_mode (fun enc => if hasErr enc then Ok enc else write enc blob)).
    apply streams_guarded. apply (streams_write (fun _ => blob)).
  - apply streams_offsetPhase. intros enc. simpl. auto.
  - apply (streams_mode (fun enc => if hasErr enc then Ok enc else write enc blob)).
    apply streams_guarded. apply (streams_write (fun _ => blob)).
  - apply streams_offsetPhase. intros enc. simpl. auto.
  - apply streams_offsetPhase. intros enc. cbv zeta.
    match goal with |- context [if ?b then _ else _] => destruct b end; simpl; auto.
  - apply (streams_mode
             (fun enc => andThen (rangeChecked (fun n enc => write enc (PutUint64 n)) ns enc) Ok)).
    apply streams_rangeChecked; [|apply streams_Ok].
    apply Forall_forall. intros n _. apply (streams_write (fun _ => PutUint64 n)).
  - apply (streams_mode
             (fun enc => andThen (rangeChecked (fun blob enc => write enc blob) blobs enc) Ok)).
    apply streams_rangeChecked; [|apply streams_Ok].
    apply Forall_forall. intros blob _. apply (streams_write (fun _ => blob)).
  - apply streams_offsetPhase. intros enc. cbv zeta.
    match goal with |- context [if ?b then _ else _] => destruct b end; simpl; auto.
  - apply (streams_mode
             (fun enc => andThen (rangeChecked (fun blob enc => write enc blob) blobs enc) Ok)).
    apply streams_rangeChecked; [|apply streams_Ok].
    apply Forall_forall. intros blob _. apply (streams_write (fun _ => blob)).
  - apply streams_offsetPhase. intros enc.
    destruct (fold_addOffset_fields (fun blob => wrap32 (4 + len blob)) blobs enc) as (H1 & H2 & H3).
    auto.
  - intros enc w Hw. unfold EncodeSliceOfDynamicBytesContent. cbv zeta.
    assert (Hw0 : outWriter (offsetDynamics enc (wrap32 (4 * len blobs))) = Some w) by exact Hw.
    rewrite Hw0.
    refine (streams_anchored _ (wrap32 (4 * len blobs))
              (streams_rangeChecked
                 (fun blob enc => enc <- write enc (PutUint32 (offset enc)) ;;
                                  Ok (addOffset enc (wrap32 (len blob))))
                 blobs _ _ _) enc w Hw).
    + apply Forall_forall. intros blob _.
      apply (streams_bind (fun enc => write enc (PutUint32 (offset enc)))
               (fun enc => Ok (addOffset enc (wrap32 (len blob))))).
      * apply (streams_write (fun enc => PutUint32 (offset enc))).
      * apply streams_pure. intros e. simpl. auto.
    + apply (streams_mode
               (fun enc => andThen (rangeChecked (fun blob enc => write enc blob) blobs enc) Ok)).
      apply streams_rangeChecked; [|apply streams_Ok].
      apply Forall_forall. intros blob _. apply (streams_write (fun _ => blob)).
  - apply streams_offsetPhase. intros enc. destruct (map staticObject objects); simpl; auto.
  - apply streams_offsetPhase. intros enc.
    destruct (fold_addOffset_fields (fun obj : DynamicObject W => wrap32 (4 + SizeSSZd obj false))
                (map dynamicObject objects) enc) as (H1 & H2 & H3).
    auto.
Qed.

Lemma streams_exec (c : Call) : streams (exec (W := W) c).
Proof.
  induction c using Call_walk_ind.
  - apply streams_leaf. assumption.
  - simpl. unfold EncodeStaticObject. apply streams_guarded.
    rewrite staticObject_define. apply streams_execAll. assumption.
  - simpl. unfold EncodeDynamicObjectContent. apply streams_guarded.
    apply streams_anchored with (f := DefineSSZd (dynamicObject obj)).
    rewrite dynamicObject_define. apply streams_execAll. assumption.
  - simpl. unfold EncodeSliceOfStaticObjectsContent.
    apply streams_rangeChecked; [|apply streams_Ok].
    induction H as [|obj objects Hobj _ IH]; simpl; constructor; [|exact IH].
    rewrite staticObject_define. apply streams_execAll. exact Hobj.
  - simpl. unfold EncodeSliceOfDynamicObjectsContent.
    intros enc w Hw. cbv zeta.
    assert (Hw0 : outWriter (offsetDynamics enc (wrap32 (4 * len (map (dynamicObject (W := W)) objects))))
                  = Some w) by exact Hw.
    rewrite Hw0.
    refine (streams_anchored _ (wrap32 (4 * len (map (dynamicObject (W := W)) objects)))
              (streams_rangeChecked
                 (fun obj enc => enc <- write enc (PutUint32 (offset enc)) ;;
                                 Ok (addOffset enc (SizeSSZd obj false)))
                 (map dynamicObject objects) _ _ _) enc w Hw).
    + apply Forall_forall. intros obj _.
      apply (streams_bind (fun enc => write enc (PutUint32 (offset enc)))
               (fun enc => Ok (addOffset enc (SizeSSZd obj false)))).
      * apply (streams_write (fun enc => PutUint32 (offset enc))).
      * apply streams_pure. intros e. simpl. auto.
    + apply streams_rangeChecked; [|apply streams_Ok].
      clear Hw0 Hw w enc.
      induction H as [|obj objects Hobj _ IH]; simpl; constructor; [|exact IH].
      apply streams_anchored with (f := DefineSSZd (dynamicObject obj)).
      rewrite dynamicObject_define. apply streams_execAll. exact Hobj.
Qed.

End StreamsAll.

(** X15.  In streaming mode the encoder panics only on a nil object.  On
    an encoder over a sink every call of a schema whose objects are not
    nil returns, whatever the sink does and whether or not an error is
    set; the encoder is still over a sink and its buffer is untouched,
    and an error can only come from the sink: over a sink that accepts
    every write no call sets one.  A nil object is the case that is left:
    [EncodeStaticObject] calls the object's [DefineSSZ] without a nil
    test, so on a nil pointer it panics with the dereference, in
    streaming mode too, unless an error is latched, when it returns
    before the call. *)
Theorem streaming_returns_unless_object_is_nil {W : Type} {writer : Writer W}
    (c : Call) (enc : Encoder W) (w : W) (size : Z) :
  outWriter enc = Some w ->
  (exists enc' w', exec c enc = Ok enc' /\ outWriter enc' = Some w' /\
     outBuffer enc' = outBuffer enc /\
     (neverFails W -> err enc = None -> err enc' = None)) /\
  EncodeStaticObject (nilStaticObject size) enc
  = (if hasErr enc then Ok enc else Panic "nil pointer dereference").
Proof.
  intros Hw. split; [exact (streams_exec c enc w Hw)|].
  unfold EncodeStaticObject. destruct (hasErr enc); reflexivity.
Qed.

Lemma streaming_returns_unless_object_is_nil_witness :
  let enc := {| outWriter := Some sinkOfEight; outBuffer := nilSlice;
                err := None; offset := 0 |} in
  (exists enc' w', exec (CallDynamicObjectContent blobsS3) enc = Ok enc' /\
     outWriter enc' = Some w' /\ outBuffer enc' = outBuffer enc /\
     (neverFails LimitedWriter -> err enc = None -> err enc' = None)) /\
  EncodeStaticObject (nilStaticObject 16) enc
  = (if hasErr enc then Ok enc else Panic "nil pointer dereference").
Proof.
  intros enc.
  refine (streaming_returns_unless_object_is_nil
            (CallDynamicObjectContent blobsS3) enc sinkOfEight 16 _).
  reflexivity.
Defined.

(** ** The loops that the source inlines *)

Section Inline.
Context {W : Type} {writer : Writer W}.

Lemma sequence_ext {A : Type} (I : Encoder W -> Prop)
    (F G : A -> Encoder W -> outcome (Encoder W)) (xs : list A) :
  (forall x enc enc', I enc -> F x enc = Ok enc' -> I enc') ->
  (forall x enc, I enc -> F x enc = G x enc) ->
  forall enc, I enc -> sequence (map F xs) enc = sequence (map G xs) enc.
Proof.
  intros HK HE. induction xs as [|x xs IH]; intros enc Hi; cbn [map].
  - reflexivity.
  - rewrite !sequence_cons. rewrite <- HE by exact Hi.
    destruct (F x enc) as [enc1|] eqn:E1; cbn [bind]; [|reflexivity].
    apply IH. exact (HK x enc enc1 Hi E1).
Qed.

Lemma sequence_keeps {A : Type} (I : Encoder W -> Prop)
    (F : A -> Encoder W -> outcome (Encoder W)) (xs : list A) :
  (forall x enc enc', I enc -> F x enc = Ok enc' -> I enc') ->
  forall enc enc', I enc -> sequence (map F xs) enc = Ok enc' -> I enc'.
Proof.
  intros HK. induction xs as [|x xs IH]; intros enc enc' Hi; cbn [map].
  - rewrite sequence_nil. intros E. injection E as <-. exact Hi.
  - rewrite sequence_cons. destruct (F x enc) as [enc1|] eqn:E1; cbn [bind]; [|discriminate].
    apply IH. exact (HK x enc enc1 Hi E1).
Qed.

Lemma guarded_sequence_noop {A : Type} (body : A -> Encoder W -> outcome (Encoder W))
    (xs : list A) (enc : Encoder W) :
  hasErr enc = true ->
  sequence (map (fun x enc => if hasErr enc then Ok enc else body x enc) xs) enc = Ok enc.
Proof.
  intros H. induction xs as [|x xs IH]; cbn [map].
  - apply sequence_nil.
  - rewrite sequence_cons, H. cbn [bind]. exact IH.
Qed.

Lemma rangeChecked_as_sequence {A : Type} (I : Encoder W -> Prop)
    (body : A -> Encoder W -> outcome (Encoder W)) (xs : list A)
    (k : Encoder W -> outcome (Encoder W)) :
  (forall x enc enc', I enc -> body x enc = Ok enc' -> I enc') ->
  (forall enc, I enc -> hasErr enc = true -> k enc = Ok enc) ->
  forall enc, I enc ->
    andThen (rangeChecked body xs enc) k
    = (enc <- sequence (map (fun x enc => if hasErr enc then Ok enc else body x enc) xs) enc ;;
       k enc).
Proof.
  intros HK Hk. induction xs as [|x xs IH]; intros enc Hi.
  - cbn [rangeChecked map]. rewrite sequence_nil. reflexivity.
  - cbn [rangeChecked map]. rewrite sequence_cons. destruct (hasErr enc) eqn:He.
    + unfold andThen. cbn [bind]. rewrite guarded_sequence_noop by exact He.
      cbn [bind]. symmetry. apply Hk; assumption.
    + destruct (body x enc) as [enc1|] eqn:E1; cbn [bind]; [|reflexivity].
      unfold andThen in *. cbn [bind]. apply IH. exact (HK x enc enc1 Hi E1).
Qed.

Lemma range_as_sequence {A : Type} (body : A -> Encoder W -> outcome (Encoder W))
    (xs : list A) (enc : Encoder W) :
  range body xs enc = sequence (map body xs) enc.
Proof.
  revert enc. induction xs as [|x xs IH]; intros enc; cbn [range map].
  - reflexivity.
  - rewrite sequence_cons. destruct (body x enc); cbn [bind]; [apply IH|reflexivity].
Qed.

Lemma bind_Ok_r (m : outcome (Encoder W)) : (enc <- m ;; Ok enc) = m.
Proof. destruct m; reflexivity. Qed.

Lemma bind_ext (m : outcome (Encoder W)) (f g : Encoder W -> outcome (Encoder W)) :
  (forall enc, m = Ok enc -> f enc = g enc) -> (enc <- m ;; f enc) = (enc <- m ;; g enc).
Proof. intros H. destruct m; cbn [bind]; [apply H|]; reflexivity. Qed.

Lemma execAll_map {A : Type} (mk : A -> Call) (xs : list A) (enc : Encoder W) :
  execAll (map mk xs) enc = sequence (map (fun x => exec (mk x)) xs) enc.
Proof. unfold execAll. rewrite map_map. reflexivity. Qed.

Lemma exec_keeps_streaming (c : Call) (enc enc' : Encoder W) :
  (exists w, outWriter enc = Some w) -> exec c enc = Ok enc' ->
  exists w, outWriter enc' = Some w.
Proof.
  intros [w Hw] E. destruct (streams_exec c enc w Hw) as (enc1 & w1 & E1 & Hw1 & _).
  rewrite E in E1. injection E1 as <-. exists w1. exact Hw1.
Qed.

Lemma exec_keeps_buffered (c : Call) (enc enc' : Encoder W) :
  outWriter enc = None -> exec c enc = Ok enc' -> outWriter enc' = None.
Proof. intros Hw E. exact (proj1 (keepsErr_exec c enc enc' Hw E)). Qed.

End Inline.

Section InlineCalls.
Context {W : Type} {writer : Writer W}.

Lemma andThen_continues (m : outcome (Encoder W)) (k : Encoder W -> outcome (Encoder W)) :
  andThen (enc <- m ;; Ok (Continues enc)) k = (enc <- m ;; k enc).
Proof. destruct m; reflexivity. Qed.

Lemma checked_loop_is_calls {A : Type} (mk : A -> Call)
    (bodyS bodyB : A -> Encoder W -> outcome (Encoder W)) (xs : list A) (enc : Encoder W) :
  (forall x enc w, outWriter enc = Some w ->
     exec (mk x) enc = if hasErr enc then Ok enc else bodyS x enc) ->
  (forall x enc, outWriter enc = None -> exec (mk x) enc = bodyB x enc) ->
  match outWriter enc with
  | Some _ => andThen (rangeChecked bodyS xs enc) Ok
  | None => range bodyB xs enc
  end = execAll (map mk xs) enc.
Proof.
  intros HS HB. rewrite execAll_map. destruct (outWriter enc) as [w|] eqn:Hw.
  - rewrite (rangeChecked_as_sequence (fun _ => True)); auto.
    rewrite bind_Ok_r. symmetry.
    apply (sequence_ext (fun enc => exists w, outWriter enc = Some w)).
    + intros x. apply exec_keeps_streaming.
    + intros x e [w' Hw']. exact (HS x e w' Hw').
    + exists w. exact Hw.
  - rewrite range_as_sequence. symmetry.
    apply (sequence_ext (fun enc => outWriter enc = None)).
    + intros x. apply exec_keeps_buffered.
    + intros x e He. exact (HB x e He).
    + exact Hw.
Qed.

Lemma uint64s_content_is_calls (ns : list Z) (enc : Encoder W) :
  exec (CallSliceOfUint64sContent ns) enc = execAll (map CallUint64 ns) enc.
Proof.
  apply (checked_loop_is_calls CallUint64 (fun n enc => write enc (PutUint64 n))
           (fun n enc => bufferPut enc (PutUint64 n))).
  - intros n e w Hw. cbn [exec]. unfold EncodeUint64. rewrite Hw. reflexivity.
  - intros n e Hw. cbn [exec]. unfold EncodeUint64. rewrite Hw. reflexivity.
Qed.

Lemma static_blobs_are_calls (blobs : list (list byte)) (enc : Encoder W) :
  match outWriter enc with
  | Some _ => andThen (rangeChecked (fun blob enc => write enc blob) blobs enc) Ok
  | None => range (fun blob enc => bufferCopy enc blob) blobs enc
  end = execAll (map CallStaticBytes blobs) enc.
Proof.
  apply (checked_loop_is_calls CallStaticBytes).
  - intros n e w Hw. cbn [exec]. unfold EncodeStaticBytes. rewrite Hw. reflexivity.
  - intros n e Hw. cbn [exec]. unfold EncodeStaticBytes. rewrite Hw. reflexivity.
Qed.

Lemma dynamic_blobs_are_calls (blobs : list (list byte)) (enc : Encoder W) :
  match outWriter enc with
  | Some _ => andThen (rangeChecked (fun blob enc => write enc blob) blobs enc) Ok
  | None => range (fun blob enc => bufferCopy enc blob) blobs enc
  end = execAll (map CallDynamicBytesContent blobs) enc.
Proof.
  apply (checked_loop_is_calls CallDynamicBytesContent).
  - intros n e w Hw. cbn [exec]. unfold EncodeDynamicBytesContent. rewrite Hw. reflexivity.
  - intros n e Hw. cbn [exec]. unfold EncodeDynamicBytesContent. rewrite Hw. reflexivity.
Qed.

Lemma static_objects_content_is_calls (objects : list StaticValue) (enc : Encoder W) :
  exec (CallSliceOfStaticObjectsContent objects) enc
  = execAll (map CallStaticObject objects) enc.
Proof.
  simpl exec. unfold EncodeSliceOfStaticObjectsContent.
  rewrite (rangeChecked_as_sequence (fun _ => True)); auto.
  rewrite bind_Ok_r, execAll_map, map_map. reflexivity.
Qed.

End InlineCalls.

Section InlineDynamic.
Context {W : Type} {writer : Writer W}.

Lemma offset_write_keeps_streaming (adv : Encoder W -> Encoder W) (enc enc' : Encoder W) :
  (forall e, outWriter (adv e) = outWriter e) ->
  (exists w, outWriter enc = Some w) ->
  (e <- write enc (PutUint32 (offset enc)) ;; Ok (adv e)) = Ok enc' ->
  exists w, outWriter enc' = Some w.
Proof.
  intros Ha [w Hw]. rewrite (write_streaming enc w _ Hw). cbn [bind].
  intros E. injection E as <-. rewrite Ha. eexists. reflexivity.
Qed.

Lemma offsetPhase_streaming (adv : Encoder W -> Encoder W) (enc : Encoder W) (w : W) :
  outWriter enc = Some w ->
  offsetPhase adv enc
  = if hasErr enc then Ok enc
    else (e <- write enc (PutUint32 (offset enc)) ;; Ok (adv e)).
Proof.
  intros Hw. unfold offsetPhase, encodeOffset. rewrite Hw.
  destruct (hasErr enc); [reflexivity|].
  destruct (write enc (PutUint32 (offset enc))); reflexivity.
Qed.

Lemma offsetPhase_buffered (adv : Encoder W -> Encoder W) (enc : Encoder W) :
  outWriter enc = None ->
  offsetPhase adv enc = (e <- bufferPut enc (PutUint32 (offset enc)) ;; Ok (adv e)).
Proof.
  intros Hw. unfold offsetPhase, encodeOffset. rewrite Hw.
  destruct (bufferPut enc (PutUint32 (offset enc))); reflexivity.
Qed.

Lemma checked_loop_noop {A : Type} (body : A -> Encoder W -> outcome (Encoder W))
    (xs : list A) (enc : Encoder W) :
  hasErr enc = true -> andThen (rangeChecked body xs enc) Ok = Ok enc.
Proof.
  intros H. destruct xs as [|x xs]; cbn [rangeChecked]; [reflexivity|].
  rewrite H. reflexivity.
Qed.

(** A content function made of an inlined loop of offsets and a loop of
    contents is the sequence of the offset calls followed by the content
    calls. *)
Lemma offsets_then_contents {A : Type} (mkOffset mkContent : A -> Call)
    (adv : A -> Encoder W -> Encoder W) (xs : list A)
    (k : Encoder W -> outcome (Encoder W)) (enc : Encoder W) :
  (forall x e, outWriter (adv x e) = outWriter e) ->
  (forall x e, exec (mkOffset x) e = offsetPhase (adv x) e) ->
  (forall e, k e = execAll (map mkContent xs) e) ->
  (forall e w, outWriter e = Some w -> hasErr e = true -> k e = Ok e) ->
  andThen
    match outWriter enc with
    | Some _ =>
        rangeChecked (fun x e => e <- write e (PutUint32 (offset e)) ;; Ok (adv x e)) xs enc
    | None =>
        e <- range (fun x e => e <- bufferPut e (PutUint32 (offset e)) ;; Ok (adv x e)) xs enc ;;
        Ok (Continues e)
    end k
  = execAll (map mkOffset xs ++ map mkContent xs) enc.
Proof.
  intros Ha Ho Hk Hn. rewrite execAll_app, execAll_map.
  destruct (outWriter enc) as [w|] eqn:Hw.
  - rewrite (rangeChecked_as_sequence (fun e => exists w, outWriter e = Some w)).
    + rewrite (sequence_ext (fun e => exists w, outWriter e = Some w)
                 (fun x => exec (mkOffset x))
                 (fun x e => if hasErr e then Ok e
                             else (e <- write e (PutUint32 (offset e)) ;; Ok (adv x e)))).
      * apply bind_ext. intros e _. apply Hk.
      * intros x. apply exec_keeps_streaming.
      * intros x e [w' Hw']. rewrite Ho. apply (offsetPhase_streaming _ _ w' Hw').
      * exists w. exact Hw.
    + intros x e e' He E. exact (offset_write_keeps_streaming (adv x) e e' (Ha x) He E).
    + intros e [w' Hw'] He. exact (Hn e w' Hw' He).
    + exists w. exact Hw.
  - rewrite andThen_continues, range_as_sequence.
    rewrite (sequence_ext (fun e => outWriter e = None)
               (fun x => exec (mkOffset x))
               (fun x e => e <- bufferPut e (PutUint32 (offset e)) ;; Ok (adv x e))).
    + apply bind_ext. intros e _. apply Hk.
    + intros x. apply exec_keeps_buffered.
    + intros x e He. rewrite Ho. apply offsetPhase_buffered. exact He.
    + exact Hw.
Qed.

Lemma dynamic_bytes_content_is_calls (blobs : list (list byte)) (enc : Encoder W) :
  exec (CallSliceOfDynamicBytesContent blobs) enc
  = execAll (map CallDynamicBytesOffset blobs ++ map CallDynamicBytesContent blobs)
      (offsetDynamics enc (wrap32 (4 * len blobs))).
Proof.
  cbn [exec]. unfold EncodeSliceOfDynamicBytesContent. cbv zeta.
  apply (offsets_then_contents CallDynamicBytesOffset CallDynamicBytesContent
           (fun blob e => addOffset e (wrap32 (len blob)))).
  - reflexivity.
  - reflexivity.
  - intros e. apply dynamic_blobs_are_calls.
  - intros e w Hw He. rewrite Hw. apply checked_loop_noop. exact He.
Qed.

Lemma rangeChecked_map {A B : Type} (g : A -> B)
    (body : B -> Encoder W -> outcome (Encoder W)) (xs : list A) (enc : Encoder W) :
  rangeChecked body (map g xs) enc = rangeChecked (fun x => body (g x)) xs enc.
Proof.
  revert enc. induction xs as [|x xs IH]; intros enc; cbn [map rangeChecked]; [reflexivity|].
  destruct (hasErr enc); [reflexivity|].
  destruct (body (g x) enc); cbn [bind]; [apply IH|reflexivity].
Qed.

Lemma range_map {A B : Type} (g : A -> B)
    (body : B -> Encoder W -> outcome (Encoder W)) (xs : list A) (enc : Encoder W) :
  range body (map g xs) enc = range (fun x => body (g x)) xs enc.
Proof.
  revert enc. induction xs as [|x xs IH]; intros enc; cbn [map range]; [reflexivity|].
  destruct (body (g x) enc); cbn [bind]; [apply IH|reflexivity].
Qed.

Lemma dynamic_objects_content_is_calls (objects : list DynamicValue) (enc : Encoder W) :
  exec (CallSliceOfDynamicObjectsContent objects) enc
  = execAll (map CallDynamicObjectOffset objects ++ map CallDynamicObjectContent objects)
      (offsetDynamics enc (wrap32 (4 * len objects))).
Proof.
  simpl exec. unfold EncodeSliceOfDynamicObjectsContent. cbv zeta.
  replace (len (map (dynamicObject (W := W)) objects)) with (len objects)
    by (unfold len; rewrite length_map; reflexivity).
  rewrite rangeChecked_map, range_map.
  apply (offsets_then_contents CallDynamicObjectOffset CallDynamicObjectContent
           (fun obj e => addOffset e (SizeSSZd (dynamicObject (W := W) obj) false))).
  - reflexivity.
  - reflexivity.
  - intros e. rewrite (rangeChecked_as_sequence (fun _ => True)); auto.
    rewrite bind_Ok_r, execAll_map, map_map. reflexivity.
  - intros e w Hw He. apply checked_loop_noop. exact He.
Qed.

End InlineDynamic.

(** X16.  The loops that the content functions inline are the calls they
    stand for, in every mode and state of the encoder, errors and panics
    included: a slice of integers or of static blobs is encoded as the
    sequence of its items, a slice of static objects as the sequence of
    the objects, and a slice of dynamic blobs or objects as all the offset
    calls followed by all the content calls, after the offset has been
    restarted at four bytes per item. *)
Theorem inlined_loops_are_the_calls {W : Type} {writer : Writer W} (enc : Encoder W) :
  (forall ns, exec (CallSliceOfUint64sContent ns) enc = execAll (map CallUint64 ns) enc) /\
  (forall blobs,
     exec (CallArrayOfStaticBytes blobs) enc = execAll (map CallStaticBytes blobs) enc) /\
  (forall blobs,
     exec (CallSliceOfStaticBytesContent blobs) enc = execAll (map CallStaticBytes blobs) enc) /\
  (forall blobs,
     exec (CallSliceOfDynamicBytesContent blobs) enc
     = execAll (map CallDynamicBytesOffset blobs ++ map CallDynamicBytesContent blobs)
         (offsetDynamics enc (wrap32 (4 * len blobs)))) /\
  (forall objects,
     exec (CallSliceOfStaticObjectsContent objects) enc
     = execAll (map CallStaticObject objects) enc) /\
  (forall objects,
     exec (CallSliceOfDynamicObjectsContent objects) enc
     = execAll (map CallDynamicObjectOffset objects ++ map CallDynamicObjectContent objects)
         (offsetDynamics enc (wrap32 (4 * len objects)))).
Proof.
  split; [intros; apply uint64s_content_is_calls|].
  split; [intros; apply static_blobs_are_calls|].
  split; [intros; apply static_blobs_are_calls|].
  split; [intros; apply dynamic_bytes_content_is_calls|].
  split; [intros; apply static_objects_content_is_calls|].
  intros; apply dynamic_objects_content_is_calls.
Qed.

(** ** Single calls *)

Lemma slen_scopy_any (s : Slice) (p : list byte) : slen (scopy s p) = slen s.
Proof.
  unfold slen, scopy. simpl.
  rewrite length_app, copy_length, length_firstn, length_skipn. lia.
Qed.

Lemma MarshalSSZTo_zero : MarshalSSZTo 0 = zeros32.
Proof. reflexivity. Qed.

(** X17.  A nil [*uint256.Int] is serialized as zero, as the comment on
    [EncodeUint256] says: on every encoder, in either mode and with or
    without an error, the call with nil does what the call with zero does;
    on a buffer shorter than 32 bytes both panic. *)
Theorem nil_uint256_is_zero {W : Type} {writer : Writer W} (enc : Encoder W) :
  exec (CallUint256 None) enc = exec (CallUint256 (Some 0)) enc.
Proof.
  cbn [exec]. unfold EncodeUint256. destruct (outWriter enc) as [w|].
  - rewrite MarshalSSZTo_zero. reflexivity.
  - rewrite MarshalSSZTo_zero. destruct (Z.ltb_spec (slen (outBuffer enc)) 32) as [H|H].
    + unfold sfrom. rewrite slen_scopy_any.
      destruct (Z.leb_spec 32 (slen (outBuffer enc))); [lia|reflexivity].
    + reflexivity.
Qed.

Section KeepsOffset.
Context {W : Type} {writer : Writer W}.

Lemma keepsOffset_write (p : list byte) : keepsOffset (fun enc : Encoder W => write enc p).
Proof.
  intros enc enc'. unfold write. destruct (outWriter enc) as [w|]; [|discriminate].
  destruct (Write w p). intros E. injection E as <-. reflexivity.
Qed.

Lemma keepsOffset_bufferPut (p : list byte) :
  keepsOffset (fun enc : Encoder W => bufferPut enc p).
Proof.
  intros enc enc'. unfold bufferPut.
  destruct (sput (outBuffer enc) p) as [b|]; cbn [bind]; [|discriminate].
  destruct (sfrom b (len p)); cbn [bind]; [|discriminate].
  intros E. injection E as <-. reflexivity.
Qed.

Lemma keepsOffset_bufferCopy (p : list byte) :
  keepsOffset (fun enc : Encoder W => bufferCopy enc p).
Proof.
  intros enc enc'. unfold bufferCopy.
  destruct (sfrom (scopy (outBuffer enc) p) (len p)); cbn [bind]; [|discriminate].
  intros E. injection E as <-. reflexivity.
Qed.

Lemma keepsOffset_guarded (f : Encoder W -> outcome (Encoder W)) :
  keepsOffset f -> keepsOffset (fun enc => if hasErr enc then Ok enc else f enc).
Proof.
  intros H enc enc'. destruct (hasErr enc); [|apply H].
  intros E. injection E as <-. reflexivity.
Qed.

Lemma keepsOffset_mode (fS fB : Encoder W -> outcome (Encoder W)) :
  keepsOffset fS -> keepsOffset fB ->
  keepsOffset (fun enc => match outWriter enc with Some _ => fS enc | None => fB enc end).
Proof. intros HS HB enc enc'. destruct (outWriter enc); [apply HS|apply HB]. Qed.

Lemma keepsOffset_sequence (fs : list (Encoder W -> outcome (Encoder W))) :
  Forall keepsOffset fs -> keepsOffset (sequence fs).
Proof.
  induction 1 as [|f fs Hf _ IH]; intros enc enc'.
  - rewrite sequence_nil. intros E. injection E as <-. reflexivity.
  - rewrite sequence_cons. destruct (f enc) as [enc1|] eqn:E1; cbn [bind]; [|discriminate].
    intros E. rewrite (IH enc1 enc' E). exact (Hf enc enc1 E1).
Qed.

Lemma keepsOffset_execAll (cs : list Call) :
  Forall (fun c => keepsOffset (exec (W := W) c)) cs -> keepsOffset (execAll (W := W) cs).
Proof.
  intros H. unfold execAll. apply keepsOffset_sequence.
  induction H; simpl; constructor; assumption.
Qed.

Lemma keepsOffset_ext (f g : Encoder W -> outcome (Encoder W)) :
  (forall enc, g enc = f enc) -> keepsOffset f -> keepsOffset g.
Proof. intros E H enc enc'. rewrite E. apply H. Qed.

Lemma keepsOffset_Uint64 (n : Z) : keepsOffset (exec (W := W) (CallUint64 n)).
Proof.
  apply (keepsOffset_mode (fun enc => if hasErr enc then Ok enc else write enc (PutUint64 n))
           (fun enc => bufferPut enc (PutUint64 n))).
  - apply keepsOffset_guarded. apply keepsOffset_write.
  - apply keepsOffset_bufferPut.
Qed.

Lemma keepsOffset_StaticBytes (blob : list byte) :
  keepsOffset (exec (W := W) (CallStaticBytes blob)).
Proof.
  apply (keepsOffset_mode (fun enc => if hasErr enc then Ok enc else write enc blob)
           (fun enc => bufferCopy enc blob)).
  - apply keepsOffset_guarded. apply keepsOffset_write.
  - apply keepsOffset_bufferCopy.
Qed.

Lemma keepsOffset_calls {A : Type} (mk : A -> Call) (xs : list A) :
  (forall x, keepsOffset (exec (W := W) (mk x))) ->
  keepsOffset (execAll (W := W) (map mk xs)).
Proof.
  intros H. apply keepsOffset_execAll. apply Forall_forall.
  intros c Hc. apply in_map_iff in Hc. destruct Hc as (x & <- & _). apply H.
Qed.

Lemma keepsOffset_writesBytesOnly (c : Call) :
  writesBytesOnly c = true -> keepsOffset (exec (W := W) c).
Proof.
  destruct c; simpl writesBytesOnly; try discriminate; intros _.
  - apply keepsOffset_Uint64.
  - intros enc enc'. cbn [exec]. unfold EncodeUint256.
    destruct (outWriter enc) as [w|].
    + destruct n as [n|].
      * apply (keepsOffset_guarded _ (keepsOffset_write (MarshalSSZTo n))).
      * apply (keepsOffset_guarded _ (keepsOffset_write zeros32)).
    + destruct (sfrom _ 32); cbn [bind]; [|discriminate].
      intros E. injection E as <-. reflexivity.
  - apply keepsOffset_StaticBytes.
  - apply (keepsOffset_mode (fun enc => if hasErr enc then Ok enc else write enc blob)
             (fun enc => bufferCopy enc blob)).
    + apply keepsOffset_guarded. apply keepsOffset_write.
    + apply keepsOffset_bufferCopy.
  - apply (keepsOffset_ext (execAll (map CallUint64 ns))).
    + intros enc. apply uint64s_content_is_calls.
    + apply keepsOffset_calls. apply keepsOffset_Uint64.
  - apply (keepsOffset_ext (execAll (map CallStaticBytes blobs))).
    + intros enc. apply static_blobs_are_calls.
    + apply keepsOffset_calls. apply keepsOffset_StaticBytes.
  - apply (keepsOffset_ext (execAll (map CallStaticBytes blobs))).
    + intros enc. apply static_blobs_are_calls.
    + apply keepsOffset_calls. apply keepsOffset_StaticBytes.
Qed.

End KeepsOffset.

(** X18.  Only the offset phase moves the offset: a call that writes the
    bytes of a field (an integer, static bytes, the content of a dynamic
    blob or of a slice of integers or of static blobs) returns with the
    offset it was given, in either mode, whether or not an error is set;
    so does a static object all of whose calls are of this kind. *)
Theorem field_writes_keep_offset {W : Type} {writer : Writer W}
    (c : Call) (enc enc' : Encoder W) :
  writesBytesOnly c = true \/
  (exists obj, c = CallStaticObject obj /\
               Forall (fun c => writesBytesOnly c = true) (staticCalls obj)) ->
  exec c enc = Ok enc' -> offset enc' = offset enc.
Proof.
  intros [H|(obj & -> & H)].
  - apply keepsOffset_writesBytesOnly. exact H.
  - simpl exec. unfold EncodeStaticObject. rewrite staticObject_define.
    apply (keepsOffset_guarded (execAll (staticCalls obj))).
    apply keepsOffset_execAll.
    eapply Forall_impl; [|exact H]. intros c. apply keepsOffset_writesBytesOnly.
Qed.

Lemma field_writes_keep_offset_witness :
  offset (streaming (PutUint64 7 ++ PutUint64 7) nilSlice 12) = offset (streaming [] nilSlice 12).
Proof.
  refine (field_writes_keep_offset
            (CallStaticObject (StaticV 16 [CallUint64 7; CallUint64 7]))
            (streaming [] nilSlice 12) (streaming (PutUint64 7 ++ PutUint64 7) nilSlice 12) _ _).
  - right. eexists. split; [reflexivity|]. repeat constructor.
  - reflexivity.
Defined.

(** * The error field in buffered mode *)



Lemma loop_map {A B : Type} (g : A -> B) (outF : B -> Z -> list byte) (offF : B -> Z -> Z)
    (xs : list A) (o : Z) :
  loopBytes outF offF (map g xs) o = loopBytes (fun x => outF (g x)) (fun x => offF (g x)) xs o /\
  loopOffset offF (map g xs) o = loopOffset (fun x => offF (g x)) xs o.
Proof.
  revert o. induction xs as [|x xs IH]; intros o; cbn [map loopBytes loopOffset]; [auto|].
  destruct (IH (offF (g x) o)) as [E1 E2]. rewrite E1, E2. auto.
Qed.




(** C9, as the claim has it, fails on the code: error suppression is not
    confined to streaming mode.  [EncodeStaticObject] tests the error
    field before it looks at the mode, so on a buffered encoder with room
    and an error in the field the encoding of a [VoluntaryExit] is skipped
    without a trace, where the same call without the error writes its 16
    bytes. *)
Lemma C9_buffered_object_is_skipped_counterexample :
  exec (CallStaticObject (valueOfVoluntaryExit exit7))
    {| outWriter := @None (list byte);
       outBuffer := {| arr := repeat Byte.x00 16; lo := 0 |};
       err := Some "short write"; offset := 0 |}
  = Ok {| outWriter := None;
          outBuffer := {| arr := repeat Byte.x00 16; lo := 0 |};
          err := Some "short write"; offset := 0 |} /\
  exec (CallStaticObject (valueOfVoluntaryExit exit7))
    (buffered {| arr := repeat Byte.x00 16; lo := 0 |} 0)
  = Ok (buffered {| arr := exit7Bytes; lo := 16 |} 0).
Proof. split; vm_compute; reflexivity. Qed.



(** * The offset phase and the anchor of a dynamic region *)

Section Anchor.
Context {W : Type} {writer : Writer W}.

Lemma rangeChecked_ext {A : Type} (f g : A -> Encoder W -> outcome (Encoder W))
    (xs : list A) (enc : Encoder W) :
  (forall x enc, f x enc = g x enc) -> rangeChecked f xs enc = rangeChecked g xs enc.
Proof.
  intros H. revert enc. induction xs as [|x xs IH]; intros enc; cbn [rangeChecked]; [reflexivity|].
  destruct (hasErr enc); [reflexivity|]. rewrite H.
  destruct (g x enc); cbn [bind]; [apply IH|reflexivity].
Qed.

Lemma andThen_ext (m m' : outcome (ctl W)) (k k' : Encoder W -> outcome (Encoder W)) :
  m = m' -> (forall enc, k enc = k' enc) -> andThen m k = andThen m' k'.
Proof.
  intros <- H. unfold andThen. destruct m as [[enc|enc]|]; cbn [bind]; auto.
Qed.

Lemma anchoredOnly_walk (obj : DynamicObject W) (enc : Encoder W) :
  DefineSSZd (anchoredOnly obj) (offsetDynamics enc (SizeSSZd (anchoredOnly obj) true))
  = DefineSSZd obj (offsetDynamics enc (SizeSSZd obj true)).
Proof.
  cbn [anchoredOnly DefineSSZd SizeSSZd offsetDynamics setOffset offset].
  rewrite Z.eqb_refl. reflexivity.
Qed.

Lemma anchoredOnly_content (obj : DynamicObject W) (enc : Encoder W) :
  EncodeDynamicObjectContent (anchoredOnly obj) enc = EncodeDynamicObjectContent obj enc.
Proof.
  unfold EncodeDynamicObjectContent. destruct (hasErr enc); [reflexivity|].
  cbv zeta. apply anchoredOnly_walk.
Qed.

Lemma anchoredOnly_slice (objs : list (DynamicObject W)) (enc : Encoder W) :
  EncodeSliceOfDynamicObjectsContent (map anchoredOnly objs) enc
  = EncodeSliceOfDynamicObjectsContent objs enc.
Proof.
  unfold EncodeSliceOfDynamicObjectsContent. cbv zeta.
  replace (len (map anchoredOnly objs)) with (len objs)
    by (unfold len; rewrite length_map; reflexivity).
  apply andThen_ext.
  - destruct (outWriter (offsetDynamics enc (wrap32 (4 * len objs)))).
    + rewrite rangeChecked_map. reflexivity.
    + rewrite range_map. reflexivity.
  - intros e. apply andThen_ext; [|reflexivity].
    rewrite rangeChecked_map. apply rangeChecked_ext.
    intros x e'. apply anchoredOnly_walk.
Qed.

End Anchor.

Lemma loopBytes_app {A : Type} (outF : A -> Z -> list byte) (offF : A -> Z -> Z)
    (xs ys : list A) (o : Z) :
  loopBytes outF offF (xs ++ ys) o
  = loopBytes outF offF xs o ++ loopBytes outF offF ys (loopOffset offF xs o) /\
  loopOffset offF (xs ++ ys) o = loopOffset offF ys (loopOffset offF xs o).
Proof.
  revert o. induction xs as [|x xs IH]; intros o; cbn [app loopBytes loopOffset]; [auto|].
  destruct (IH (offF x o)) as [E1 E2]. rewrite E1, E2, app_assoc. auto.
Qed.

Lemma loopBytes_fixed {A : Type} (outF : A -> Z -> list byte) (offF : A -> Z -> Z)
    (f : A -> list byte) (xs : list A) (o : Z) :
  (forall x o, outF x o = f x) -> loopBytes outF offF xs o = concat (map f xs).
Proof.
  intros H. revert o. induction xs as [|x xs IH]; intros o; cbn [loopBytes map concat];
    [reflexivity|].
  rewrite H, IH. reflexivity.
Qed.

Lemma loop_ext {A : Type} (outF outG : A -> Z -> list byte) (offF offG : A -> Z -> Z)
    (xs : list A) (o : Z) :
  (forall x o, outF x o = outG x o) -> (forall x o, offF x o = offG x o) ->
  loopBytes outF offF xs o = loopBytes outG offG xs o /\
  loopOffset offF xs o = loopOffset offG xs o.
Proof.
  intros H1 H2. revert o. induction xs as [|x xs IH]; intros o; cbn [loopBytes loopOffset];
    [auto|].
  rewrite H1, H2. destruct (IH (offG x o)) as [E1 E2]. rewrite E1, E2. auto.
Qed.

(** The bytes of a list of dynamic objects: the table of offsets, from
    four bytes per item, then every object walked from the size of its own
    fixed region. *)
Lemma dynamic_objects_bytes (objects : list DynamicValue) (o : Z) :
  callBytes (CallSliceOfDynamicObjectsContent objects) o
  = loopBytes (fun _ o => PutUint32 o) (fun obj o => wrap32 (o + dynamicSize obj false))
      objects (wrap32 (4 * len objects))
    ++ concat (map (fun obj => loopBytes callBytes callOffset (dynamicCalls obj)
                                 (dynamicSize obj true)) objects).
Proof.
  set (d := wrap32 (4 * len objects)).
  assert (E : callBytes (CallSliceOfDynamicObjectsContent objects) o
              = outOf (execAll (map CallDynamicObjectOffset objects
                                ++ map CallDynamicObjectContent objects)) d).
  { unfold callBytes, outOf. rewrite dynamic_objects_content_is_calls. reflexivity. }
  rewrite E, (proj1 (execAll_out _ d)).
  rewrite (proj1 (loopBytes_app _ _ _ _ _)). f_equal.
  - rewrite (proj1 (loop_map CallDynamicObjectOffset callBytes callOffset objects d)).
    apply loop_ext.
    + intros x o0. exact (proj1 (callBytes_leaf (CallDynamicObjectOffset x) o0 eq_refl)).
    + intros x o0. exact (proj2 (callBytes_leaf (CallDynamicObjectOffset x) o0 eq_refl)).
  - rewrite (proj1 (loop_map CallDynamicObjectContent callBytes callOffset objects _)).
    apply loopBytes_fixed. intros x o0. apply dynamic_object_layout.
Qed.

(** The first offset placeholder of a container: after fields that leave
    the offset alone it is the size of the fixed region. *)
Lemma first_offset_after_fixed_fields (size : bool -> Z) (fixed : list Call) (c : Call)
    (rest : list Call) (o : Z) :
  Forall (fun p => forall o, callOffset p o = o) fixed -> isOffsetPhase c = true ->
  exists tail,
    callBytes (CallDynamicObjectContent (DynamicV size (fixed ++ c :: rest))) o
    = loopBytes callBytes callOffset fixed (size true) ++ PutUint32 (size true) ++ tail.
Proof.
  intros Hf Hc.
  rewrite (proj1 (dynamic_object_layout _ o)). cbn [dynamicCalls dynamicSize].
  rewrite (proj1 (loopBytes_app _ _ _ _ _)). cbn [loopBytes].
  assert (E : loopOffset callOffset fixed (size true) = size true).
  { generalize (size true). induction Hf as [|p ps Hp _ IH]; intros z; cbn [loopOffset];
      [reflexivity|]. rewrite Hp. apply IH. }
  rewrite E.
  assert (L : walksObjects c = false) by (destruct c; try discriminate Hc; reflexivity).
  rewrite (proj1 (callBytes_leaf c (size true) L)).
  assert (B : leafBytes c (size true) = PutUint32 (size true))
    by (destruct c; try discriminate Hc; reflexivity).
  rewrite B. eexists. reflexivity.
Qed.

(** C4.  An offset-phase call puts the current offset out as four
    little-endian bytes (through the sink in streaming mode, at the cursor
    in buffered mode) and then moves the offset by the content length of
    its field, modulo 2^32; for the kinds of fields whose content is bytes
    that length is the number of bytes that the content-phase call writes.
    A dynamic container is walked from an offset equal to the size of its
    fixed region, so that its first offset placeholder holds that size
    whatever the offset was before; a list of blobs starts its table of
    offsets at four times the number of items.  The two functions that
    start the schema walk of a dynamic object, [EncodeDynamicObjectContent]
    and [EncodeSliceOfDynamicObjectsContent], start it at the size of the
    object's fixed region in every state of the encoder and for every
    object, nested ones included: an object that refuses any other offset
    is encoded as the object itself.  A list of dynamic objects is its
    table of offsets, from four bytes per item, followed by every object
    walked from its own fixed size; and the first offset placeholder of a
    container follows its fixed fields, whatever they are, with the size
    of the fixed region. *)
Theorem C4_offset_phase_and_anchor {W : Type} {writer : Writer W}
    (c c' : Call) (d o : Z) (enc : Encoder W) (w : W)
    (size : bool -> Z) (prims rest : list Call) (blobs : list (list byte))
    (dobj : DynamicObject W) (dobjs : list (DynamicObject W))
    (objects : list DynamicValue) (fixed : list Call) :
  (contentLength c = Some d -> uniform c -> 0 <= offset enc < 2 ^ 32 ->
   outWriter enc = Some w -> err enc = None ->
   exec c enc = Ok {| outWriter := Some (fst (Write w (PutUint32 (offset enc))));
                      outBuffer := outBuffer enc;
                      err := snd (Write w (PutUint32 (offset enc)));
                      offset := wrap32 (offset enc + d) |}) /\
  (contentLength c = Some d -> uniform c -> 0 <= offset enc < 2 ^ 32 ->
   outWriter enc = None -> fits (outBuffer enc) (PutUint32 (offset enc)) ->
   exec c enc = Ok {| outWriter := None;
                      outBuffer := advance (outBuffer enc) (PutUint32 (offset enc));
                      err := err enc;
                      offset := wrap32 (offset enc + d) |}) /\
  (contentCall c = Some c' -> contentLength c = Some (len (callBytes c' o))) /\
  (hasErr enc = false ->
   EncodeDynamicObjectContent (dynamicObject (DynamicV size rest)) enc
   = execAll rest (setOffset enc (size true))) /\
  (Forall (fun p => isPrimitive p = true) prims -> isOffsetPhase c = true ->
   exists tail,
     callBytes (CallDynamicObjectContent (DynamicV size (prims ++ c :: rest))) o
     = concat (map (fun p => leafBytes p 0) prims) ++ PutUint32 (size true) ++ tail) /\
  callBytes (CallSliceOfDynamicBytesContent blobs) o
  = offsetTable (wrap32 (4 * len blobs)) blobs ++ concat blobs /\
  EncodeDynamicObjectContent (anchoredOnly dobj) enc = EncodeDynamicObjectContent dobj enc /\
  EncodeSliceOfDynamicObjectsContent (map anchoredOnly dobjs) enc
  = EncodeSliceOfDynamicObjectsContent dobjs enc /\
  callBytes (CallSliceOfDynamicObjectsContent objects) o
  = loopBytes (fun _ o => PutUint32 o) (fun obj o => wrap32 (o + dynamicSize obj false))
      objects (wrap32 (4 * len objects))
    ++ concat (map (fun obj => loopBytes callBytes callOffset (dynamicCalls obj)
                                 (dynamicSize obj true)) objects) /\
  (Forall (fun p => forall o, callOffset p o = o) fixed -> isOffsetPhase c = true ->
   exists tail,
     callBytes (CallDynamicObjectContent (DynamicV size (fixed ++ c :: rest))) o
     = loopBytes callBytes callOffset fixed (size true) ++ PutUint32 (size true) ++ tail).
Proof.
  split; [|split; [|split; [|split; [|split; [|split; [|split; [|split; [|split]]]]]]]].
  - intros E U Ho Hw He.
    rewrite exec_offsetPhase by (apply contentLength_offsetPhase with d; exact E).
    unfold encodeOffset, hasErr. rewrite Hw, He.
    rewrite (write_streaming enc w _ Hw). cbn [bind offset].
    rewrite (leafOffset_contentLength c d _ E U Ho). reflexivity.
  - intros E U Ho Hw Hf.
    rewrite exec_offsetPhase by (apply contentLength_offsetPhase with d; exact E).
    unfold encodeOffset. rewrite Hw.
    rewrite bufferPut_fits by exact Hf. cbn [bind].
    destruct enc as [ow ob er off]. cbn in Hw. subst ow. cbn [setOutBuffer setOffset offset outWriter outBuffer err].
    cbn [offset] in Ho.
    rewrite (leafOffset_contentLength c d _ E U Ho). reflexivity.
  - apply contentCall_length.
  - intros He. unfold EncodeDynamicObjectContent. rewrite He. reflexivity.
  - apply first_offset_is_fixed_size.
  - exact (proj1 (simAt_out _ _ _ _ _
            (simAt_leaf (CallSliceOfDynamicBytesContent blobs) o eq_refl))).
  - apply anchoredOnly_content.
  - apply anchoredOnly_slice.
  - apply dynamic_objects_bytes.
  - apply first_offset_after_fixed_fields.
Qed.

Lemma C4_offset_phase_and_anchor_witness :
  exec (CallDynamicBytesOffset [Byte.x61; Byte.x62; Byte.x63]) (streaming [] nilSlice 8)
    = Ok (streaming (PutUint32 8) nilSlice 11) /\
  exec (CallDynamicBytesOffset [Byte.x61; Byte.x62; Byte.x63])
      (buffered {| arr := repeat Byte.x00 13; lo := 0 |} 8)
    = Ok (buffered (advance {| arr := repeat Byte.x00 13; lo := 0 |} (PutUint32 8)) 11) /\
  contentLength (CallDynamicBytesOffset [Byte.x61; Byte.x62; Byte.x63])
    = Some (len (callBytes (CallDynamicBytesContent [Byte.x61; Byte.x62; Byte.x63]) 0)) /\
  EncodeDynamicObjectContent (dynamicObject blobsS3) (streaming [] nilSlice 0)
    = execAll (dynamicCalls blobsS3) (setOffset (streaming [] nilSlice 0) 8) /\
  (exists tail,
     callBytes (CallDynamicObjectContent blobsS3) 0 = [] ++ PutUint32 8 ++ tail) /\
  (exists tail,
     callBytes (CallDynamicObjectContent
                  (DynamicV (fun fixed => if fixed then 20 else 25)
                     ([CallStaticObject (valueOfVoluntaryExit exit7)]
                      ++ CallDynamicBytesOffset [Byte.x61; Byte.x62; Byte.x63]
                         :: [CallDynamicBytesContent [Byte.x61; Byte.x62; Byte.x63]]))) 0
     = loopBytes callBytes callOffset [CallStaticObject (valueOfVoluntaryExit exit7)] 20
       ++ PutUint32 20 ++ tail).
Proof.
  pose (abc := [Byte.x61; Byte.x62; Byte.x63]).
  pose (room := {| arr := repeat Byte.x00 13; lo := 0 |}).
  pose (T := fun enc => C4_offset_phase_and_anchor (W := list byte)
               (CallDynamicBytesOffset abc) (CallDynamicBytesContent abc) 3 0 enc []
               (dynamicSize blobsS3) [] (tl (dynamicCalls blobsS3)) []
               (dynamicObject blobsS3) [] [] []).
  split; [|split; [|split; [|split; [|split]]]].
  - refine (proj1 (T (streaming [] nilSlice 8)) _ _ _ _ _).
    + reflexivity.
    + exact I.
    + simpl. lia.
    + reflexivity.
    + reflexivity.
  - refine (proj1 (proj2 (T (buffered room 8))) _ _ _ _ _).
    + reflexivity.
    + exact I.
    + simpl. lia.
    + reflexivity.
    + unfold fits. simpl. lia.
  - refine (proj1 (proj2 (proj2 (T (streaming [] nilSlice 0)))) _). reflexivity.
  - pose (U := C4_offset_phase_and_anchor (W := list byte)
                 (CallDynamicBytesOffset abc) (CallDynamicBytesContent abc) 3 0
                 (streaming [] nilSlice 0) []
                 (dynamicSize blobsS3) [] (dynamicCalls blobsS3) []
                 (dynamicObject blobsS3) [] [] []).
    refine (proj1 (proj2 (proj2 (proj2 U))) _). reflexivity.
  - refine (proj1 (proj2 (proj2 (proj2 (proj2 (T (streaming [] nilSlice 0)))))) _ _).
    + constructor.
    + reflexivity.
  - pose (V := C4_offset_phase_and_anchor (W := list byte)
                 (CallDynamicBytesOffset abc) (CallDynamicBytesContent abc) 3 0
                 (streaming [] nilSlice 0) []
                 (fun fixed : bool => if fixed then 20 else 25) []
                 [CallDynamicBytesContent abc] []
                 (dynamicObject blobsS3) [] []
                 [CallStaticObject (valueOfVoluntaryExit exit7)]).
    refine (proj2 (proj2 (proj2 (proj2 (proj2 (proj2 (proj2 (proj2 (proj2 V)))))))) _ _).
    + constructor; [|constructor]. intros o0. vm_compute. reflexivity.
    + reflexivity.
Defined.

(** * The first rejected write *)

Section Feed.
Context {W : Type} {writer : Writer W}.

Lemma feed_one (w : W) (p : list byte) : feed w [p] = Write w p.
Proof. cbn [feed]. destruct (Write w p) as [w' [e|]]; reflexivity. Qed.

Lemma feed_app_ok (w : W) (a b : list (list byte)) :
  snd (feed w a) = None -> feed w (a ++ b) = feed (fst (feed w a)) b.
Proof.
  revert w. induction a as [|p a IH]; intros w; cbn [app feed]; [reflexivity|].
  destruct (Write w p) as [w' [e|]]; [discriminate|]. apply IH.
Qed.

Lemma feed_app_err (w : W) (a b : list (list byte)) (e : error) :
  snd (feed w a) = Some e -> feed w (a ++ b) = feed w a.
Proof.
  revert w. induction a as [|p a IH]; intros w; cbn [app feed]; [discriminate|].
  destruct (Write w p) as [w' [e'|]]; [reflexivity|]. apply IH.
Qed.

(** A call that issues one write puts the answer of the sink into the
    error field, whatever the answer is. *)
Lemma single_write_streaming (c : Call) (enc : Encoder W) (w : W) :
  writesOnce c = true -> outWriter enc = Some w -> err enc = None ->
  exec c enc
  = Ok {| outWriter := Some (fst (Write w (leafBytes c (offset enc))));
          outBuffer := outBuffer enc;
          err := snd (Write w (leafBytes c (offset enc)));
          offset := leafOffset c (offset enc) |}.
Proof.
  intros H Hw He.
  destruct c; try discriminate H;
    try (rewrite exec_offsetPhase by reflexivity;
         unfold encodeOffset, hasErr; rewrite Hw, He;
         rewrite (write_streaming enc w _ Hw); reflexivity).
  - cbn [exec]. unfold EncodeUint64, hasErr. rewrite Hw, He.
    apply write_streaming. exact Hw.
  - cbn [exec]. unfold EncodeUint256, hasErr. rewrite Hw, He.
    destruct n; apply write_streaming; exact Hw.
  - cbn [exec]. unfold EncodeStaticBytes, hasErr. rewrite Hw, He.
    apply write_streaming. exact Hw.
  - cbn [exec]. unfold EncodeDynamicBytesContent, hasErr. rewrite Hw, He.
    apply write_streaming. exact Hw.
Qed.

End Feed.

Lemma feed_recorder (r : Recorder) (ps : list (list byte)) :
  feed r ps = ({| recorded := recorded r ++ ps |}, None).
Proof.
  revert r. induction ps as [|p ps IH]; intros r; cbn [feed].
  - rewrite app_nil_r. destruct r. reflexivity.
  - unfold Write at 1, recorder at 1. rewrite IH. cbn [recorded].
    rewrite <- app_assoc. reflexivity.
Qed.

Section FeedsAt.
Context {W : Type} {writer : Writer W}.

Lemma feedsAt_single (c : Call) (o : Z) :
  writesOnce c = true ->
  feedsAt (W := W) (exec c) (exec c) o [leafBytes c o] (leafOffset c o).
Proof.
  intros H. split.
  - intros r b.
    rewrite (single_write_streaming c (recording r b o) {| recorded := r |} H eq_refl eq_refl).
    reflexivity.
  - intros w b. exists (leafOffset c o). split; [|auto].
    rewrite (single_write_streaming c
               {| outWriter := Some w; outBuffer := b; err := None; offset := o |}
               w H eq_refl eq_refl).
    rewrite feed_one. reflexivity.
Qed.

Lemma feedsAt_ret (o : Z) : feedsAt (W := W) Ok Ok o [] o.
Proof.
  split.
  - intros r b. rewrite app_nil_r. reflexivity.
  - intros w b. exists o. split; [reflexivity|auto].
Qed.

Lemma feedsAt_ext fW fR fW' fR' (o : Z) (ps : list (list byte)) (o' : Z) :
  (forall enc, fW' enc = fW enc) -> (forall enc, fR' enc = fR enc) ->
  feedsAt (W := W) fW fR o ps o' -> feedsAt fW' fR' o ps o'.
Proof.
  intros EW ER [R S]. split.
  - intros r b. rewrite ER. apply R.
  - intros w b. destruct (S w b) as (o'' & E & H). exists o''. rewrite EW. auto.
Qed.

Lemma feedsAt_bind f1W f1R f2W f2R (o o1 o2 : Z) (a b : list (list byte)) :
  feedsAt (W := W) f1W f1R o a o1 -> feedsAt f2W f2R o1 b o2 -> skips f2W ->
  feedsAt (fun enc => enc <- f1W enc ;; f2W enc) (fun enc => enc <- f1R enc ;; f2R enc)
    o (a ++ b) o2.
Proof.
  intros [R1 S1] [R2 S2] K. split.
  - intros r b0. rewrite R1. cbn [bind]. rewrite R2, app_assoc. reflexivity.
  - intros w b0. destruct (S1 w b0) as (o'' & E1 & H1). rewrite E1. cbn [bind].
    destruct (snd (feed w a)) as [e|] eqn:Ea.
    + rewrite (feed_app_err w a b e Ea), Ea.
      destruct (K {| outWriter := Some (fst (feed w a)); outBuffer := b0;
                     err := Some e; offset := o'' |} (fst (feed w a)) e)
        as (enc' & E2 & [Lw Le] & Lb).
      { split; reflexivity. }
      rewrite E2. destruct enc' as [ow ob er off]. cbn in Lw, Le, Lb. subst ow ob er.
      exists off. split; [reflexivity|discriminate].
    + rewrite (feed_app_ok w a b Ea). rewrite (H1 eq_refl).
      destruct (S2 (fst (feed w a)) b0) as (o3 & E2 & H2).
      exists o3. split; assumption.
Qed.

Lemma feedsAt_guarded fW fR (o : Z) (ps : list (list byte)) (o' : Z) :
  feedsAt (W := W) fW fR o ps o' ->
  feedsAt (fun enc => if hasErr enc then Ok enc else fW enc)
          (fun enc => if hasErr enc then Ok enc else fR enc) o ps o'.
Proof. intros [R S]. split; intros; [apply R|apply S]. Qed.

Lemma feedsAt_anchored fW fR (d o : Z) (ps : list (list byte)) (o' : Z) :
  feedsAt (W := W) fW fR d ps o' ->
  feedsAt (fun enc => fW (offsetDynamics enc d)) (fun enc => fR (offsetDynamics enc d))
    o ps o'.
Proof. intros [R S]. split; intros; [apply R|apply S]. Qed.

Lemma skips_execAll (cs : list Call) : skips (execAll (W := W) cs).
Proof. intros enc w e H. apply execAll_latched. exact H. Qed.

Lemma feedsAt_execAll (cs : list Call) :
  Forall (fun c => forall o, exists ps o', feedsAt (W := W) (exec c) (exec c) o ps o') cs ->
  forall o, exists ps o', feedsAt (W := W) (execAll cs) (execAll cs) o ps o'.
Proof.
  induction 1 as [|c cs Hc _ IH]; intros o.
  - exists [], o. apply feedsAt_ret.
  - destruct (Hc o) as (a & o1 & H1). destruct (IH o1) as (b & o2 & H2).
    exists (a ++ b), o2.
    apply (feedsAt_ext (fun enc => enc <- exec c enc ;; execAll cs enc)
             (fun enc => enc <- exec c enc ;; execAll cs enc)).
    + intros enc. apply execAll_cons.
    + intros enc. apply execAll_cons.
    + apply feedsAt_bind with (o1 := o1); [exact H1|exact H2|apply skips_execAll].
Qed.

Lemma feedsAt_calls {A : Type} (mk : A -> Call) (xs : list A) :
  (forall x o, exists ps o', feedsAt (W := W) (exec (mk x)) (exec (mk x)) o ps o') ->
  forall o, exists ps o',
    feedsAt (W := W) (execAll (map mk xs)) (execAll (map mk xs)) o ps o'.
Proof.
  intros H. apply feedsAt_execAll. apply Forall_forall.
  intros c Hc. apply in_map_iff in Hc. destruct Hc as (x & <- & _). apply H.
Qed.

Lemma feedsAt_once (c : Call) :
  writesOnce c = true ->
  forall o, exists ps o', feedsAt (W := W) (exec c) (exec c) o ps o'.
Proof. intros H o. eexists. eexists. apply feedsAt_single. exact H. Qed.

End FeedsAt.

Section FeedsAll.
Context {W : Type} {writer : Writer W}.

Lemma feeds_static_object (obj : StaticValue) :
  Forall (fun c => forall o, exists ps o', feedsAt (W := W) (exec c) (exec c) o ps o')
    (staticCalls obj) ->
  forall o, exists ps o',
    feedsAt (W := W) (exec (CallStaticObject obj)) (exec (CallStaticObject obj)) o ps o'.
Proof.
  intros H o. destruct (feedsAt_execAll _ H o) as (ps & o' & F).
  exists ps, o'.
  apply (feedsAt_ext (fun enc => if hasErr enc then Ok enc else execAll (staticCalls obj) enc)
           (fun enc => if hasErr enc then Ok enc else execAll (staticCalls obj) enc)).
  - intros enc. simpl exec. unfold EncodeStaticObject. rewrite staticObject_define. reflexivity.
  - intros enc. simpl exec. unfold EncodeStaticObject. rewrite staticObject_define. reflexivity.
  - apply feedsAt_guarded. exact F.
Qed.

Lemma feeds_dynamic_object (obj : DynamicValue) :
  Forall (fun c => forall o, exists ps o', feedsAt (W := W) (exec c) (exec c) o ps o')
    (dynamicCalls obj) ->
  forall o, exists ps o',
    feedsAt (W := W) (exec (CallDynamicObjectContent obj))
      (exec (CallDynamicObjectContent obj)) o ps o'.
Proof.
  intros H o. destruct (feedsAt_execAll _ H (dynamicSize obj true)) as (ps & o' & F).
  exists ps, o'.
  apply (feedsAt_ext
           (fun enc => if hasErr enc then Ok enc
                       else execAll (dynamicCalls obj) (offsetDynamics enc (dynamicSize obj true)))
           (fun enc => if hasErr enc then Ok enc
                       else execAll (dynamicCalls obj) (offsetDynamics enc (dynamicSize obj true)))).
  - intros enc. simpl exec. unfold EncodeDynamicObjectContent.
    rewrite dynamicObject_define, dynamicObject_size. reflexivity.
  - intros enc. simpl exec. unfold EncodeDynamicObjectContent.
    rewrite dynamicObject_define, dynamicObject_size. reflexivity.
  - apply feedsAt_guarded.
    apply (feedsAt_anchored (execAll (dynamicCalls obj)) (execAll (dynamicCalls obj))).
    exact F.
Qed.

Lemma feeds_exec (c : Call) :
  forall o, exists ps o', feedsAt (W := W) (exec c) (exec c) o ps o'.
Proof.
  induction c using Call_walk_ind.
  - destruct c; try discriminate H; try (apply feedsAt_once; reflexivity); intros o.
    + destruct (feedsAt_calls (W := W) CallUint64 ns
                  (fun x => feedsAt_once (CallUint64 x) eq_refl) o) as (ps & o' & F).
      exists ps, o'. revert F. apply feedsAt_ext; intros enc; apply uint64s_content_is_calls.
    + destruct (feedsAt_calls (W := W) CallStaticBytes blobs
                  (fun x => feedsAt_once (CallStaticBytes x) eq_refl) o) as (ps & o' & F).
      exists ps, o'. revert F. apply feedsAt_ext; intros enc; apply static_blobs_are_calls.
    + destruct (feedsAt_calls (W := W) CallStaticBytes blobs
                  (fun x => feedsAt_once (CallStaticBytes x) eq_refl) o) as (ps & o' & F).
      exists ps, o'. revert F. apply feedsAt_ext; intros enc; apply static_blobs_are_calls.
    + destruct (feedsAt_execAll (W := W)
                  (map CallDynamicBytesOffset blobs ++ map CallDynamicBytesContent blobs))
        with (o := wrap32 (4 * len blobs)) as (ps & o' & F).
      { apply Forall_app. split; apply Forall_forall; intros c Hc;
          apply in_map_iff in Hc; destruct Hc as (x & <- & _);
          apply feedsAt_once; reflexivity. }
      exists ps, o'.
      apply (feedsAt_anchored _ _ (wrap32 (4 * len blobs)) o) in F.
      revert F. apply feedsAt_ext; intros enc; apply dynamic_bytes_content_is_calls.
  - apply feeds_static_object. assumption.
  - apply feeds_dynamic_object. assumption.
  - intros o.
    destruct (feedsAt_execAll (W := W) (map CallStaticObject objects)) with (o := o)
      as (ps & o' & F).
    { clear o. induction H as [|obj objects Hobj _ IH]; cbn [map]; constructor; [|exact IH].
      apply feeds_static_object. exact Hobj. }
    exists ps, o'. revert F.
    apply feedsAt_ext; intros enc; apply static_objects_content_is_calls.
  - intros o.
    destruct (feedsAt_execAll (W := W)
                (map CallDynamicObjectOffset objects ++ map CallDynamicObjectContent objects))
      with (o := wrap32 (4 * len objects)) as (ps & o' & F).
    { apply Forall_app. split.
      - apply Forall_forall. intros c Hc. apply in_map_iff in Hc.
        destruct Hc as (x & <- & _). apply feedsAt_once. reflexivity.
      - clear o. induction H as [|obj objects Hobj _ IH]; cbn [map]; constructor; [|exact IH].
        apply feeds_dynamic_object. exact Hobj. }
    exists ps, o'.
    apply (feedsAt_anchored _ _ (wrap32 (4 * len objects)) o) in F.
    revert F. apply feedsAt_ext; intros enc; apply dynamic_objects_content_is_calls.
Qed.

(** Every call leaves the sink and the error as the first rejected write
    of its own writes has them. *)
Lemma exec_feeds (c : Call) (enc : Encoder W) (w : W) :
  outWriter enc = Some w -> err enc = None ->
  exists enc', exec c enc = Ok enc' /\
    outWriter enc' = Some (fst (feed w (chunks c (offset enc)))) /\
    err enc' = snd (feed w (chunks c (offset enc))) /\
    outBuffer enc' = outBuffer enc.
Proof.
  intros Hw He. destruct enc as [ow ob er off]. cbn in Hw, He. subst ow er.
  cbn [offset outBuffer].
  destruct (feeds_exec c off) as (ps & o' & R & S).
  assert (E : chunks c off = ps).
  { unfold chunks, writesOf. rewrite R. reflexivity. }
  rewrite E. destruct (S w ob) as (o'' & Ex & _).
  eexists. split; [exact Ex|]. cbn. auto.
Qed.

End FeedsAll.

Lemma feed_bytesBuffer (w : list byte) (ps : list (list byte)) :
  feed w ps = (w ++ concat ps, None).
Proof.
  revert w. induction ps as [|p ps IH]; intros w; cbn [feed concat].
  - rewrite app_nil_r. reflexivity.
  - unfold Write at 1, bytesBuffer at 1. rewrite IH, <- app_assoc. reflexivity.
Qed.

(** The writes of a call are its bytes, cut where the code cuts them. *)
Lemma chunks_are_the_bytes (c : Call) (o : Z) : concat (chunks c o) = callBytes c o.
Proof.
  destruct (exec_feeds c (streaming [] nilSlice o) [] eq_refl eq_refl)
    as (enc' & E & Hw & _).
  unfold callBytes, outOf. rewrite E. unfold sinkOf. rewrite Hw.
  cbn [offset streaming]. rewrite feed_bytesBuffer. reflexivity.
Qed.

Lemma EncodeToStream_feeds {W : Type} {writer : Writer W} (w0 : W)
    (sv : StaticValue) (dv : DynamicValue) :
  EncodeToStream w0 (objectOf (StaticValueOf sv))
  = Ok (feed w0 (chunks (CallStaticObject sv) 0)) /\
  EncodeToStream w0 (objectOf (DynamicValueOf dv))
  = Ok (feed w0 (chunks (CallDynamicObjectContent dv) 0)).
Proof.
  split.
  - destruct (exec_feeds (CallStaticObject sv) (newStreaming w0) w0 eq_refl eq_refl)
      as (enc' & E & Hw & He & _).
    unfold EncodeToStream, objectOf, encodeObject.
    change (EncodeStaticObject (staticObject sv) (newStreaming w0))
      with (exec (CallStaticObject sv) (newStreaming w0)).
    rewrite E. cbn [bind]. unfold sinkOf. rewrite Hw, He. cbn [offset newStreaming].
    destruct (feed w0 (chunks (CallStaticObject sv) 0)). reflexivity.
  - destruct (exec_feeds (CallDynamicObjectContent dv) (newStreaming w0) w0 eq_refl eq_refl)
      as (enc' & E & Hw & He & _).
    unfold EncodeToStream, objectOf, encodeObject.
    change (EncodeDynamicObjectContent (dynamicObject dv) (newStreaming w0))
      with (exec (CallDynamicObjectContent dv) (newStreaming w0)).
    rewrite E. cbn [bind]. unfold sinkOf. rewrite Hw, He. cbn [offset newStreaming].
    destruct (feed w0 (chunks (CallDynamicObjectContent dv) 0)). reflexivity.
Qed.

(** C5.  In streaming mode the result of a write to the sink goes into
    [enc.err], so a failed write latches its error: shown for the write
    statement that all encode functions share, for [EncodeUint64], and for
    every call that issues one write, whose error field is the answer of
    the sink.  With an error latched, every encode call returns without
    touching the sink or the error, and so does every sequence of calls;
    hence a schema whose calls [pre] end with a latched error [e] makes
    the whole encoding return [e], with the sink as [pre] left it.  In
    general, every call on an encoder without an error leaves the sink
    and the error as its writes leave them when they are offered to the
    sink one by one up to the first that the sink rejects: that rejection
    is the error, the writes before it have reached the sink, and no
    write after it is made; the writes of a call are its bytes.  The same
    holds of the encoding of a whole value, static or dynamic, which
    returns the first rejection. *)
Theorem C5_first_write_error_latches {W : Type} {writer : Writer W}
    (enc enc1 : Encoder W) (w w0 : W) (e : error) (p : list byte) (n : Z)
    (c : Call) (size : Z) (pre post : list Call) (o : Z)
    (sv : StaticValue) (dv : DynamicValue) :
  (outWriter enc = Some w ->
   write enc p = Ok {| outWriter := Some (fst (Write w p));
                       outBuffer := outBuffer enc;
                       err := snd (Write w p);
                       offset := offset enc |}) /\
  (outWriter enc = Some w -> err enc = None ->
   EncodeUint64 n enc = Ok {| outWriter := Some (fst (Write w (PutUint64 n)));
                              outBuffer := outBuffer enc;
                              err := snd (Write w (PutUint64 n));
                              offset := offset enc |}) /\
  (latched enc w e ->
   exists enc', exec c enc = Ok enc' /\ outWriter enc' = Some w /\ err enc' = Some e) /\
  (latched enc w e ->
   exists enc', execAll post enc = Ok enc' /\ outWriter enc' = Some w /\ err enc' = Some e) /\
  (execAll pre (newStreaming w0) = Ok enc1 -> latched enc1 w e ->
   EncodeToStream w0 (objectOf (StaticValueOf (StaticV size (pre ++ post))))
     = Ok (w, Some e)) /\
  (writesOnce c = true -> outWriter enc = Some w -> err enc = None ->
   exec c enc
   = Ok {| outWriter := Some (fst (Write w (leafBytes c (offset enc))));
           outBuffer := outBuffer enc;
           err := snd (Write w (leafBytes c (offset enc)));
           offset := leafOffset c (offset enc) |}) /\
  (outWriter enc = Some w -> err enc = None ->
   exists enc', exec c enc = Ok enc' /\
     outWriter enc' = Some (fst (feed w (chunks c (offset enc)))) /\
     err enc' = snd (feed w (chunks c (offset enc))) /\
     outBuffer enc' = outBuffer enc) /\
  concat (chunks c o) = callBytes c o /\
  EncodeToStream w0 (objectOf (StaticValueOf sv))
  = Ok (feed w0 (chunks (CallStaticObject sv) 0)) /\
  EncodeToStream w0 (objectOf (DynamicValueOf dv))
  = Ok (feed w0 (chunks (CallDynamicObjectContent dv) 0)).
Proof.
  split; [|split; [|split; [|split; [|split; [|split; [|split; [|split]]]]]]].
  - apply write_streaming.
  - intros Hw He. unfold EncodeUint64, hasErr. rewrite Hw, He.
    apply write_streaming. exact Hw.
  - intros H. destruct (exec_latched c enc w e H) as (enc' & E & [Lw Le] & _).
    exists enc'. auto.
  - intros H. destruct (execAll_latched post enc w e H) as (enc' & E & [Lw Le] & _).
    exists enc'. auto.
  - intros Hpre H. unfold EncodeToStream, objectOf, encodeObject, EncodeStaticObject.
    simpl hasErr. cbv iota.
    rewrite staticObject_define. simpl staticCalls.
    rewrite execAll_app, Hpre. simpl.
    destruct (execAll_latched post enc1 w e H) as (enc' & E & [Lw Le] & _).
    rewrite E. simpl. unfold sinkOf. rewrite Lw, Le. reflexivity.
  - apply single_write_streaming.
  - apply exec_feeds.
  - apply chunks_are_the_bytes.
  - apply EncodeToStream_feeds.
Qed.

Lemma C5_first_write_error_latches_witness :
  write (newStreaming {| taken := PutUint64 1; room := 0 |}) (PutUint64 2)
    = Ok {| outWriter := Some {| taken := PutUint64 1; room := 0 |};
            outBuffer := nilSlice; err := Some "short write"; offset := 0 |} /\
  EncodeUint64 2 (newStreaming {| taken := PutUint64 1; room := 0 |})
    = Ok {| outWriter := Some {| taken := PutUint64 1; room := 0 |};
            outBuffer := nilSlice; err := Some "short write"; offset := 0 |} /\
  (exists enc',
     exec (CallUint64 3)
       {| outWriter := Some {| taken := PutUint64 1; room := 0 |};
          outBuffer := nilSlice; err := Some "short write"; offset := 0 |} = Ok enc' /\
     outWriter enc' = Some {| taken := PutUint64 1; room := 0 |} /\
     err enc' = Some "short write") /\
  (exists enc',
     execAll [CallUint64 3]
       {| outWriter := Some {| taken := PutUint64 1; room := 0 |};
          outBuffer := nilSlice; err := Some "short write"; offset := 0 |} = Ok enc' /\
     outWriter enc' = Some {| taken := PutUint64 1; room := 0 |} /\
     err enc' = Some "short write") /\
  EncodeToStream sinkOfEight (objectOf (StaticValueOf (StaticV 24 threeWrites)))
    = Ok ({| taken := PutUint64 1; room := 0 |}, Some "short write") /\
  exec (CallStaticBytes (PutUint64 2)) (newStreaming {| taken := PutUint64 1; room := 0 |})
    = Ok {| outWriter :=
              Some (fst (Write {| taken := PutUint64 1; room := 0 |}
                           (leafBytes (CallStaticBytes (PutUint64 2)) 0)));
            outBuffer := nilSlice;
            err := snd (Write {| taken := PutUint64 1; room := 0 |}
                          (leafBytes (CallStaticBytes (PutUint64 2)) 0));
            offset := leafOffset (CallStaticBytes (PutUint64 2)) 0 |} /\
  (exists enc',
     exec (CallDynamicObjectContent blobsS3) (newStreaming sinkOfEight) = Ok enc' /\
     outWriter enc' = Some (fst (feed sinkOfEight (chunks (CallDynamicObjectContent blobsS3) 0))) /\
     err enc' = snd (feed sinkOfEight (chunks (CallDynamicObjectContent blobsS3) 0)) /\
     outBuffer enc' = nilSlice).
Proof.
  pose (full := {| taken := PutUint64 1; room := 0 |}).
  pose (stuck := {| outWriter := Some full; outBuffer := nilSlice;
                    err := Some "short write"; offset := 0 |}).
  pose (T := fun enc => C5_first_write_error_latches enc stuck full sinkOfEight
               "short write" (PutUint64 2) 2 (CallUint64 3) 24
               [CallUint64 1; CallUint64 2] [CallUint64 3] 0
               (StaticV 24 threeWrites) blobsS3).
  split; [|split; [|split; [|split; [|split; [|split]]]]].
  - refine (proj1 (T (newStreaming full)) _).
    reflexivity.
  - refine (proj1 (proj2 (T (newStreaming full))) _ _).
    + reflexivity.
    + reflexivity.
  - refine (proj1 (proj2 (proj2 (T stuck))) _).
    split; reflexivity.
  - refine (proj1 (proj2 (proj2 (proj2 (T stuck)))) _).
    split; reflexivity.
  - refine (proj1 (proj2 (proj2 (proj2 (proj2 (T stuck))))) _ _).
    + vm_compute. reflexivity.
    + split; reflexivity.
  - refine (proj1 (proj2 (proj2 (proj2 (proj2 (proj2
              (C5_first_write_error_latches (newStreaming full) stuck full sinkOfEight
                 "short write" (PutUint64 2) 2 (CallStaticBytes (PutUint64 2)) 24
                 [] [] 0 (StaticV 24 threeWrites) blobsS3)))))) _ _ _).
    + reflexivity.
    + reflexivity.
    + reflexivity.
  - refine (proj1 (proj2 (proj2 (proj2 (proj2 (proj2 (proj2
              (C5_first_write_error_latches (newStreaming sinkOfEight) stuck sinkOfEight
                 sinkOfEight "short write" (PutUint64 2) 2
                 (CallDynamicObjectContent blobsS3) 24
                 [] [] 0 (StaticV 24 threeWrites) blobsS3))))))) _ _).
    + reflexivity.
    + reflexivity.
Defined.
